(** * Function client: staleness engine, migration engine and lifecycle
      orchestration

    A shallow embedding of the Go package [function] (client and
    migrations) together with the properties its specification states.

    Conventions of the embedding.
    - A Go [error] value is an [option error]: [None] is [nil].
    - A Go [string] is a [string] (a sequence of bytes).
    - Calls into the Go standard library whose behaviour does not depend on
      this package ([filepath.Join], [filepath.Abs], [sha256], ...) are the
      fields of the class [Platform]; everything proved holds for every
      implementation of them.
    - Functions of this package that live in files other than the client
      and the migrations ([NewFunction], [Function.Write], ...) are the
      fields of the class [FunctionPkg].
    - The file system is a tree of directories and files with modification
      times and permission bits; there are no symbolic links.
    - The goroutines that only watch for cancellation, and the heartbeat
      ticker of [Build], are left out: the model follows the main flow of
      each operation under a context that is not cancelled. *)

From Stdlib Require Import ZArith String Ascii List Lia Bool DecimalString.
From Stdlib Require Import OrderedTypeEx.
From stdpp Require Import base option list strings gmap sorting.

Local Open Scope Z_scope.
Local Open Scope string_scope.
Local Open Scope list_scope.

(** ** Constants of the package *)

Definition DefaultRegistry : string := "docker.io".
Definition DefaultTemplate : string := "http".
Definition DefaultVersion : string := "0.0.0".
Definition DefaultConfigPath : string := ".config/func".
Definition RunDataDir : string := ".func".
Definition buildstamp : string := "built".

(** ** Errors *)

Inductive Errno := ENOENT | EACCES | ENOTDIR | EISDIR.

(** Error values.  [ErrNotBuilt] is the package-level variable made once by
    [errors.New("not built")]; [SkipDir] is [filepath.SkipDir]; [Errorf] is a
    value made at a call site by [fmt.Errorf] or [errors.New] (also the
    errors collaborators make); [PathError] is what package [os] returns. *)
Inductive error :=
| ErrNotBuilt
| SkipDir
| Errorf (msg : string)
| PathError (op path : string) (errno : Errno).

#[global] Instance Errno_eq_dec : EqDecision Errno.
Proof. solve_decision. Defined.
#[global] Instance error_eq_dec : EqDecision error.
Proof. solve_decision. Defined.

Definition errno_text (e : Errno) : string :=
  match e with
  | ENOENT => "no such file or directory"
  | EACCES => "permission denied"
  | ENOTDIR => "not a directory"
  | EISDIR => "is a directory"
  end.

(** The [Error()] method. *)
Definition Error (e : error) : string :=
  match e with
  | ErrNotBuilt => "not built"
  | SkipDir => "skip this directory"
  | Errorf msg => msg
  | PathError op path errno => op +:+ " " +:+ path +:+ ": " +:+ errno_text errno
  end.

(** Result of a library call that returns [(value, error)] and whose value
    is meaningless when the error is set. *)
Inductive res (A : Type) :=
| ok (a : A)
| fail (e : error).
Arguments ok {A} a.
Arguments fail {A} e.

(** ** The platform: Go standard library and operating system *)

Class Platform := {
  (** [filepath.Join] *)
  Join : list string → string;
  (** [filepath.Abs] *)
  Abs : string → res string;
  (** [os.Getwd] *)
  Getwd : res string;
  (** the [Name()] of the [FileInfo] that [os.Lstat] returns for a path *)
  basename : string → string;
  (** the names the operating system walks, from the root of the file
      system, to reach the entry a path designates *)
  resolve : string → list string;
  (** [sha256]: the digest of everything written to the hash *)
  Sum256 : string → string;
  (** [runtime.GOOS] *)
  GOOS : string;
}.

(** ** File system *)

Record Perm := { pr : bool; pw : bool; px : bool }.

Definition ModePerm : Perm := {| pr := true; pw := true; px := true |}.

(** A directory lists its entries in the order [readDirNames] reports them:
    ascending by name ([sort.Strings]). *)
#[warnings="-register-all"]
Inductive node :=
| File (mtime : Z) (perm : Perm) (data : string)
| Dir (mtime : Z) (perm : Perm) (entries : list (string * node)).

Definition is_dir (n : node) : bool :=
  match n with Dir _ _ _ => true | File _ _ _ => false end.

Definition mtime_of (n : node) : Z :=
  match n with Dir m _ _ => m | File m _ _ => m end.

Fixpoint get_entry (name : string) (es : list (string * node)) : option node :=
  match es with
  | [] => None
  | (n, c) :: es' => if String.eqb n name then Some c else get_entry name es'
  end.

(** Replace the entry called [name]. *)
Fixpoint set_entry (name : string) (c : node) (es : list (string * node))
  : list (string * node) :=
  match es with
  | [] => []
  | (n, c0) :: es' =>
      if String.eqb n name then (n, c) :: es' else (n, c0) :: set_entry name c es'
  end.

(** Add an entry under a new name, keeping the listing in name order. *)
Fixpoint add_entry (name : string) (c : node) (es : list (string * node))
  : list (string * node) :=
  match es with
  | [] => [(name, c)]
  | (n, c0) :: es' =>
      if String.ltb name n then (name, c) :: (n, c0) :: es'
      else (n, c0) :: add_entry name c es'
  end.

(** Reaching an entry from a directory, one name at a time.  Passing
    through a directory needs its search permission. *)
Fixpoint find (p : list string) (n : node) : Errno + node :=
  match p with
  | [] => inr n
  | c :: p' =>
      match n with
      | File _ _ _ => inl ENOTDIR
      | Dir _ perm es =>
          if px perm then
            match get_entry c es with
            | Some child => find p' child
            | None => inl ENOENT
            end
          else inl EACCES
      end
  end.

(** Create the directories missing along [p]; existing entries are left as
    they are.  New directories get the mode [ModePerm] and the time [now];
    a directory that receives a new entry gets the time [now]. *)
Fixpoint mkdirall (now : Z) (p : list string) (n : node) : Errno + node :=
  match n with
  | File _ _ _ => inl ENOTDIR
  | Dir m perm es =>
      match p with
      | [] => inr n
      | c :: p' =>
          if px perm then
            match get_entry c es with
            | Some child =>
                match mkdirall now p' child with
                | inr child' => inr (Dir m perm (set_entry c child' es))
                | inl e => inl e
                end
            | None =>
                if pw perm then
                  match mkdirall now p' (Dir now ModePerm []) with
                  | inr child' => inr (Dir now perm (add_entry c child' es))
                  | inl e => inl e
                  end
                else inl EACCES
            end
          else inl EACCES
      end
  end.

(** Write [data] to the file [p]: an existing file is truncated and keeps
    its mode, a missing one is created in an existing directory. *)
Fixpoint writefile (now : Z) (data : string) (p : list string) (n : node)
  : Errno + node :=
  match p with
  | [] =>
      match n with
      | Dir _ _ _ => inl EISDIR
      | File _ perm _ => if pw perm then inr (File now perm data) else inl EACCES
      end
  | c :: p' =>
      match n with
      | File _ _ _ => inl ENOTDIR
      | Dir m perm es =>
          if px perm then
            match get_entry c es with
            | Some child =>
                match writefile now data p' child with
                | inr child' => inr (Dir m perm (set_entry c child' es))
                | inl e => inl e
                end
            | None =>
                match p' with
                | [] =>
                    if pw perm
                    then inr (Dir now perm (add_entry c (File now ModePerm data) es))
                    else inl EACCES
                | _ :: _ => inl ENOENT
                end
            end
          else inl EACCES
      end
  end.

(** The world outside the process: the file system, from its root, and the
    instant the operating system stamps on what is written. *)
Record World := { fs : node; clock : Z }.

Definition with_fs (w : World) (t : node) : World :=
  {| fs := t; clock := clock w |}.

Record FileInfo := { fiName : string; fiIsDir : bool; fiModTime : Z }.

Section OS.
Context `{Platform}.

Definition info_of (name : string) (n : node) : FileInfo :=
  {| fiName := name; fiIsDir := is_dir n; fiModTime := mtime_of n |}.

(** [os.Lstat]; without symbolic links [os.Stat] is the same. *)
Definition Lstat (w : World) (path : string) : res FileInfo :=
  match find (resolve path) (fs w) with
  | inr n => ok (info_of (basename path) n)
  | inl e => fail (PathError "lstat" path e)
  end.

Definition Stat (w : World) (path : string) : res FileInfo :=
  match find (resolve path) (fs w) with
  | inr n => ok (info_of (basename path) n)
  | inl e => fail (PathError "stat" path e)
  end.

(** [os.ReadFile] *)
Definition ReadFile (w : World) (path : string) : res string :=
  match find (resolve path) (fs w) with
  | inr (File _ perm data) =>
      if pr perm then ok data else fail (PathError "open" path EACCES)
  | inr (Dir _ _ _) => fail (PathError "read" path EISDIR)
  | inl e => fail (PathError "open" path e)
  end.

(** [os.WriteFile].  The client passes [os.ModePerm]: a file that is
    created gets [ModePerm]. *)
Definition WriteFile (path data : string) (w : World) : option error * World :=
  match writefile (clock w) data (resolve path) (fs w) with
  | inr t => (None, with_fs w t)
  | inl e => (Some (PathError "open" path e), w)
  end.

(** [os.MkdirAll].  The client passes modes 0755 and [os.ModePerm]: the
    owner may read, write and search what is created. *)
Definition MkdirAll (path : string) (w : World) : option error * World :=
  match mkdirall (clock w) (resolve path) (fs w) with
  | inr t => (None, with_fs w t)
  | inl e => (Some (PathError "mkdir" path e), w)
  end.
End OS.

(** ** Walking a tree: [filepath.Walk] *)

(** What the walk hands to its callback: the [FileInfo] of the entry and
    the error met when listing it, if any; or, when [lstat] failed, the
    error alone (the [FileInfo] is [nil]). *)
Inductive visit :=
| Visit (info : FileInfo) (err : option error)
| VisitErr (err : error).

(** A [WalkFunc] that closes over a state of type [S]. *)
Definition WalkFunc (S : Type) : Type :=
  string → visit → S → option error * S.

Section Walk.
Context `{Platform}.

(** [filepath.walk]: the entry itself, then, for a directory that could be
    listed and was not refused by the callback, its entries in name
    order. *)
Fixpoint walk {S : Type} (path : string) (name : string) (n : node)
    (walkFn : WalkFunc S) (s : S) {struct n} : option error * S :=
  match n with
  | File _ _ _ => walkFn path (Visit (info_of name n) None) s
  | Dir _ perm es =>
      let err := if pr perm then None else Some (PathError "open" path EACCES) in
      let '(err1, s1) := walkFn path (Visit (info_of name n) err) s in
      if bool_decide (err ≠ None ∨ err1 ≠ None) then (err1, s1)
      else
        (fix names (es : list (string * node)) (s : S) {struct es}
           : option error * S :=
           match es with
           | [] => (None, s)
           | (cname, c) :: es' =>
               let filename := Join [path; cname] in
               if px perm then
                 let '(err, s') := walk filename cname c walkFn s in
                 match err with
                 | Some e =>
                     if bool_decide (is_dir c = false ∨ e ≠ SkipDir)
                     then (Some e, s')
                     else names es' s'
                 | None => names es' s'
                 end
               else
                 let '(err, s') :=
                   walkFn filename (VisitErr (PathError "lstat" filename EACCES)) s in
                 match err with
                 | Some e =>
                     if bool_decide (e ≠ SkipDir) then (Some e, s') else names es' s'
                 | None => names es' s'
                 end
           end) es s1
  end.

(** [filepath.Walk] *)
Definition Walk {S : Type} (w : World) (root : string) (fn : WalkFunc S) (s : S)
  : option error * S :=
  let '(err, s') :=
    match find (resolve root) (fs w) with
    | inl e => fn root (VisitErr (PathError "lstat" root e)) s
    | inr n => walk root (basename root) n fn s
    end in
  if bool_decide (err = Some SkipDir) then (None, s') else (err, s').
End Walk.

(** ** Formatting *)

(** [%v] of an [int64]. *)
Definition itoa (z : Z) : string := NilZero.string_of_int (Z.to_int z).

Definition hex_digit (n : N) : ascii :=
  match n with
  | 0 => "0" | 1 => "1" | 2 => "2" | 3 => "3" | 4 => "4" | 5 => "5"
  | 6 => "6" | 7 => "7" | 8 => "8" | 9 => "9" | 10 => "a" | 11 => "b"
  | 12 => "c" | 13 => "d" | 14 => "e" | _ => "f"
  end%N%char.

(** [%x] of a byte slice: two lowercase digits a byte. *)
Fixpoint hex (bytes : string) : string :=
  match bytes with
  | EmptyString => EmptyString
  | String b rest =>
      String (hex_digit (N_of_ascii b / 16))
        (String (hex_digit (N_of_ascii b mod 16)) (hex rest))
  end.

(** ** The Function descriptor *)

(** Types of the descriptor's nested configuration that the client and the
    migrations only carry around. *)
Class Schema := {
  GitT : Type;
  EnvT : Type;
  VolumeT : Type;
  OptionsT : Type;
  LabelT : Type;
  HealthEndpointsT : Type;
}.

Section Descriptor.
Context `{Schema}.

(** The client reads [f.Runtime.Image] and [f.Runtime.ImageDigest]; the
    first migration compares [f.Runtime] with the empty string.
    [Language] is the runtime identifier that comparison looks at. *)
Record RuntimeSpec := {
  Language : string;
  Image : string;
  ImageDigest : string;
}.

(** A Go map is [None] when it is [nil]. *)
Record BuildSpec := {
  Git : GitT;
  BuildType : string;
  BuilderImages : option (gmap string string);
  Buildpacks : list string;
  BuildEnvs : list EnvT;
}.

Record RunSpec := {
  Namespace : string;
  Volumes : list VolumeT;
  Envs : list EnvT;
  Annotations : option (gmap string string);
  Options : OptionsT;
  Labels : list LabelT;
  HealthEndpoints : HealthEndpointsT;
}.

(** [Created] is [None] for the zero [time.Time], else the instant in
    nanoseconds. *)
Record Function := {
  Root : string;
  Name : string;
  Runtime : RuntimeSpec;
  Version : string;
  Created : option Z;
  Build : BuildSpec;
  Run : RunSpec;
}.

Definition set_Root (f : Function) (v : string) : Function :=
  {| Root := v; Name := Name f; Runtime := Runtime f; Version := Version f;
     Created := Created f; Build := Build f; Run := Run f |}.
Definition set_Name (f : Function) (v : string) : Function :=
  {| Root := Root f; Name := v; Runtime := Runtime f; Version := Version f;
     Created := Created f; Build := Build f; Run := Run f |}.
Definition set_Runtime (f : Function) (v : RuntimeSpec) : Function :=
  {| Root := Root f; Name := Name f; Runtime := v; Version := Version f;
     Created := Created f; Build := Build f; Run := Run f |}.
Definition set_Version (f : Function) (v : string) : Function :=
  {| Root := Root f; Name := Name f; Runtime := Runtime f; Version := v;
     Created := Created f; Build := Build f; Run := Run f |}.
Definition set_Created (f : Function) (v : option Z) : Function :=
  {| Root := Root f; Name := Name f; Runtime := Runtime f; Version := Version f;
     Created := v; Build := Build f; Run := Run f |}.
Definition set_Build (f : Function) (v : BuildSpec) : Function :=
  {| Root := Root f; Name := Name f; Runtime := Runtime f; Version := Version f;
     Created := Created f; Build := v; Run := Run f |}.
Definition set_Run (f : Function) (v : RunSpec) : Function :=
  {| Root := Root f; Name := Name f; Runtime := Runtime f; Version := Version f;
     Created := Created f; Build := Build f; Run := v |}.

Definition set_Image (f : Function) (v : string) : Function :=
  set_Runtime f {| Language := Language (Runtime f); Image := v;
                   ImageDigest := ImageDigest (Runtime f) |}.
Definition set_ImageDigest (f : Function) (v : string) : Function :=
  set_Runtime f {| Language := Language (Runtime f); Image := Image (Runtime f);
                   ImageDigest := v |}.
Definition set_BuilderImages (f : Function) (v : option (gmap string string))
  : Function :=
  set_Build f {| Git := Git (Build f); BuildType := BuildType (Build f);
                 BuilderImages := v; Buildpacks := Buildpacks (Build f);
                 BuildEnvs := BuildEnvs (Build f) |}.

(** Modelled from the spec: [Function.HasImage] is not among the sources;
    the specification says Push and Deploy require "the Descriptor to
    already have an image" and that "a Descriptor only carries an image
    once a build has produced one". *)
Definition HasImage (f : Function) : bool :=
  negb (String.eqb (Image (Runtime f)) "").

(** Modelled from the spec: [Function.Initialized] is not among the
    sources; the specification says a Descriptor is initialized "iff it
    has both a non-empty runtime identifier and a non-empty name". *)
Definition Initialized (f : Function) : bool :=
  negb (String.eqb (Language (Runtime f)) "") && negb (String.eqb (Name f) "").

(** The name of the descriptor file, [FunctionFile], is declared outside
    the sources at hand. *)
Definition FunctionFile : string := "func.yaml".

(** *** Schemas of earlier versions, as the migrations parse them *)

Record migrateToBuilderImages_previousFunction := {
  f0_Builder : string;
}.

Record migrateTo100_previousFunction := {
  p_BuildType : string;
  p_Git : GitT;
  p_BuilderImages : option (gmap string string);
  p_Buildpacks : list string;
  p_Builder : string;
  p_Namespace : string;
  p_Volumes : list VolumeT;
  p_BuildEnvs : list EnvT;
  p_Envs : list EnvT;
  p_Annotations : option (gmap string string);
  p_Options : OptionsT;
  p_Labels : list LabelT;
  p_HealthEndpoints : HealthEndpointsT;
}.

(** [yaml.Unmarshal] into each of the two shapes. *)
Class Yaml := {
  Unmarshal_BuilderImages : string → res migrateToBuilderImages_previousFunction;
  Unmarshal_100 : string → res migrateTo100_previousFunction;
}.
End Descriptor.

(** ** Semantic versions: [github.com/coreos/go-semver] *)

(** [semver_New] is [None] where [semver.New] panics (the string is not a
    version). *)
Class Semver := {
  SemVersion : Type;
  semver_New : string → option SemVersion;
  LessThan : SemVersion → SemVersion → bool;
}.

(** What is used of the library's order: [LessThan] is a strict order. *)
Class SemverOrder `{Semver} : Prop := {
  LessThan_irrefl : ∀ v, LessThan v v = false;
  LessThan_trans : ∀ a b c,
    LessThan a b = true → LessThan b c = true → LessThan a c = true;
}.

(** ** Migrations *)

Section Migrations.
Context `{Platform} `{Schema} `{!Yaml} `{Semver}.

(** [semver.New(a).LessThan( *semver.New(b))]; [None] is a panic. *)
Definition version_less (a b : string) : option bool :=
  va ← semver_New a;
  vb ← semver_New b;
  Some (LessThan va vb).

(** A migrator runs in the world it reads the descriptor file and the
    time from.  Of the migration it is given, it reads the version only:
    that is its third argument. *)
Definition migrator : Type := World → Function → string → Function * option error.

Record migration := {
  version : string;
  migrate : migrator;
}.

Definition migrateToCreationStamp : migrator := fun w f m_version =>
  let f :=
    match Created f with
    | None =>
        if negb (String.eqb (Name f) "") && negb (String.eqb (Language (Runtime f)) "")
        then set_Created f (Some (clock w))
        else f
    | Some _ => f
    end in
  (set_Version f m_version, None).

Definition migrateToBuilderImages : migrator := fun w f1 m_version =>
  let f0Filename := Join [Root f1; FunctionFile] in
  match ReadFile w f0Filename with
  | fail err => (f1, Some err)
  | ok bb =>
      match Unmarshal_BuilderImages bb with
      | fail err => (f1, Some err)
      | ok f0 =>
          let defaultPackBuilderImage := "gcr.io/paketo-buildpacks/builder:base" in
          let f1 :=
            if negb (String.eqb (f0_Builder f0) "")
               && negb (String.eqb (f0_Builder f0) defaultPackBuilderImage)
            then
              set_BuilderImages f1
                (Some (<["pack" := f0_Builder f0]>
                         (default ∅ (BuilderImages (Build f1)))))
            else f1 in
          (set_Version f1 m_version, None)
      end
  end.

Definition migrateTo100Structure : migrator := fun w f1 m_version =>
  let f0Filename := Join [Root f1; FunctionFile] in
  match ReadFile w f0Filename with
  | fail err => (f1, Some err)
  | ok bb =>
      match Unmarshal_100 bb with
      | fail err => (f1, Some err)
      | ok f0 =>
          let f1 := set_Build f1
            {| Git := p_Git f0; BuildType := p_BuildType f0;
               BuilderImages := p_BuilderImages f0;
               Buildpacks := p_Buildpacks f0; BuildEnvs := p_BuildEnvs f0 |} in
          let f1 := set_Run f1
            {| Namespace := p_Namespace f0; Volumes := p_Volumes f0;
               Envs := p_Envs f0; Annotations := p_Annotations f0;
               Options := p_Options f0; Labels := p_Labels f0;
               HealthEndpoints := p_HealthEndpoints f0 |} in
          (set_Version f1 m_version, None)
      end
  end.

(** The registry. *)
Definition migrations : list migration :=
  [ {| version := "0.19.0"; migrate := migrateToCreationStamp |};
    {| version := "0.23.0"; migrate := migrateToBuilderImages |};
    {| version := "1.0.0"; migrate := migrateTo100Structure |} ].

(** [Function.Migrated] over a registry; [None] is a panic.  The version
    of the last migration is parsed before the Function's. *)
Definition Migrated_in (ms : list migration) (f : Function) : option bool :=
  if String.eqb (Version f) "" then Some false
  else
    m ← last ms;
    lastMigration ← semver_New (version m);
    v ← semver_New (Version f);
    Some (negb (LessThan v lastMigration)).

(** The loop of [Function.Migrate]. *)
Fixpoint migrate_loop (w : World) (ms : list migration) (migrated : Function)
  : option (Function * option error) :=
  match ms with
  | [] => Some (migrated, None)
  | m :: ms' =>
      lt ← version_less (Version migrated) (version m);
      if negb lt then migrate_loop w ms' migrated
      else
        let '(migrated, err) := migrate m w migrated (version m) in
        match err with
        | Some _ => Some (migrated, err)
        | None => migrate_loop w ms' migrated
        end
  end.

Definition Migrate_in (ms : list migration) (w : World) (f : Function)
  : option (Function * option error) :=
  already ← Migrated_in ms f;
  if already : bool then Some (f, None)
  else
    let f := if String.eqb (Version f) "" then set_Version f DefaultVersion else f in
    migrate_loop w ms f.

Definition Migrated (f : Function) : option bool := Migrated_in migrations f.

Definition Migrate (w : World) (f : Function) : option (Function * option error) :=
  Migrate_in migrations w f.
End Migrations.

(** ** The rest of the package *)

(** Functions of the package defined outside the client and the
    migrations.  Loading and checking read the world; writing changes it. *)
Class FunctionPkg `{Schema} := {
  (** [NewFunction(root)]: load (and migrate) the descriptor at a root *)
  NewFunction : World → string → Function * option error;
  (** [NewFunctionWith(cfg)] *)
  NewFunctionWith : Function → Function;
  (** [hasInitializedFunction(root)] *)
  hasInitializedFunction : World → string → bool * option error;
  (** [assertEmptyRoot(root)] *)
  assertEmptyRoot : World → string → option error;
  (** [nameFromPath(root)] *)
  nameFromPath : string → string;
  (** [DerivedImage(root, registry)] *)
  DerivedImage : World → string → string → string * option error;
  (** [f.Write()] *)
  Function_Write : Function → World → option error * World;
  (** [c.Templates().Write(&f)]: the Function comes back possibly changed *)
  Templates_Write : Function → World → (Function * option error) * World;
}.

(** ** Collaborators *)

Inductive Status := Failed | Deployed | Updated.

Record DeploymentResult := { result_Status : Status; result_URL : string }.

Section Collaborators.
Context `{Schema}.

Record Builder := { Builder_Build : Function → World → option error * World }.
Record Pusher := { Pusher_Push : Function → World → (string * option error) * World }.
Record Deployer :=
  { Deployer_Deploy : Function → World → (DeploymentResult * option error) * World }.
Record Remover := { Remover_Remove : string → World → option error * World }.
Record DNSProvider := { DNSProvider_Provide : Function → World → option error * World }.
Record PipelinesProvider := {
  Pipelines_Run : Function → World → option error * World;
  Pipelines_Remove : Function → World → option error * World;
}.

Definition noopBuilder : Builder := {| Builder_Build := fun _ w => (None, w) |}.
Definition noopPusher : Pusher := {| Pusher_Push := fun _ w => (("", None), w) |}.
Definition noopDeployer : Deployer :=
  {| Deployer_Deploy := fun _ w =>
       (({| result_Status := Failed; result_URL := "" |}, None), w) |}.
Definition noopRemover : Remover := {| Remover_Remove := fun _ w => (None, w) |}.
Definition noopDNSProvider : DNSProvider :=
  {| DNSProvider_Provide := fun _ w => (None, w) |}.
Definition noopPipelinesProvider : PipelinesProvider :=
  {| Pipelines_Run := fun _ w => (None, w);
     Pipelines_Remove := fun _ w => (None, w) |}.

(** The client, with the collaborators the operations below call.  The
    progress listener is not a field: its calls are recorded (see
    [Event]). *)
Record Client := {
  verbose : bool;
  registry : string;
  builder : Builder;
  pusher : Pusher;
  deployer : Deployer;
  remover : Remover;
  dnsProvider : DNSProvider;
  pipelinesProvider : PipelinesProvider;
}.

(** The client [New()] makes before any option is applied. *)
Definition defaultClient : Client :=
  {| verbose := false; registry := "";
     builder := noopBuilder; pusher := noopPusher; deployer := noopDeployer;
     remover := noopRemover; dnsProvider := noopDNSProvider;
     pipelinesProvider := noopPipelinesProvider |}.

(** *** What leaves the client *)

(** Every call that leaves the client is recorded, in order: the calls on
    the progress listener, on the collaborators, the writes of the
    descriptor and of the templates, the writes to the file system, and
    what is printed. *)
Inductive Event :=
| SetTotal (n : Z)
| Increment (message : string)
| Complete (message : string)
| CallBuild (f : Function)
| CallPush (f : Function)
| CallDeploy (f : Function)
| CallProvide (f : Function)
| CallRemove (name : string)
| CallPipelinesRemove (f : Function)
| CallWrite (f : Function)
| CallTemplatesWrite (f : Function)
| SysMkdirAll (path : string)
| SysWriteFile (path data : string)
| Stdout (text : string)
| Stderr (text : string).

Record State := { world : World; trace : list Event }.

(** A computation of the client. *)
Definition M (A : Type) : Type := State → A * State.

Definition ret {A} (a : A) : M A := fun s => (a, s).

Definition bind {A B} (m : M A) (k : A → M B) : M B :=
  fun s => let '(a, s') := m s in k a s'.

Definition emit (ev : Event) : M unit :=
  fun s => (tt, {| world := world s; trace := trace s ++ [ev] |}).

(** Read the world. *)
Definition look {A} (q : World → A) : M A :=
  fun s => (q (world s), s).

(** Call out: the event is recorded, then the callee acts on the world. *)
Definition call {A} (ev : Event) (act : World → A * World) : M A :=
  fun s =>
    let '(a, w) := act (world s) in
    (a, {| world := w; trace := trace s ++ [ev] |}).
End Collaborators.

Notation "'let*' x ':=' m 'in' k" := (bind m (fun x => k))
  (at level 10, x pattern, m at level 100, k at level 200, only parsing).
(** [if err = m; err != nil { return err }], then [k]. *)
Notation "'must' m 'in' k" :=
  (bind m (fun err => match err with Some e => ret (Some e) | None => k end))
  (at level 10, m at level 100, k at level 200, only parsing).

(** ** The staleness engine and the lifecycle operations *)

Section ClientOps.
Context `{Platform} `{Schema} `{!FunctionPkg}.

(** The callback [fingerprint] hands to [filepath.Walk]; its state is
    what has been written to the hash. *)
Definition fingerprint_visit : WalkFunc string := fun path v h =>
  match v with
  | VisitErr err => (Some err, h)
  | Visit _ (Some err) => (Some err, h)
  | Visit info None =>
      if fiIsDir info
         && (String.eqb (fiName info) RunDataDir || String.eqb (fiName info) ".git")
      then (Some SkipDir, h)
      else (None, h +:+ path +:+ ":" +:+ itoa (fiModTime info) +:+ ":")
  end.

(** What [fingerprint] writes to the hash, and the error of the walk. *)
Definition fingerprint_input (w : World) (f : Function) : option error * string :=
  Walk w (Root f) fingerprint_visit "".

Definition fingerprint (w : World) (f : Function) : string * option error :=
  let '(err, h) := fingerprint_input w f in
  (hex (Sum256 h), err).

Definition gitignore : string := "
# Functions use the .func directory for local runtime data which should
# generally not be tracked in source control:
/.func
".

Definition sys_MkdirAll (path : string) : M (option error) :=
  call (SysMkdirAll path) (MkdirAll path).

Definition sys_WriteFile (path data : string) : M (option error) :=
  call (SysWriteFile path data) (WriteFile path data).

Definition ensureRuntimeDir (f : Function) : M (option error) :=
  must sys_MkdirAll (Join [Root f; RunDataDir]) in
  sys_WriteFile (Join [Root f; ".gitignore"]) gitignore.

Definition updateBuildStamp (f : Function) : M (option error) :=
  must ensureRuntimeDir f in
  let* (hash, err) := look (fun w => fingerprint w f) in
  match err with
  | Some e => ret (Some e)
  | None =>
      must sys_WriteFile (Join [Root f; RunDataDir; buildstamp]) hash in
      ret None
  end.

Definition Client_Create (c : Client) (cfg : Function) : M (option error) :=
  match Abs (Root cfg) with
  | fail e => ret (Some e)
  | ok root =>
      let cfg := set_Root cfg root in
      must sys_MkdirAll (Root cfg) in
      let* (hasFunc, err) := look (fun w => hasInitializedFunction w (Root cfg)) in
      match err with
      | Some e => ret (Some e)
      | None =>
          if hasFunc : bool
          then ret (Some (Errorf ("Function at '" +:+ Root cfg +:+ "' already initialized")))
          else
            match (if String.eqb (Root cfg) ""
                   then match Getwd with
                        | ok dir => ok (set_Root cfg dir)
                        | fail e => fail e
                        end
                   else ok cfg) with
            | fail e => ret (Some e)
            | ok cfg =>
                let cfg := if String.eqb (Name cfg) ""
                           then set_Name cfg (nameFromPath (Root cfg)) else cfg in
                must look (fun w => assertEmptyRoot w (Root cfg)) in
                let f := NewFunctionWith cfg in
                must ensureRuntimeDir f in
                let* (f, err) := call (CallTemplatesWrite f) (Templates_Write f) in
                match err with
                | Some e => ret (Some e)
                | None =>
                    let* now := look clock in
                    let f := set_Created f (Some now) in
                    must call (CallWrite f) (Function_Write f) in
                    ret None
                end
            end
      end
  end.

(** When the client is not verbose, [Build] also starts the ticker that
    tells the listener the build is still going; it is left out. *)
Definition Client_Build (c : Client) (path : string) : M (option error) :=
  let* _ := emit (Increment "Building function image") in
  let* (f, err) := look (fun w => NewFunction w path) in
  match err with
  | Some e => ret (Some e)
  | None =>
      let* (image, err) := look (fun w => DerivedImage w path (registry c)) in
      let f := set_Image f image in
      match err with
      | Some e => ret (Some e)
      | None =>
          must call (CallBuild f) (Builder_Build (builder c) f) in
          must call (CallWrite f) (Function_Write f) in
          must updateBuildStamp f in
          let message :=
            if String.eqb GOOS "windows"
            then "Function image built: " +:+ Image (Runtime f)
            else "🙌 Function image built: " +:+ Image (Runtime f) in
          let* _ := emit (Increment message) in
          ret None
      end
  end.

Definition Client_Deploy (c : Client) (path : string) : M (option error) :=
  let* (f, err) := look (fun w => NewFunction w path) in
  match err with
  | Some e => ret (Some e)
  | None =>
      if negb (HasImage f) then ret (Some ErrNotBuilt)
      else
        let* _ := emit (Increment "Deploying function to the cluster") in
        let* (result, err) := call (CallDeploy f) (Deployer_Deploy (deployer c) f) in
        let* _ :=
          match result_Status result with
          | Deployed =>
              emit (Increment ("Function deployed at URL: " +:+ result_URL result))
          | Updated =>
              emit (Increment ("Function updated at URL: " +:+ result_URL result))
          | Failed => ret tt
          end in
        ret err
  end.

Definition Client_Route (c : Client) (path : string) : M (option error) :=
  let* (f, err) := look (fun w => NewFunction w path) in
  match err with
  | Some e => ret (Some e)
  | None => call (CallProvide f) (DNSProvider_Provide (dnsProvider c) f)
  end.

Definition Client_Push (c : Client) (path : string) : M (option error) :=
  let* (f, err) := look (fun w => NewFunction w path) in
  match err with
  | Some e => ret (Some e)
  | None =>
      if negb (HasImage f) then ret (Some ErrNotBuilt)
      else
        let* (imageDigest, err) := call (CallPush f) (Pusher_Push (pusher c) f) in
        match err with
        | Some e => ret (Some e)
        | None =>
            let f := set_ImageDigest f imageDigest in
            call (CallWrite f) (Function_Write f)
        end
  end.

Definition Client_New (c : Client) (cfg : Function) : M (option error) :=
  let* _ := emit (SetTotal 3) in
  must Client_Create c cfg in
  let* (f, err) := look (fun w => NewFunction w (Root cfg)) in
  match err with
  | Some e => ret (Some e)
  | None =>
      let* _ := emit (Increment "Building container image") in
      must Client_Build c (Root f) in
      let* _ := emit (Increment "Pushing container image to registry") in
      must Client_Push c (Root f) in
      let* _ := emit (Increment "Deploying Function to cluster") in
      must Client_Deploy c (Root f) in
      let* _ := emit (Increment "Creating route to Function") in
      must Client_Route c (Root f) in
      let* _ := emit (Complete "Done") in
      let* _ := if verbose c
                then emit (Stdout ("https://" +:+ Name f +:+ "/" +:+ String "010" ""))
                else ret tt in
      ret None
  end.

(** The two removals of [Remove] run concurrently: the service removal in
    a goroutine, the removal of the pipeline resources in the caller.
    [serviceFirst] tells which of the two collaborators acts on the
    world first. *)
Definition Client_Remove (serviceFirst : bool) (c : Client) (cfg : Function)
    (deleteAll : bool) : M (option error) :=
  let* named :=
    if String.eqb (Name cfg) "" then
      let* (f, err) := look (fun w => NewFunction w (Root cfg)) in
      match err with
      | Some e => ret (fail e)
      | None =>
          if negb (Initialized f)
          then ret (fail (Errorf ("Function at " +:+ Root f +:+
                 " can not be removed unless initialized. Try removing by name")))
          else ret (ok (Name f, f))
      end
    else ret (ok (Name cfg, cfg)) in
  match named with
  | fail e => ret (Some e)
  | ok (functionName, cfg) =>
      let* _ := emit (Increment ("Removing Knative Service: " +:+ functionName)) in
      let service := call (CallRemove functionName)
                          (Remover_Remove (remover c) functionName) in
      let resources :=
        if deleteAll then
          let* _ := emit (Increment ("Removing Knative Service '" +:+ functionName
                                     +:+ "' and all dependent resources")) in
          call (CallPipelinesRemove cfg) (Pipelines_Remove (pipelinesProvider c) cfg)
        else ret None in
      let* (errService, errResources) :=
        if serviceFirst
        then (let* a := service in let* b := resources in ret (a, b))
        else (let* b := resources in let* a := service in ret (a, b)) in
      match errService, errResources with
      | Some a, Some b =>
          ret (Some (Errorf (Error a +:+ String "010" "" +:+ Error b)))
      | _, Some b => ret (Some b)
      | _, None => ret errService
      end
  end.

Definition Client_Built (c : Client) (path : string) : M bool :=
  let* (f, err) := look (fun w => NewFunction w path) in
  match err with
  | Some _ => ret false
  | None =>
      if negb (HasImage f) then ret false
      else
        let buildstampPath := Join [path; RunDataDir; buildstamp] in
        let* st := look (fun w => Stat w buildstampPath) in
        match st with
        | fail _ => ret false
        | ok _ =>
            let* (hash, err) := look (fun w => fingerprint w f) in
            match err with
            | Some e =>
                let* _ := emit (Stderr ("error calculating Function's fingerprint: "
                                        +:+ Error e +:+ String "010" "")) in
                ret false
            | None =>
                let* b := look (fun w => ReadFile w buildstampPath) in
                match b with
                | fail e =>
                    let* _ := emit (Stderr ("error reading Function's fingerprint: "
                                            +:+ Error e +:+ String "010" "")) in
                    ret false
                | ok b =>
                    if negb (String.eqb b hash) then ret false else ret true
                end
            end
        end
  end.
End ClientOps.

From Stdlib Require Import DecimalZ DecimalPos.

(** * The commands *)

(** The commands [run] and [config volumes] of the command line, over the
    client above.  What the commands print is recorded as [Stdout] and
    [Stderr] events, a line with its end of line; [f.Write()] is recorded
    as [CallWrite], as it is for the client.  Calls to the collaborators
    that only the commands use (the runner, the cluster, the terminal)
    are not recorded. *)

Definition eol : string := String "010" "".
Definition dquote : string := String "034" "".

(** [fmt.Println] of one operand. *)
Definition Println {Sch : Schema} (text : string) : M unit :=
  emit (Stdout (text +:+ eol)).

(** An action on the world that is not recorded. *)
Definition lift {Sch : Schema} {A} (act : World → A * World) : M A :=
  fun s => let '(a, w) := act (world s) in (a, {| world := w; trace := trace s |}).

(** ** [strconv.ParseBool] *)

(** [%v] of a [bool]. *)
Definition fmt_bool (b : bool) : string := if b then "true" else "false".

Section ParseBool.
(** [strconv.Quote] *)
Variable Quote : string → string.

Definition ParseBool (str : string) : bool * option error :=
  if existsb (String.eqb str) ["1"; "t"; "T"; "TRUE"; "true"; "True"]
  then (true, None)
  else if existsb (String.eqb str) ["0"; "f"; "F"; "FALSE"; "false"; "False"]
  then (false, None)
  else (false, Some (Errorf ("strconv.ParseBool: parsing " +:+ Quote str
                             +:+ ": invalid syntax"))).
End ParseBool.

(** ** [Client.Run] *)

Section RunModel.
Context `{Platform} `{Schema} `{!FunctionPkg}.

(** Of a [Job] the command reads the port and calls [Stop]. *)
Record Job := { Port : string; Job_Stop : World → World }.

(** A [*Job] is [None] when it is [nil]. *)
Record Runner := { Runner_Run : Function → World → (option Job * option error) * World }.

Definition noopRunner : Runner := {| Runner_Run := fun _ w => ((None, None), w) |}.

Definition set_Envs (f : Function) (v : list EnvT) : Function :=
  set_Run f {| Namespace := Namespace (Run f); Volumes := Volumes (Run f);
               Envs := v; Annotations := Annotations (Run f);
               Options := Options (Run f); Labels := Labels (Run f);
               HealthEndpoints := HealthEndpoints (Run f) |}.

Definition Client_Run (runner : Runner) (root : string)
  : M (option Job * option error) :=
  let* (f, err) := look (fun w => NewFunction w root) in
  match err with
  | Some e => ret (None, Some e)
  | None =>
      if negb (Initialized f)
      then ret (None, Some (Errorf ("the given path '" +:+ root +:+
             "' does not contain an initialized Function.  Please create one at this path in order to run")))
      else
        let* (job, err) := lift (Runner_Run runner f) in
        match err with
        | Some e => ret (job, Some e)
        | None => ret (job, None)
        end
  end.

(** ** The command [run] *)

(** Functions of package [cmd] defined outside the sources at hand. *)
Class CmdPkg := {
  (** [*util.OrderedMap] *)
  EnvUpdates : Type;
  (** [mergeEnvs(envs, envToUpdate, envToRemove)] *)
  mergeEnvs : list EnvT → EnvUpdates → list string → (list EnvT * Z) * option error;
  (** [strconv.Quote] *)
  Quote : string → string;
}.

Context `{!CmdPkg}.

Record runConfig := {
  cfg_Path : string;
  cfg_Verbose : bool;
  cfg_EnvToUpdate : EnvUpdates;
  cfg_EnvToRemove : list string;
  cfg_Build : string;
  cfg_Registry : string;
}.

(** What a [ClientFactory] hands back: the client, its runner, and the
    function to call when done with it. *)
Record RunClient := {
  rc_client : Client;
  rc_runner : Runner;
  rc_done : World → World;
}.

(** A [ClientFactory], called with [ClientConfig{Verbose: verbose}] and
    the option [fn.WithRegistry(registry)]. *)
Definition ClientFactory : Type := bool → string → RunClient.

(** How the wait at the end of [runRun] ends: the context is cancelled,
    the context ends with another error, or the job reports (an error
    or [nil]). *)
Inductive Ending :=
| Cancelled
| ContextErr (e : error)
| JobReports (e : option error).

Definition already_built_message : string :=
  "Detected Function was already built.  Use --build to override this behavior.".

Definition build_disabled_message : string :=
  "Function build disabled.  Skipping build.".

Definition invalid_build_message (build : bool) : string :=
  "invalid value for --build '" +:+ fmt_bool build +:+
  "'.  accepts 'auto', 'true' or 'false' (or similarly truthy value)".

(** [runRun] from the call of [client.Run] on.  [None] is the panic of
    reading the port of a [nil] job. *)
Definition run_job (rc : RunClient) (config : runConfig) (ending : Ending)
  : M (option (option error)) :=
  let* (job, err) := Client_Run (rc_runner rc) (cfg_Path config) in
  match err with
  | Some e => ret (Some (Some e))
  | None =>
      match job with
      | None => ret None
      | Some job =>
          let* _ := emit (Stderr ("Function started on port " +:+ Port job +:+ eol)) in
          let err :=
            match ending with
            | Cancelled => None
            | ContextErr e => Some e
            | JobReports e => e
            end in
          let* _ := lift (fun w => (tt, Job_Stop job w)) in
          ret (Some err)
      end
  end.

(** [runRun] from the making of the client on; the deferred [done()]
    runs last. *)
Definition run_with_client (rc : RunClient) (function : Function)
    (config : runConfig) (ending : Ending) : M (option (option error)) :=
  let* r :=
    if String.eqb (cfg_Build config) "auto" then
      let* built := Client_Built (rc_client rc) (Root function) in
      let* err := if negb built
                  then Client_Build (rc_client rc) (cfg_Path config)
                  else ret None in
      match err with
      | Some e => ret (Some (Some e))
      | None =>
          let* _ := Println already_built_message in
          run_job rc config ending
      end
    else
      let '(build, err) := ParseBool Quote (cfg_Build config) in
      match err with
      | Some _ => ret (Some (Some (Errorf (invalid_build_message build))))
      | None =>
          if build then
            let* err := Client_Build (rc_client rc) (cfg_Path config) in
            match err with
            | Some e => ret (Some (Some e))
            | None => run_job rc config ending
            end
          else
            let* _ := Println build_disabled_message in
            run_job rc config ending
      end in
  let* _ := lift (fun w => (tt, rc_done rc w)) in
  ret r.

(** [parsed] is what [newRunConfig(cmd)] returns. *)
Definition runRun (parsed : res runConfig) (newClient : ClientFactory)
    (ending : Ending) : M (option (option error)) :=
  match parsed with
  | fail e => ret (Some (Some e))
  | ok config =>
      let* (function, err) := look (fun w => NewFunction w (cfg_Path config)) in
      match err with
      | Some e => ret (Some (Some e))
      | None =>
          let '((envs, updated), err) :=
            mergeEnvs (Envs (Run function)) (cfg_EnvToUpdate config)
              (cfg_EnvToRemove config) in
          let function := set_Envs function envs in
          match err with
          | Some e => ret (Some (Some e))
          | None =>
              let* err := if (0 <? updated)%Z
                          then call (CallWrite function) (Function_Write function)
                          else ret None in
              match err with
              | Some e => ret (Some (Some e))
              | None =>
                  if negb (Initialized function)
                  then ret (Some (Some (Errorf ("the given path '" +:+ cfg_Path config
                         +:+ "' does not contain an initialized function"))))
                  else
                    run_with_client
                      (newClient (cfg_Verbose config) (cfg_Registry config))
                      function config ending
              end
          end
      end
  end.
End RunModel.

(** ** The commands [config volumes] *)

(** What a prompt returns: an answer, [terminal.InterruptErr], or
    another error. *)
Inductive answer :=
| Answered (s : string)
| Interrupted
| AskFailed (e : error).

Section VolumesModel.
Context `{Platform} `{Schema} `{!FunctionPkg}.

(** Package [survey], the cluster, and the members of the descriptor the
    commands read: this file is written against the descriptor in which
    the volumes and the namespace are members of [Runtime]. *)
Class VolumesPkg := {
  (** the state of the terminal *)
  Terminal : Type;
  (** [survey.AskOne(&survey.Select{Message, Options}, &response)] *)
  AskSelect : string → list string → Terminal → answer * Terminal;
  (** [survey.AskOne(&survey.Input{Message}, &response,
      survey.WithValidator(validator))] *)
  AskInput : string → (string → option error) → Terminal → answer * Terminal;
  (** [k8s.ListSecretsNamesIfConnected(ctx, namespace)] *)
  ListSecretsNamesIfConnected : string → World → res (list string);
  (** [k8s.ListConfigMapsNamesIfConnected(ctx, namespace)] *)
  ListConfigMapsNamesIfConnected : string → World → res (list string);
  (** [f.Runtime.Volumes], [f.Runtime.Namespace] *)
  Runtime_Volumes : Function → list VolumeT;
  Runtime_Namespace : Function → string;
  set_Runtime_Volumes : Function → list VolumeT → Function;
  (** [fn.Volume{Secret, ConfigMap, Path}], a [nil] member is [None] *)
  Volume_make : option string → option string → option string → VolumeT;
  (** [v.String()] *)
  Volume_String : VolumeT → string;
}.

Context `{!VolumesPkg}.

Definition no_volumes_message : string :=
  "There aren't any configured Volume mounts".

(** [fmt.Println(" - ", v.String())]: operands are separated by a
    space. *)
Fixpoint print_volumes (vs : list VolumeT) : M unit :=
  match vs with
  | [] => ret tt
  | v :: vs' =>
      let* _ := Println (" - " +:+ " " +:+ Volume_String v) in
      print_volumes vs'
  end.

Definition listVolumes (f : Function) : M unit :=
  if (length (Runtime_Volumes f) =? 0)%nat then Println no_volumes_message
  else
    let* _ := Println "Configured Volumes mounts:" in
    print_volumes (Runtime_Volumes f).

(** The validator of the mount path. *)
Definition path_validator (str : string) : option error :=
  if (String.length str <=? 0)%nat || negb (String.prefix "/" str)
  then Some (Errorf "The input must be non-empty absolute path.")
  else None.

Definition optionConfigMap : string := "ConfigMap".
Definition optionSecret : string := "Secret".

(** [runAddVolumesPrompt] from the choice of what to mount on. *)
Definition add_volume (f : Function) (secrets configMaps : list string)
    (selectedOption : string) (t : Terminal) : M (option error * Terminal) :=
  let '(resourceType, optionsResoures) :=
    if String.eqb selectedOption optionConfigMap then (optionConfigMap, configMaps)
    else if String.eqb selectedOption optionSecret then (optionSecret, secrets)
    else ("", []) in
  let '(a, t) :=
    AskSelect ("Which " +:+ dquote +:+ resourceType +:+ dquote
               +:+ " do you want to mount?") optionsResoures t in
  match a with
  | Interrupted => ret (None, t)
  | AskFailed e => ret (Some e, t)
  | Answered selectedResource =>
      let '(a, t) :=
        AskInput ("Please specify the path where the " +:+ resourceType
                  +:+ " should be mounted:") path_validator t in
      match a with
      | Interrupted => ret (None, t)
      | AskFailed e => ret (Some e, t)
      | Answered path =>
          let newVolume :=
            if String.eqb selectedOption optionConfigMap
            then Volume_make None (Some selectedResource) (Some path)
            else if String.eqb selectedOption optionSecret
            then Volume_make (Some selectedResource) None (Some path)
            else Volume_make None None (Some path) in
          let f := set_Runtime_Volumes f (Runtime_Volumes f ++ [newVolume]) in
          let* err := call (CallWrite f) (Function_Write f) in
          let* _ := match err with
                    | None => Println "Volume entry was added to the function configuration"
                    | Some _ => ret tt
                    end in
          ret (err, t)
      end
  end.

Definition runAddVolumesPrompt (f : Function) (t : Terminal)
  : M (option error * Terminal) :=
  let* secrets := look (ListSecretsNamesIfConnected (Runtime_Namespace f)) in
  match secrets with
  | fail e => ret (Some e, t)
  | ok secrets =>
      let* configMaps := look (ListConfigMapsNamesIfConnected (Runtime_Namespace f)) in
      match configMaps with
      | fail e => ret (Some e, t)
      | ok configMaps =>
          let options :=
            (if (0 <? length configMaps)%nat then [optionConfigMap] else [])
            ++ (if (0 <? length secrets)%nat then [optionSecret] else []) in
          match options with
          | [] =>
              let* _ := emit (Stdout ("There aren't any Secrets or ConfiMaps in the namespace "
                                      +:+ dquote +:+ Runtime_Namespace f +:+ dquote
                                      +:+ eol)) in
              ret (None, t)
          | [only] => add_volume f secrets configMaps only t
          | [_; _] =>
              let '(a, t) :=
                AskSelect "What do you want to mount as a Volume?" options t in
              match a with
              | Interrupted => ret (None, t)
              | AskFailed e => ret (Some e, t)
              | Answered selectedOption =>
                  add_volume f secrets configMaps selectedOption t
              end
          | _ => add_volume f secrets configMaps "" t
          end
      end
  end.

(** The loop of [runRemoveVolumesPrompt] from index [i] on: [rest] is
    what of [volumes] is left to look at. *)
Fixpoint remove_volume (volumes : list VolumeT) (selectedVolume : string)
    (i : nat) (rest : list VolumeT) : option (list VolumeT) :=
  match rest with
  | [] => None
  | v :: rest' =>
      if String.eqb (Volume_String v) selectedVolume
      then Some (take i volumes ++ drop (S i) volumes)
      else remove_volume volumes selectedVolume (S i) rest'
  end.

Definition runRemoveVolumesPrompt (f : Function) (t : Terminal)
  : M (option error * Terminal) :=
  if (length (Runtime_Volumes f) =? 0)%nat then
    let* _ := Println no_volumes_message in
    ret (None, t)
  else
    let options := map Volume_String (Runtime_Volumes f) in
    let '(a, t) := AskSelect "Which Volume do you want to remove?" options t in
    match a with
    | Interrupted => ret (None, t)
    | AskFailed e => ret (Some e, t)
    | Answered selectedVolume =>
        match remove_volume (Runtime_Volumes f) selectedVolume 0 (Runtime_Volumes f) with
        | Some newVolumes =>
            let f := set_Runtime_Volumes f newVolumes in
            let* err := call (CallWrite f) (Function_Write f) in
            let* _ := match err with
                      | None => Println "Volume entry was removed from the function configuration"
                      | Some _ => ret tt
                      end in
            ret (err, t)
        | None => ret (None, t)
        end
    end.
End VolumesModel.

(** * Specification-level definitions *)

(** ** The migration chain, in the specification's words *)

Section MigrationSpec.
Context `{Platform} `{Schema} `{!Yaml} `{Semver}.

(** "if version is empty, treat as 0.0.0" *)
Definition effective (f : Function) : Function :=
  if String.eqb (Version f) "" then set_Version f DefaultVersion else f.

(** The thresholds of a registry, parsed. *)
Definition thresholds (ms : list migration) : option (list SemVersion) :=
  mapM (fun m => semver_New (version m)) ms.

(** "thresholds must be registered in strictly ascending order", above
    the version an unversioned descriptor is given. *)
Definition ascending (ms : list migration) : Prop :=
  ∃ v0 vs,
    semver_New DefaultVersion = Some v0 ∧
    thresholds ms = Some vs ∧
    Sorted (fun a b => LessThan a b = true) (v0 :: vs).

(** "after applying, the Descriptor's version is set to exactly V" *)
Definition stamps (m : migration) : Prop :=
  ∀ w f f', migrate m w f (version m) = (f', None) → Version f' = version m.

(** "Iterate the registry in ascending threshold order; for each
    migration whose threshold is strictly greater than the Descriptor's
    current version (re-evaluated after each step), apply the
    transformation; abort immediately on the first transformation
    error, returning the partially-migrated result and the error." *)
Inductive chain (w : World) : list migration → Function → Function * option error → Prop :=
| chain_end f : chain w [] f (f, None)
| chain_skip m ms f r :
    version_less (Version f) (version m) = Some false →
    chain w ms f r →
    chain w (m :: ms) f r
| chain_apply m ms f f' r :
    version_less (Version f) (version m) = Some true →
    migrate m w f (version m) = (f', None) →
    chain w ms f' r →
    chain w (m :: ms) f r
| chain_abort m ms f f' e :
    version_less (Version f) (version m) = Some true →
    migrate m w f (version m) = (f', Some e) →
    chain w (m :: ms) f (f', Some e).

(** The descriptor's version is one [semver.New] accepts, or is empty. *)
Definition versioned (f : Function) : Prop :=
  Version f = "" ∨ is_Some (semver_New (Version f)).
End MigrationSpec.

(** ** Reading the record of a run *)

Section TraceSpec.
Context `{Schema}.

(** [sub] occurs in [msg]. *)
Definition contains (msg sub : string) : Prop :=
  ∃ before after, msg = before +:+ sub +:+ after.

(** The steps of [New] that show in the record of a run: its own four
    progress increments, the four collaborators, the completion. *)
Inductive Mark :=
| MBuilding | MBuild | MPushing | MPush | MDeploying | MDeploy
| MRouting | MProvide | MComplete.

#[global] Instance Mark_eq_dec : EqDecision Mark.
Proof. solve_decision. Defined.

Definition mark_of (ev : Event) : option Mark :=
  match ev with
  | Increment msg =>
      if String.eqb msg "Building container image" then Some MBuilding
      else if String.eqb msg "Pushing container image to registry" then Some MPushing
      else if String.eqb msg "Deploying Function to cluster" then Some MDeploying
      else if String.eqb msg "Creating route to Function" then Some MRouting
      else None
  | Complete _ => Some MComplete
  | CallBuild _ => Some MBuild
  | CallPush _ => Some MPush
  | CallDeploy _ => Some MDeploy
  | CallProvide _ => Some MProvide
  | _ => None
  end.

Definition outline (evs : list Event) : list Mark := omap mark_of evs.

(** "Create, then Build, then Push, then Deploy, then Route, in that
    fixed order ... four progress increments (build/push/deploy/route)
    plus a final completion signal": a run of [New] that gets through. *)
Definition full_outline : list Mark :=
  [MBuilding; MBuild; MPushing; MPush; MDeploying; MDeploy;
   MRouting; MProvide; MComplete].

(** What [Remove] reports from the outcomes of the two removals. *)
Definition aggregate (errService errResources : option error) : option error :=
  match errService, errResources with
  | Some a, Some b => Some (Errorf (Error a +:+ String "010" "" +:+ Error b))
  | None, Some b => Some b
  | a, None => a
  end.

End TraceSpec.

(** ** Stages run in order, stopping at the first failure *)

Section StagesSpec.
Context `{Platform} `{Schema} `{!FunctionPkg}.

(** Announce each stage, run it, and go on only if it returned no
    error. *)
Fixpoint in_order (stages : list (string * M (option error))) : M (option error) :=
  match stages with
  | [] => ret None
  | (message, stage) :: rest =>
      let* _ := emit (Increment message) in
      must stage in
      in_order rest
  end.

Definition New_stages (c : Client) (f : Function) : list (string * M (option error)) :=
  [ ("Building container image", Client_Build c (Root f));
    ("Pushing container image to registry", Client_Push c (Root f));
    ("Deploying Function to cluster", Client_Deploy c (Root f));
    ("Creating route to Function", Client_Route c (Root f)) ].

(** [New], in the specification's words: Create, load, then the four
    stages in order, then the completion. *)
Definition New_in_stages (c : Client) (cfg : Function) : M (option error) :=
  let* _ := emit (SetTotal 3) in
  must Client_Create c cfg in
  let* (f, err) := look (fun w => NewFunction w (Root cfg)) in
  match err with
  | Some e => ret (Some e)
  | None =>
      must in_order (New_stages c f) in
      let* _ := emit (Complete "Done") in
      let* _ := if verbose c
                then emit (Stdout ("https://" +:+ Name f +:+ "/" +:+ String "010" ""))
                else ret tt in
      ret None
  end.

(** A computation adds to the record, whatever the state it starts in,
    events whose outline is a prefix of [o]: all of [o] when it returns
    no error, and nothing that signals completion when it returns one. *)
Definition bounded (m : M (option error)) (o : list Mark) : Prop :=
  ∀ s, ∃ evs,
    trace (snd (m s)) = trace s ++ evs ∧
    outline evs `prefix_of` o ∧
    (fst (m s) = None → outline evs = o) ∧
    (fst (m s) ≠ None → MComplete ∉ outline evs).

(** The collaborators, the loader and the writer of the descriptor keep
    the not-built sentinel for the client. *)
Definition sentinel_reserved (c : Client) : Prop :=
  (∀ w path, snd (NewFunction w path) ≠ Some ErrNotBuilt) ∧
  (∀ f w, snd (fst (Pusher_Push (pusher c) f w)) ≠ Some ErrNotBuilt) ∧
  (∀ f w, snd (fst (Deployer_Deploy (deployer c) f w)) ≠ Some ErrNotBuilt) ∧
  (∀ f w, fst (Function_Write f w) ≠ Some ErrNotBuilt).
End StagesSpec.

(** ** Reading an ignore file *)

Fixpoint lines (s : string) : list string :=
  match s with
  | EmptyString => [EmptyString]
  | String c s' =>
      if Ascii.eqb c "010" then EmptyString :: lines s'
      else match lines s' with
           | [] => [String c EmptyString]
           | l :: ls => String c l :: ls
           end
  end.

(** The rules of an ignore file: its lines that are neither blank nor
    comments. *)
Definition rules (s : string) : list string :=
  filter (fun l => l ≠ "" ∧ String.prefix "#" l = false) (lines s).

(** ** What a fingerprint observes *)

(** "skipping the run-metadata directory and the version-control
    directory entirely" *)
Definition skipped (name : string) : bool :=
  String.eqb name RunDataDir || String.eqb name ".git".

(** An entry met below a directory, seen from that directory. *)
Definition under (name : string) (e : list string * Z) : list string * Z :=
  (name :: fst e, snd e).

(** The [(relativePath, modificationTimeNanoseconds)] pairs of the entries
    of a tree: its root (the empty path) and every entry below it, nothing
    of a skipped directory.  A path is the list of names from the root. *)
Fixpoint observed (name : string) (n : node) : list (list string * Z) :=
  match n with
  | File m _ _ => [([], m)]
  | Dir m _ es =>
      if skipped name then []
      else ([], m) ::
           (fix each (es : list (string * node)) : list (list string * Z) :=
              match es with
              | [] => []
              | (cname, c) :: es' => map (under cname) (observed cname c) ++ each es'
              end) es
  end.

(** Names in strictly ascending order. *)
Definition ascending_names (names : list string) : Prop :=
  Sorted (fun a b => String.ltb a b = true) names.

(** Every directory of the tree lists its entries by strictly ascending
    name. *)
Fixpoint ordered (n : node) : Prop :=
  match n with
  | File _ _ _ => True
  | Dir _ _ es =>
      ascending_names (map fst es) ∧
      (fix each (es : list (string * node)) : Prop :=
         match es with
         | [] => True
         | (_, c) :: es' => ordered c ∧ each es'
         end) es
  end.

(** The order in which a walk meets paths: a directory before its
    entries, entries by name. *)
Inductive path_lt : list string → list string → Prop :=
| path_lt_nil c q : path_lt [] (c :: q)
| path_lt_head c d p q : String.ltb c d = true → path_lt (c :: p) (d :: q)
| path_lt_tail c p q : path_lt p q → path_lt (c :: p) (c :: q).

Definition entry_lt (a b : list string * Z) : Prop := path_lt (fst a) (fst b).

Definition lower_hex (a : ascii) : bool :=
  match String.index 0 (String a EmptyString) "0123456789abcdef" with
  | Some _ => true
  | None => false
  end.

Fixpoint string_forall (P : ascii → bool) (s : string) : bool :=
  match s with
  | EmptyString => true
  | String a s' => P a && string_forall P s'
  end.

Section FingerprintSpec.
Context `{Platform}.

(** The path the walk reports for an entry: the root joined with the
    names down to the entry, one at a time. *)
Definition joined (root : string) (rel : list string) : string :=
  foldl (fun p name => Join [p; name]) root rel.

(** What is written to the hash for one entry. *)
Definition render (root : string) (e : list string * Z) : string :=
  joined root (fst e) +:+ ":" +:+ itoa (snd e) +:+ ":".

Definition render_all (root : string) (l : list (list string * Z)) : string :=
  foldr (fun e rest => render root e +:+ rest) "" l.
End FingerprintSpec.

(** * Auxiliary definitions *)

(** *** Induction on trees *)

Fixpoint node_induction (P : node → Prop)
    (HFile : ∀ m perm data, P (File m perm data))
    (HDir : ∀ m perm es, Forall (fun e => P (snd e)) es → P (Dir m perm es))
    (n : node) {struct n} : P n :=
  match n with
  | File m perm data => HFile m perm data
  | Dir m perm es =>
      HDir m perm es
        ((fix all (es : list (string * node)) : Forall (fun e => P (snd e)) es :=
            match es with
            | [] => @List.Forall_nil _ _
            | e :: es' =>
                @List.Forall_cons _ (fun e => P (snd e)) e es'
                  (node_induction P HFile HDir (snd e)) (all es')
            end) es)
  end.

(** The entries of a directory's listing, each under its name. *)
Definition observed_each (es : list (string * node)) : list (list string * Z) :=
  flat_map (fun e => map (under (fst e)) (observed (fst e) (snd e))) es.

Section WalkNames.
Context `{Platform}.

(** The loop of [walk] over the entries of a directory. *)
Fixpoint walk_names {S : Type} (perm : Perm) (path : string) (walkFn : WalkFunc S)
    (es : list (string * node)) (s : S) : option error * S :=
  match es with
  | [] => (None, s)
  | (cname, c) :: es' =>
      let filename := Join [path; cname] in
      if px perm then
        let '(err, s') := walk filename cname c walkFn s in
        match err with
        | Some e =>
            if bool_decide (is_dir c = false ∨ e ≠ SkipDir)
            then (Some e, s')
            else walk_names perm path walkFn es' s'
        | None => walk_names perm path walkFn es' s'
        end
      else
        let '(err, s') :=
          walkFn filename (VisitErr (PathError "lstat" filename EACCES)) s in
        match err with
        | Some e =>
            if bool_decide (e ≠ SkipDir) then (Some e, s')
            else walk_names perm path walkFn es' s'
        | None => walk_names perm path walkFn es' s'
        end
  end.
End WalkNames.

Section WalkWrites.
Context `{Platform} `{Schema}.

(** What a walk does on one tree, as the lemmas below state it. *)
Definition walk_writes (t : node) : Prop :=
  ∀ path name h err h',
    walk path name t fingerprint_visit h = (err, h') →
    match err with
    | None => h' = h +:+ render_all path (observed name t)
    | Some e => e = SkipDir → h' = h ∧ observed name t = []
    end.

End WalkWrites.

(** * Definitions for the further properties *)

Section MigrationMoreSpec.
Context `{Platform} `{Schema} `{!Yaml} `{Semver}.

(** Root, name and runtime of [g] are those of [f]. *)
Definition same_identity (f g : Function) : Prop :=
  Root g = Root f ∧ Name g = Name f ∧ Runtime g = Runtime f.

(** A migration that fails hands back the descriptor it was given. *)
Definition fails_clean (m : migration) : Prop :=
  ∀ w f f' e, migrate m w f (version m) = (f', Some e) → f' = f.

(** The creation time of [g], knowing that of [f] and that only a
    descriptor with a name and a runtime is given one, at instant [now]. *)
Definition creation_kept (now : Z) (f g : Function) : Prop :=
  match Created f with
  | Some t => Created g = Some t
  | None =>
      Created g = None ∨
      (Created g = Some now ∧ Name f ≠ "" ∧ Language (Runtime f) ≠ "")
  end.

(** The build and run sections as the 1.0.0 migration takes them from the
    descriptor file. *)
Definition Build_of_100 (f0 : migrateTo100_previousFunction) : BuildSpec :=
  {| Git := p_Git f0; BuildType := p_BuildType f0;
     BuilderImages := p_BuilderImages f0;
     Buildpacks := p_Buildpacks f0; BuildEnvs := p_BuildEnvs f0 |}.

Definition Run_of_100 (f0 : migrateTo100_previousFunction) : RunSpec :=
  {| Namespace := p_Namespace f0; Volumes := p_Volumes f0;
     Envs := p_Envs f0; Annotations := p_Annotations f0;
     Options := p_Options f0; Labels := p_Labels f0;
     HealthEndpoints := p_HealthEndpoints f0 |}.
End MigrationMoreSpec.

(** ** Trees the walk of a fingerprint gets through *)

(** The walk gets through a tree when it can list every directory it
    comes to, one it then skips by its name included, and can reach the
    entries of every directory it goes into. *)
Fixpoint walk_ok (name : string) (n : node) : bool :=
  match n with
  | File _ _ _ => true
  | Dir _ perm es =>
      pr perm &&
      (skipped name ||
       (fix each (es : list (string * node)) : bool :=
          match es with
          | [] => true
          | (cname, c) :: es' => px perm && walk_ok cname c && each es'
          end) es)
  end.

Definition walk_ok_each (perm : Perm) (es : list (string * node)) : bool :=
  forallb (fun e => px perm && walk_ok (fst e) (snd e)) es.

(** The walk goes into every directory on the way down a path: none is
    skipped by its name.  [name] is the name of the tree the path starts
    from; the last name of the path is that of the entry reached, which
    the walk looks at whatever it is called when it is a file. *)
Fixpoint walked (name : string) (q : list string) : bool :=
  match q with
  | [] => true
  | c :: q' => negb (skipped name) && walked c q'
  end.

Section WalkPasses.
Context `{Platform} `{Schema}.

(** The walk ends without an error, or asking its caller to skip, on
    exactly the trees it gets through. *)
Definition walk_passes (t : node) : Prop :=
  ∀ path name h err h',
    walk path name t fingerprint_visit h = (err, h') →
    (err = None ∨ err = Some SkipDir) ↔ walk_ok name t = true.
End WalkPasses.

(** ** Reading the record of a run, further *)

Section TraceMoreSpec.
Context `{Schema}.

(** The writes to the file system the client makes itself. *)
Definition own_write (ev : Event) : bool :=
  match ev with
  | SysMkdirAll _ | SysWriteFile _ _ => true
  | _ => false
  end.
End TraceMoreSpec.

Section RemoveMoreSpec.
Context `{Schema}.

(** The two removals of [Remove] do not interfere: run one after the
    other on any world, in either order, they return the same errors and
    leave the same world. *)
Definition removals_commute (c : Client) : Prop :=
  ∀ name cfg w,
    let '(a, w1) := Remover_Remove (remover c) name w in
    let '(b, w2) := Pipelines_Remove (pipelinesProvider c) cfg w1 in
    let '(b', w1') := Pipelines_Remove (pipelinesProvider c) cfg w in
    let '(a', w2') := Remover_Remove (remover c) name w1' in
    a = a' ∧ b = b' ∧ w2 = w2'.
End RemoveMoreSpec.

(** ** The prompts of the commands *)

Section PromptSpec.
Context `{Platform} `{Schema} `{!FunctionPkg} `{!VolumesPkg}.

(** The prompts answer from what they offer and with what the validator
    accepts. *)
Definition prompts_sound : Prop :=
  (∀ msg opts t a t', AskSelect msg opts t = (Answered a, t') → a ∈ opts) ∧
  (∀ msg validator t a t',
     AskInput msg validator t = (Answered a, t') → validator a = None).

(** A volume that mounts a config map or a secret of the names given at
    an absolute path. *)
Definition mounts (secrets configMaps : list string) (v : VolumeT) : Prop :=
  ∃ name rest,
    (name ∈ configMaps ∧ v = Volume_make None (Some name) (Some ("/" +:+ rest))) ∨
    (name ∈ secrets ∧ v = Volume_make (Some name) None (Some ("/" +:+ rest))).

(** What a run of [runAddVolumesPrompt] from the state [s] may come to:
    nothing written, or the descriptor written once with one such
    volume after those it had. *)
Definition adds_mount (f : Function) (s : State)
    (r : (option error * Terminal) * State) : Prop :=
  (world (snd r) = world s ∧
   ∃ evs, trace (snd r) = trace s ++ evs ∧ ∀ g, CallWrite g ∉ evs) ∨
  (∃ secrets configMaps v,
     ListSecretsNamesIfConnected (Runtime_Namespace f) (world s) = ok secrets ∧
     ListConfigMapsNamesIfConnected (Runtime_Namespace f) (world s) = ok configMaps ∧
     mounts secrets configMaps v ∧
     let g := set_Runtime_Volumes f (Runtime_Volumes f ++ [v]) in
     fst (fst r) = fst (Function_Write g (world s)) ∧
     world (snd r) = snd (Function_Write g (world s)) ∧
     ∃ tail, trace (snd r) = trace s ++ CallWrite g :: tail ∧
             ∀ g', CallWrite g' ∉ tail).
End PromptSpec.

(** ** The record of the command [run] *)

Section RunSpecMore.
Context `{Schema}.

(** How [Build] announces itself to the progress listener. *)
Definition building : Event := Increment "Building function image".

(** The line [run] prints when it goes on with the image at hand. *)
Definition already_built_line : Event := Stdout (already_built_message +:+ eol).

Definition is_Stdout (ev : Event) : bool :=
  match ev with Stdout _ => true | _ => false end.

Definition is_Stderr (ev : Event) : bool :=
  match ev with Stderr _ => true | _ => false end.

(** The line [run] prints once the runner has started the Function. *)
Definition started_line (port : string) : Event :=
  Stderr ("Function started on port " +:+ port +:+ eol).

(** The values of [--build] that [run] accepts. *)
Definition build_values : list string :=
  ["auto"; "1"; "t"; "T"; "TRUE"; "true"; "True";
   "0"; "f"; "F"; "FALSE"; "false"; "False"].
End RunSpecMore.

Section WritesSpec.
Context `{Schema}.

(** The events by which the client changes the project on disk: writing
    the descriptor or the templates, making a directory, writing a
    file. *)
Definition writes (ev : Event) : bool :=
  match ev with
  | CallWrite _ | CallTemplatesWrite _ | SysMkdirAll _ | SysWriteFile _ _ => true
  | _ => false
  end.

(** The builder images of a descriptor, a [nil] map read as empty. *)
Definition images (f : Function) : gmap string string :=
  default ∅ (BuilderImages (Build f)).

(** The builder a descriptor file of before 0.23.0 names is one the user
    chose. *)
Definition custom_builder (builder : string) : Prop :=
  builder ≠ "" ∧ builder ≠ "gcr.io/paketo-buildpacks/builder:base".
End WritesSpec.

(** * A platform to run the model on *)

(** ** SHA-256 (FIPS 180-4), on 32-bit words as [N] *)

Module SHA256.
Local Open Scope N_scope.

Definition mask : N := 4294967295.
Definition add32 (x y : N) : N := (x + y) mod 4294967296.
Definition rotr (n x : N) : N :=
  N.lor (N.shiftr x n) (N.land (N.shiftl x (32 - n)) mask).
Definition Ch (x y z : N) : N :=
  N.lxor (N.land x y) (N.land (N.lxor x mask) z).
Definition Maj (x y z : N) : N :=
  N.lxor (N.lxor (N.land x y) (N.land x z)) (N.land y z).
Definition Sigma0 (x : N) : N := N.lxor (N.lxor (rotr 2 x) (rotr 13 x)) (rotr 22 x).
Definition Sigma1 (x : N) : N := N.lxor (N.lxor (rotr 6 x) (rotr 11 x)) (rotr 25 x).
Definition sigma0 (x : N) : N := N.lxor (N.lxor (rotr 7 x) (rotr 18 x)) (N.shiftr x 3).
Definition sigma1 (x : N) : N := N.lxor (N.lxor (rotr 17 x) (rotr 19 x)) (N.shiftr x 10).

Definition K : list N :=
  [ 1116352408; 1899447441; 3049323471; 3921009573; 961987163; 1508970993;
    2453635748; 2870763221; 3624381080; 310598401; 607225278; 1426881987;
    1925078388; 2162078206; 2614888103; 3248222580; 3835390401; 4022224774;
    264347078; 604807628; 770255983; 1249150122; 1555081692; 1996064986;
    2554220882; 2821834349; 2952996808; 3210313671; 3336571891; 3584528711;
    113926993; 338241895; 666307205; 773529912; 1294757372; 1396182291;
    1695183700; 1986661051; 2177026350; 2456956037; 2730485921; 2820302411;
    3259730800; 3345764771; 3516065817; 3600352804; 4094571909; 275423344;
    430227734; 506948616; 659060556; 883997877; 958139571; 1322822218;
    1537002063; 1747873779; 1955562222; 2024104815; 2227730452; 2361852424;
    2428436474; 2756734187; 3204031479; 3329325298 ].

Definition H0 : list N :=
  [ 1779033703; 3144134277; 1013904242; 2773480762;
    1359893119; 2600822924; 528734635; 1541459225 ].

(** Padding: a bit 1, zeros, the length in bits on 64 bits. *)
Definition be_bytes (count : nat) (x : N) : list N :=
  map (fun i => N.shiftr x (8 * N.of_nat i) mod 256) (rev (seq 0 count)).

Definition pad (msg : list N) : list N :=
  let len := N.of_nat (length msg) in
  let zeros := (64 - ((len + 9) mod 64)) mod 64 in
  msg ++ [128] ++ replicate (N.to_nat zeros) 0 ++ be_bytes 8 (8 * len).

Fixpoint words (fuel : nat) (bytes : list N) : list N :=
  match fuel, bytes with
  | S fuel', a :: b :: c :: d :: rest =>
      (a * 16777216 + b * 65536 + c * 256 + d) :: words fuel' rest
  | _, _ => []
  end.

(** The message schedule, most recent word first. *)
Fixpoint expand (count : nat) (recent : list N) : list N :=
  match count with
  | O => recent
  | S count' =>
      let w := add32 (add32 (sigma1 (nth 1 recent 0)) (nth 6 recent 0))
                     (add32 (sigma0 (nth 14 recent 0)) (nth 15 recent 0)) in
      expand count' (w :: recent)
  end.

Definition round (st : list N) (kw : N * N) : list N :=
  match st with
  | [a; b; c; d; e; f; g; h] =>
      let t1 := add32 (add32 (add32 h (Sigma1 e)) (add32 (Ch e f g) (fst kw))) (snd kw) in
      let t2 := add32 (Sigma0 a) (Maj a b c) in
      [add32 t1 t2; a; b; c; add32 d t1; e; f; g]
  | _ => st
  end.

Definition compress (st : list N) (block : list N) : list N :=
  let w := rev (expand 48 (rev block)) in
  let st' := fold_left round (combine K w) st in
  map (fun p => add32 (fst p) (snd p)) (combine st st').

Fixpoint blocks (fuel : nat) (st : list N) (ws : list N) : list N :=
  match fuel with
  | O => st
  | S fuel' =>
      match ws with
      | [] => st
      | _ => blocks fuel' (compress st (take 16 ws)) (drop 16 ws)
      end
  end.

Definition digest (msg : list N) : list N :=
  let bytes := pad msg in
  let ws := words (length bytes) bytes in
  flat_map (be_bytes 4) (blocks (length ws) H0 ws).

Definition sum (s : string) : string :=
  string_of_list_ascii
    (map ascii_of_N (digest (map N_of_ascii (list_ascii_of_string s)))).
End SHA256.

(** ** Paths, the Unix way *)

Module Unix.

Definition slash : ascii := "/"%char.

(** [strings.Split(s, "/")] *)
Fixpoint split (s : string) : list string :=
  match s with
  | EmptyString => [EmptyString]
  | String c s' =>
      if Ascii.eqb c slash then EmptyString :: split s'
      else match split s' with
           | [] => [String c EmptyString]
           | l :: ls => String c l :: ls
           end
  end.

Definition rooted (p : string) : bool :=
  match p with String c _ => Ascii.eqb c slash | EmptyString => false end.

(** The elements [filepath.Clean] keeps, innermost first. *)
Fixpoint clean_elems (is_rooted : bool) (stack : list string) (elems : list string)
  : list string :=
  match elems with
  | [] => stack
  | e :: elems' =>
      if String.eqb e "" || String.eqb e "." then clean_elems is_rooted stack elems'
      else if String.eqb e ".." then
        match stack with
        | top :: below =>
            if String.eqb top ".." then clean_elems is_rooted (e :: stack) elems'
            else clean_elems is_rooted below elems'
        | [] =>
            if is_rooted then clean_elems is_rooted stack elems'
            else clean_elems is_rooted [e] elems'
        end
      else clean_elems is_rooted (e :: stack) elems'
  end.

(** [filepath.Clean] *)
Definition Clean (p : string) : string :=
  let elems := rev (clean_elems (rooted p) [] (split p)) in
  let body := String.concat "/" elems in
  if rooted p then "/" +:+ body
  else if String.eqb body "" then "." else body.

(** [filepath.Join] *)
Definition Join (elems : list string) : string :=
  match filter (fun e => e ≠ "") elems with
  | [] => ""
  | some => Clean (String.concat "/" some)
  end.

(** The working directory of the process is the root of the file system. *)
Definition Abs (p : string) : res string :=
  ok (if rooted p then Clean p else Join ["/"; p]).

(** The name [os.Lstat] reports: trailing slashes dropped, then what
    follows the last slash. *)
Definition basename (p : string) : string :=
  match rev (filter (fun e => e ≠ "") (split p)) with
  | name :: _ => name
  | [] => if rooted p then "/" else p
  end.

(** The names from the root of the file system to the entry; a relative
    path starts at the root. *)
Definition resolve (p : string) : list string :=
  rev (clean_elems true [] (split p)).
End Unix.

Definition unix : Platform :=
  {| Join := Unix.Join;
     Abs := Unix.Abs;
     Getwd := ok "/";
     basename := Unix.basename;
     resolve := Unix.resolve;
     Sum256 := SHA256.sum;
     GOOS := "linux" |}.

(** ** Versions without pre-release or build metadata *)

Module PlainSemver.

Fixpoint split_dots (s : string) : list string :=
  match s with
  | EmptyString => [EmptyString]
  | String c s' =>
      if Ascii.eqb c "."%char then EmptyString :: split_dots s'
      else match split_dots s' with
           | [] => [String c EmptyString]
           | l :: ls => String c l :: ls
           end
  end.

Fixpoint digits (acc : N) (s : string) : option N :=
  match s with
  | EmptyString => Some acc
  | String c s' =>
      let d := N_of_ascii c in
      if ((48 <=? d) && (d <=? 57))%N then digits (acc * 10 + (d - 48))%N s'
      else None
  end.

Definition number (s : string) : option N :=
  if String.eqb s "" then None else digits 0%N s.

Definition parse (s : string) : option (N * N * N) :=
  match split_dots s with
  | [a; b; c] =>
      major ← number a; minor ← number b; patch ← number c;
      Some (major, minor, patch)
  | _ => None
  end.

Definition less (v w : N * N * N) : bool :=
  let '(a, b, c) := v in
  let '(a', b', c') := w in
  ((a <? a') || ((a =? a') && ((b <? b') || ((b =? b') && (c <? c')))))%N.
End PlainSemver.

Definition plainSemver : Semver :=
  {| SemVersion := N * N * N;
     semver_New := PlainSemver.parse;
     LessThan := PlainSemver.less |}.

(** ** A descriptor without nested configuration, kept as five lines *)

Definition bareSchema : Schema :=
  {| GitT := unit; EnvT := unit; VolumeT := unit; OptionsT := unit;
     LabelT := unit; HealthEndpointsT := unit |}.

Section Bare.
#[local] Existing Instance unix.
#[local] Existing Instance bareSchema.

Definition bareYaml : Yaml :=
  {| Unmarshal_BuilderImages := fun bb => ok {| f0_Builder := "" |};
     Unmarshal_100 := fun bb =>
       ok {| p_BuildType := ""; p_Git := tt; p_BuilderImages := None;
             p_Buildpacks := []; p_Builder := ""; p_Namespace := "";
             p_Volumes := []; p_BuildEnvs := []; p_Envs := [];
             p_Annotations := None; p_Options := tt; p_Labels := [];
             p_HealthEndpoints := tt |} |}.

Definition blank (root : string) : Function :=
  {| Root := root; Name := "";
     Runtime := {| Language := ""; Image := ""; ImageDigest := "" |};
     Version := ""; Created := None;
     Build := {| Git := tt; BuildType := ""; BuilderImages := None;
                 Buildpacks := []; BuildEnvs := [] |};
     Run := {| Namespace := ""; Volumes := []; Envs := []; Annotations := None;
               Options := tt; Labels := []; HealthEndpoints := tt |} |}.

Definition newline : string := String "010" "".

Definition serialize (f : Function) : string :=
  String.concat newline
    [Name f; Language (Runtime f); Image (Runtime f); ImageDigest (Runtime f);
     Version f].

Definition deserialize (root content : string) : Function * option error :=
  match lines content with
  | [name; language; image; digest; version] =>
      (set_Version
         (set_Runtime (set_Name (blank root) name)
            {| Language := language; Image := image; ImageDigest := digest |})
         version, None)
  | _ => (blank root, Some (Errorf "malformed descriptor"))
  end.

Definition bare_NewFunction (w : World) (root : string) : Function * option error :=
  match ReadFile w (Join [root; FunctionFile]) with
  | ok content => deserialize root content
  | fail (PathError _ _ ENOENT) => (blank root, None)
  | fail e => (blank root, Some e)
  end.

Definition bare_DerivedImage (w : World) (root registry : string)
  : string * option error :=
  let '(f, err) := bare_NewFunction w root in
  match err with
  | Some e => ("", Some e)
  | None =>
      if HasImage f then (Image (Runtime f), None)
      else (registry +:+ "/" +:+ Name f +:+ ":latest", None)
  end.

Definition barePkg : FunctionPkg :=
  {| NewFunction := bare_NewFunction;
     NewFunctionWith := fun cfg => cfg;
     hasInitializedFunction := fun w root =>
       let '(f, err) := bare_NewFunction w root in
       match err with
       | Some e => (false, Some e)
       | None => (Initialized f, None)
       end;
     assertEmptyRoot := fun w root => None;
     nameFromPath := basename;
     DerivedImage := bare_DerivedImage;
     Function_Write := fun f w =>
       WriteFile (Join [Root f; FunctionFile]) (serialize f) w;
     Templates_Write := fun f w =>
       let f := if String.eqb (Language (Runtime f)) ""
                then set_Runtime f {| Language := "go"; Image := Image (Runtime f);
                                      ImageDigest := ImageDigest (Runtime f) |}
                else f in
       let '(err, w') := WriteFile (Join [Root f; "handle.go"]) "package function" w in
       ((f, err), w') |}.

(** Collaborators that only answer. *)
Definition stubBuilder : Builder := {| Builder_Build := fun _ w => (None, w) |}.
Definition stubPusher (digest : string) (err : option error) : Pusher :=
  {| Pusher_Push := fun _ w => ((digest, err), w) |}.
Definition stubRemover (err : option error) : Remover :=
  {| Remover_Remove := fun _ w => (err, w) |}.
Definition stubPipelines (err : option error) : PipelinesProvider :=
  {| Pipelines_Run := fun _ w => (None, w);
     Pipelines_Remove := fun _ w => (err, w) |}.

Definition bareClient : Client :=
  {| verbose := false; registry := "quay.io/alice";
     builder := stubBuilder; pusher := stubPusher "sha256:abc" None;
     deployer := noopDeployer; remover := noopRemover;
     dnsProvider := noopDNSProvider; pipelinesProvider := noopPipelinesProvider |}.

(** An empty file system at instant [now]. *)
Definition emptyWorld (now : Z) : World :=
  {| fs := Dir 0 ModePerm []; clock := now |}.

Definition start (w : World) : State := {| world := w; trace := [] |}.

(** Time passes. *)
Definition at_time (now : Z) (s : State) : State :=
  {| world := {| fs := fs (world s); clock := now |}; trace := trace s |}.
End Bare.

(** ** A project, from creation to build *)

Section Scenario.
#[local] Existing Instance unix.
#[local] Existing Instance bareSchema.
#[local] Existing Instance barePkg.

Definition demo : Function := set_Root (blank "") "/demo".

(** The project created at instant 1000 ... *)
Definition created : State :=
  Eval vm_compute in snd (Client_Create bareClient demo (start (emptyWorld 1000))).

(** ... and built at instant 2000. *)
Definition built : State :=
  Eval vm_compute in snd (Client_Build bareClient "/demo" (at_time 2000 created)).

(** The descriptor as it is on disk after the build. *)
Definition built_demo : Function :=
  Eval vm_compute in fst (NewFunction (world built) "/demo").

(** Two project trees at [/demo] that differ in what a fingerprint does
    not look at: the content of a file, and a skipped directory. *)
Definition tree_a : node :=
  Dir 10 ModePerm
    [ (".func", Dir 99 ModePerm [("built", File 5 ModePerm "stamp")]);
      ("handle.go", File 20 ModePerm "package a") ].

Definition tree_b : node :=
  Dir 10 ModePerm
    [ (".git", Dir 7 ModePerm []);
      ("handle.go", File 20 ModePerm "package b") ].

Definition world_of (t : node) : World :=
  {| fs := Dir 0 ModePerm [("demo", t)]; clock := 0 |}.
End Scenario.

(** ** Instances for the commands *)

Section BareCmd.
#[local] Existing Instance unix.
#[local] Existing Instance bareSchema.
#[local] Existing Instance barePkg.

(** Variables are counted, not merged: every name to remove counts as a
    change. *)
Definition bareCmd : CmdPkg :=
  {| EnvUpdates := unit;
     mergeEnvs := fun envs _ remove => ((envs, Z.of_nat (length remove)), None);
     Quote := fun s => dquote +:+ s +:+ dquote |}.

(** A runner whose job listens on port 8080. *)
Definition stubRunner : Runner :=
  {| Runner_Run := fun _ w =>
       ((Some {| Port := "8080"; Job_Stop := fun w => w |}, None), w) |}.

Definition bareRunClient : RunClient :=
  {| rc_client := bareClient; rc_runner := stubRunner; rc_done := fun w => w |}.

#[local] Existing Instance bareCmd.

Definition run_config (path build : string) (remove : list string) : runConfig :=
  {| cfg_Path := path; cfg_Verbose := false; cfg_EnvToUpdate := tt;
     cfg_EnvToRemove := remove; cfg_Build := build; cfg_Registry := "" |}.
End BareCmd.

(** A descriptor whose volumes are triples: secret, config map, path. *)
Definition volSchema : Schema :=
  {| GitT := unit; EnvT := unit;
     VolumeT := option string * option string * option string;
     OptionsT := unit; LabelT := unit; HealthEndpointsT := unit |}.

Section Scripted.
#[local] Existing Instance unix.
#[local] Existing Instance volSchema.

Definition with_volumes (root : string)
    (vs : list (option string * option string * option string)) : Function :=
  {| Root := root; Name := "demo";
     Runtime := {| Language := "go"; Image := ""; ImageDigest := "" |};
     Version := "1.0.0"; Created := Some 1;
     Build := {| Git := tt; BuildType := ""; BuilderImages := None;
                 Buildpacks := []; BuildEnvs := [] |};
     Run := {| Namespace := "default"; Volumes := vs; Envs := [];
               Annotations := None; Options := tt; Labels := [];
               HealthEndpoints := tt |} |}.

(** A package whose descriptor is never on disk. *)
Definition quietPkg : FunctionPkg :=
  {| NewFunction := fun w root => (with_volumes root [], None);
     NewFunctionWith := fun cfg => cfg;
     hasInitializedFunction := fun w root => (false, None);
     assertEmptyRoot := fun w root => None;
     nameFromPath := basename;
     DerivedImage := fun w root registry => (registry, None);
     Function_Write := fun f w => (None, w);
     Templates_Write := fun f w => ((f, None), w) |}.

#[local] Existing Instance quietPkg.

(** Before any command has run. *)
Definition quiet : State := {| world := emptyWorld 0; trace := [] |}.

(** The terminal is the list of what the user will enter.  A choice
    that was not offered is an error; an input the validator refuses is
    asked for again. *)
Definition scripted_select (opts : list string) (t : list answer)
  : answer * list answer :=
  match t with
  | [] => (AskFailed (Errorf "EOF"), [])
  | Answered a :: t' =>
      if bool_decide (a ∈ opts) then (Answered a, t')
      else (AskFailed (Errorf "no such option"), t')
  | a :: t' => (a, t')
  end.

Fixpoint scripted_input (validator : string → option error) (t : list answer)
  : answer * list answer :=
  match t with
  | [] => (AskFailed (Errorf "EOF"), [])
  | Answered a :: t' =>
      match validator a with
      | None => (Answered a, t')
      | Some _ => scripted_input validator t'
      end
  | a :: t' => (a, t')
  end.

Definition volume_text (v : option string * option string * option string)
  : string :=
  let '(secret, configMap, path) := v in
  default "" secret +:+ default "" configMap +:+ ":" +:+ default "" path.

Definition scripted : VolumesPkg :=
  {| Terminal := list answer;
     AskSelect := fun _ opts t => scripted_select opts t;
     AskInput := fun _ validator t => scripted_input validator t;
     ListSecretsNamesIfConnected := fun _ _ => ok ["token"];
     ListConfigMapsNamesIfConnected := fun _ _ => ok ["settings"];
     Runtime_Volumes := fun f => Volumes (Run f);
     Runtime_Namespace := fun f => Namespace (Run f);
     set_Runtime_Volumes := fun f vs => with_volumes (Root f) vs;
     Volume_make := fun secret configMap path => (secret, configMap, path);
     Volume_String := volume_text |}.

#[local] Existing Instance scripted.

(** What the user will enter, as the terminal of the commands. *)
Definition entered (l : list answer) : Terminal := l.
End Scripted.

(** * Properties *)

(** ** Strings *)

Lemma append_assoc (a b c : string) : (a +:+ b) +:+ c = a +:+ (b +:+ c).
Proof.
  induction a as [|x a IH]; [done|].
  change (String x ((a +:+ b) +:+ c) = String x (a +:+ (b +:+ c))). by rewrite IH.
Qed.

Lemma append_nil_r (a : string) : a +:+ "" = a.
Proof.
  induction a as [|x a IH]; [done|].
  change (String x (a +:+ "") = String x a). by rewrite IH.
Qed.


(** ** Migration engine *)

Section MigrationFacts.
Context `{Platform} `{Schema} `{!Yaml} `{Semver} `{!SemverOrder}.

Lemma LessThan_asym a b : LessThan a b = true → LessThan b a = false.
Proof.
  intros Hab. destruct (LessThan b a) eqn:Hba; [|done].
  pose proof (LessThan_trans _ _ _ Hab Hba) as Haa.
  by rewrite LessThan_irrefl in Haa.
Qed.

#[global] Instance LessThan_transitive : Transitive (fun a b => LessThan a b = true).
Proof. intros a b c. apply LessThan_trans. Qed.

Lemma version_less_Some a b va vb :
  semver_New a = Some va → semver_New b = Some vb →
  version_less a b = Some (LessThan va vb).
Proof. intros Ha Hb. unfold version_less. by rewrite Ha, Hb. Qed.

Lemma thresholds_cons m ms vs :
  thresholds (m :: ms) = Some vs →
  ∃ v vs', vs = v :: vs' ∧ semver_New (version m) = Some v ∧ thresholds ms = Some vs'.
Proof.
  unfold thresholds. cbn. intros Hm.
  destruct (semver_New (version m)) as [v|] eqn:Hv; [|done]. cbn in Hm.
  destruct (mapM _ ms) as [vs'|] eqn:Hvs; [|done]. cbn in Hm.
  injection Hm as <-. eauto.
Qed.

(** The loop does what the chain says. *)
Lemma migrate_loop_chain w ms f r :
  migrate_loop w ms f = Some r → chain w ms f r.
Proof.
  revert f r. induction ms as [|m ms IH]; intros f r; cbn.
  - intros [= <-]. constructor.
  - destruct (version_less (Version f) (version m)) as [[]|] eqn:Hlt; cbn; [| |done].
    + destruct (migrate m w f (version m)) as [f' [e|]] eqn:Hm.
      * intros [= <-]. by eapply chain_abort.
      * intros Hr. eapply chain_apply; eauto.
    + intros Hr. apply chain_skip; auto.
Qed.

(** The loop returns whenever the versions it meets can be parsed. *)
Lemma migrate_loop_total w ms f vs :
  Forall stamps ms → thresholds ms = Some vs → is_Some (semver_New (Version f)) →
  is_Some (migrate_loop w ms f).
Proof.
  revert f vs. induction ms as [|m ms IH]; intros f vs Hst Hth [v Hv]; cbn; [eauto|].
  apply thresholds_cons in Hth as (vm & vs' & -> & Hvm & Hth).
  apply Forall_cons in Hst as [Hm Hst].
  rewrite (version_less_Some _ _ _ _ Hv Hvm). cbn.
  destruct (LessThan v vm); cbn.
  - destruct (migrate m w f (version m)) as [f' [e|]] eqn:Hmig; [eauto|].
    apply (IH f' vs'); auto. rewrite (Hm _ _ _ Hmig). eauto.
  - apply (IH f vs'); eauto.
Qed.

(** A version that is not below the last threshold is below none. *)
Lemma chain_all_skipped w ms f v vs vl :
  semver_New (Version f) = Some v →
  thresholds ms = Some vs →
  StronglySorted (fun a b => LessThan a b = true) vs →
  last vs = Some vl → LessThan v vl = false →
  chain w ms f (f, None).
Proof.
  intros Hv. revert vs. induction ms as [|m ms IH]; intros vs Hth Hs Hl Hge.
  - constructor.
  - apply thresholds_cons in Hth as (vm & vs' & -> & Hvm & Hth).
    apply StronglySorted_inv in Hs as [Hs Hall].
    assert (LessThan v vm = false) as Hskip.
    { destruct vs' as [|v' vs''].
      - cbn in Hl. by injection Hl as <-.
      - rewrite last_cons_cons in Hl.
        destruct (LessThan v vm) eqn:Hlt; [|done].
        assert (vl ∈ v' :: vs'') as Hin by (by apply last_Some_elem_of).
        rewrite Forall_forall in Hall.
        pose proof (LessThan_trans _ _ _ Hlt (Hall _ Hin)). congruence. }
    apply chain_skip.
    + by rewrite (version_less_Some _ _ _ _ Hv Hvm), Hskip.
    + destruct vs' as [|v' vs''].
      * destruct ms; [constructor|]. apply thresholds_cons in Hth as (?&?&?&_). done.
      * rewrite last_cons_cons in Hl. by eapply IH.
Qed.

Lemma thresholds_last ms vs m :
  thresholds ms = Some vs → last ms = Some m →
  ∃ vl, semver_New (version m) = Some vl ∧ last vs = Some vl.
Proof.
  revert vs. induction ms as [|m0 ms IH]; intros vs Hth Hl; [done|].
  apply thresholds_cons in Hth as (vm & vs' & -> & Hvm & Hth).
  destruct ms as [|m1 ms].
  - cbn in Hl. injection Hl as <-. unfold thresholds in Hth. cbn in Hth.
    injection Hth as <-. eauto.
  - rewrite last_cons_cons in Hl. destruct (IH _ Hth Hl) as (vl & ? & ?).
    exists vl. split; [done|].
    apply thresholds_cons in Hth as (? & ? & -> & _). by rewrite last_cons_cons.
Qed.

(** A successful run of the loop from below the last threshold ends at
    the last threshold. *)
Lemma migrate_loop_reaches_last w ms f f' v vs vl m :
  Forall stamps ms → thresholds ms = Some vs →
  StronglySorted (fun a b => LessThan a b = true) vs →
  last ms = Some m → last vs = Some vl →
  semver_New (Version f) = Some v → LessThan v vl = true →
  migrate_loop w ms f = Some (f', None) →
  Version f' = version m.
Proof.
  revert f v vs. induction ms as [|m0 ms IH]; intros f v vs Hst Hth Hs Hlm Hlv Hv Hlt; [done|].
  apply thresholds_cons in Hth as (vm & vs' & -> & Hvm & Hth).
  apply Forall_cons in Hst as [Hm0 Hst].
  apply StronglySorted_inv in Hs as [Hs Hall].
  cbn. rewrite (version_less_Some _ _ _ _ Hv Hvm). cbn.
  destruct ms as [|m1 ms].
  - cbn in Hlm. injection Hlm as <-.
    unfold thresholds in Hth. cbn in Hth. injection Hth as <-.
    cbn in Hlv. injection Hlv as <-. rewrite Hlt. cbn.
    destruct (migrate m0 w f (version m0)) as [f1 [e|]] eqn:Hmig; [done|].
    cbn. intros [= <-]. by eapply Hm0.
  - rewrite last_cons_cons in Hlm.
    pose proof Hth as Hth'.
    apply thresholds_cons in Hth' as (v1 & vs'' & -> & Hv1 & _).
    rewrite last_cons_cons in Hlv.
    destruct (LessThan v vm) eqn:Hlt0; cbn.
    + destruct (migrate m0 w f (version m0)) as [f1 [e|]] eqn:Hmig; [done|].
      intros Hloop. eapply (IH f1 vm); eauto.
      * rewrite (Hm0 _ _ _ Hmig). done.
      * rewrite Forall_forall in Hall. apply Hall. by apply last_Some_elem_of.
    + intros Hloop. eapply (IH f v); eauto.
Qed.
End MigrationFacts.

Section MigrationTheorems.
Context `{Platform} `{Schema} `{!Yaml} `{Semver}.

Lemma migrateToCreationStamp_stamps w f v f' :
  migrateToCreationStamp w f v = (f', None) → Version f' = v.
Proof. unfold migrateToCreationStamp. by intros [= <-]. Qed.

Lemma migrateToBuilderImages_stamps w f v f' :
  migrateToBuilderImages w f v = (f', None) → Version f' = v.
Proof.
  unfold migrateToBuilderImages.
  destruct (ReadFile _ _); [|done].
  destruct (Unmarshal_BuilderImages _); [|done].
  by intros [= <-].
Qed.

Lemma migrateTo100Structure_stamps w f v f' :
  migrateTo100Structure w f v = (f', None) → Version f' = v.
Proof.
  unfold migrateTo100Structure.
  destruct (ReadFile _ _); [|done].
  destruct (Unmarshal_100 _); [|done].
  by intros [= <-].
Qed.

Lemma migrations_stamp : Forall stamps migrations.
Proof.
  repeat constructor; intros w f f'; cbn.
  - apply migrateToCreationStamp_stamps.
  - apply migrateToBuilderImages_stamps.
  - apply migrateTo100Structure_stamps.
Qed.

Lemma effective_versioned f v0 :
  semver_New DefaultVersion = Some v0 → versioned f →
  is_Some (semver_New (Version (effective f))).
Proof.
  intros Hd Hv. unfold effective.
  destruct (String.eqb_spec (Version f) "") as [He|Hne]; cbn; [eauto|].
  by destruct Hv.
Qed.

Context `{!SemverOrder}.

(** The engine over any registry that is ascending and whose migrations
    stamp their threshold. *)
Lemma Migrate_in_chain ms w f :
  ms ≠ [] → Forall stamps ms → ascending ms → versioned f →
  ∃ r, Migrate_in ms w f = Some r ∧ chain w ms (effective f) r.
Proof.
  intros Hne Hst (v0 & vs & Hd & Hth & Hs) Hv.
  apply Sorted_StronglySorted in Hs; [|apply _].
  apply StronglySorted_inv in Hs as [Hs Hall].
  destruct (last ms) as [ml|] eqn:Hlast; [|by apply last_None in Hlast].
  destruct (thresholds_last _ _ _ Hth Hlast) as (vl & Hvl & Hlv).
  unfold Migrate_in, Migrated_in, effective.
  destruct (String.eqb_spec (Version f) "") as [He|Hvne]; cbn.
  - assert (is_Some (migrate_loop w ms (set_Version f DefaultVersion))) as [r Hr].
    { apply (migrate_loop_total _ _ _ vs); cbn; eauto. }
    exists r. split; [done|]. by apply migrate_loop_chain.
  - destruct Hv as [?|[v Hfv]]; [done|].
    rewrite Hlast. cbn. rewrite Hvl. cbn. rewrite Hfv. cbn.
    destruct (LessThan v vl) eqn:Hlt; cbn.
    + destruct (migrate_loop_total w ms f vs) as [r Hr]; eauto.
      exists r. split; [done|]. by apply migrate_loop_chain.
    + exists (f, None). split; [done|]. by eapply chain_all_skipped.
Qed.

(** C3.  [Migrate] returns for every descriptor whose version is empty or
    well-formed, and what it returns is what the chain of the
    specification yields from the descriptor with an empty version read
    as 0.0.0: the registry is gone through in order, a migration is
    applied exactly when the current version (as left by the migrations
    applied so far) is below its threshold, the first error ends the run
    with the partial result and that error; and each migration of the
    registry, when it succeeds, leaves the version at its threshold. *)
Theorem Migrate_applies_by_threshold (w : World) (f : Function) :
  ascending migrations → versioned f →
  (∃ r, Migrate w f = Some r ∧ chain w migrations (effective f) r) ∧
  Forall stamps migrations.
Proof.
  intros Hasc Hv. split; [|apply migrations_stamp].
  apply Migrate_in_chain; auto using migrations_stamp.
Qed.

Lemma Migrated_at_last ms f m vl :
  last ms = Some m → semver_New (version m) = Some vl →
  Version f = version m → version m ≠ "" →
  Migrated_in ms f = Some true.
Proof.
  intros Hlast Hvl Hf Hne. unfold Migrated_in.
  destruct (String.eqb_spec (Version f) "") as [He|_]; [congruence|].
  rewrite Hlast. cbn. rewrite Hvl. cbn. rewrite Hf, Hvl. cbn.
  by rewrite LessThan_irrefl.
Qed.

Lemma Migrate_in_monotone_stable ms w w' f f' :
  ms ≠ [] → Forall stamps ms → Forall (fun m => version m ≠ "") ms → ascending ms →
  Migrate_in ms w f = Some (f', None) →
  version_less (Version f') (Version (effective f)) = Some false ∧
  Migrate_in ms w' f' = Some (f', None).
Proof.
  intros Hne Hst Hnonempty (v0 & vs & Hd & Hth & Hs) Hrun.
  apply Sorted_StronglySorted in Hs; [|apply _].
  apply StronglySorted_inv in Hs as [Hs Hall].
  destruct (last ms) as [ml|] eqn:Hlast.
  2:{ by apply last_None in Hlast. }
  destruct (thresholds_last _ _ _ Hth Hlast) as (vl & Hvl & Hlv).
  assert (LessThan v0 vl = true) as H0l.
  { rewrite Forall_forall in Hall. apply Hall. by apply last_Some_elem_of. }
  assert (version ml ≠ "") as Hmlne.
  { rewrite Forall_forall in Hnonempty. apply Hnonempty. by apply last_Some_elem_of. }
  assert (∀ g v, semver_New (Version g) = Some v → LessThan v vl = true →
                 migrate_loop w ms g = Some (f', None) →
                 version_less (Version f') (Version g) = Some false ∧
                 Migrate_in ms w' f' = Some (f', None)) as Hloop.
  { intros g v Hg Hlt Hl.
    pose proof (migrate_loop_reaches_last _ _ _ _ _ _ _ _ Hst Hth Hs Hlast Hlv Hg Hlt Hl)
      as Hfin.
    split.
    - rewrite Hfin, (version_less_Some _ _ _ _ Hvl Hg). by rewrite LessThan_asym.
    - unfold Migrate_in. by rewrite (Migrated_at_last _ _ _ _ Hlast Hvl Hfin Hmlne). }
  revert Hrun. unfold Migrate_in at 1, Migrated_in, effective.
  destruct (String.eqb_spec (Version f) "") as [He|Hvne]; cbn.
  - intros Hl. by eapply (Hloop (set_Version f DefaultVersion) v0).
  - rewrite Hlast. cbn. rewrite Hvl. cbn.
    destruct (semver_New (Version f)) as [v|] eqn:Hfv; [|done]. cbn.
    destruct (LessThan v vl) eqn:Hlt; cbn.
    + intros Hl. by eapply (Hloop f v).
    + intros [= <-]. split.
      * rewrite (version_less_Some _ _ _ _ Hfv Hfv). by rewrite LessThan_irrefl.
      * unfold Migrate_in, Migrated_in.
        destruct (String.eqb_spec (Version f) ""); [done|].
        rewrite Hlast. cbn. rewrite Hvl. cbn. rewrite Hfv. cbn. by rewrite Hlt.
Qed.

(** C4.  When [Migrate] succeeds on a descriptor, the version of the
    result is not less than the descriptor's (an empty one read as
    0.0.0), and migrating the result again, in whatever state the world
    then is, returns it unchanged and without error: the chain is
    idempotent through the version guard alone. *)
Theorem Migrate_monotone_and_stable (w w' : World) (f f' : Function) :
  ascending migrations →
  Migrate w f = Some (f', None) →
  version_less (Version f') (Version (effective f)) = Some false ∧
  Migrate w' f' = Some (f', None).
Proof.
  intros Hasc Hrun.
  eapply Migrate_in_monotone_stable; eauto using migrations_stamp.
  repeat constructor; done.
Qed.
End MigrationTheorems.

(** ** File system *)

Lemma get_entry_set_entry_eq c x y es :
  get_entry c es = Some x → get_entry c (set_entry c y es) = Some y.
Proof.
  induction es as [|[n c0] es IH]; cbn; [done|].
  destruct (String.eqb n c) eqn:Hn; cbn; rewrite Hn; auto.
Qed.

Lemma get_entry_set_entry_ne c0 c y es :
  c0 ≠ c → get_entry c0 (set_entry c y es) = get_entry c0 es.
Proof.
  intros Hne. induction es as [|[n c1] es IH]; cbn; [done|].
  destruct (String.eqb_spec n c) as [->|Hn]; cbn.
  - destruct (String.eqb_spec c c0); [congruence|done].
  - by rewrite IH.
Qed.

Lemma get_entry_add_entry_eq c y es :
  get_entry c es = None → get_entry c (add_entry c y es) = Some y.
Proof.
  induction es as [|[n c0] es IH]; cbn.
  - by rewrite String.eqb_refl.
  - destruct (String.eqb n c) eqn:Hn; [done|]. intros Hes.
    destruct (String.ltb c n); cbn.
    + by rewrite String.eqb_refl.
    + rewrite Hn. auto.
Qed.

Lemma get_entry_add_entry_ne c0 c y es :
  c0 ≠ c → get_entry c0 (add_entry c y es) = get_entry c0 es.
Proof.
  intros Hne. induction es as [|[n c1] es IH]; cbn.
  - destruct (String.eqb_spec c c0); [congruence|done].
  - destruct (String.ltb c n); cbn.
    + destruct (String.eqb_spec c c0); [congruence|done].
    + by rewrite IH.
Qed.

Lemma set_entry_same c x es :
  get_entry c es = Some x → set_entry c x es = es.
Proof.
  induction es as [|[n c0] es IH]; cbn; [done|].
  destruct (String.eqb n c); [by intros [= ->]|].
  intros Hes. by rewrite IH.
Qed.

(** [mkdirall] leaves every file where and as it was. *)
Lemma mkdirall_keeps_files now p t t' :
  mkdirall now p t = inr t' →
  ∀ q m perm data, find q t = inr (File m perm data) → find q t' = inr (File m perm data).
Proof.
  revert t t'. induction p as [|c p IH]; intros t t' Hmk q m0 perm0 data Hq.
  - destruct t; cbn in Hmk; [done|]. by injection Hmk as <-.
  - destruct t as [|m perm es]; cbn in Hmk; [done|].
    destruct q as [|c0 q]; [done|].
    cbn in Hq. destruct (px perm) eqn:Hx; [|done].
    destruct (get_entry c0 es) as [child0|] eqn:Hc0; [|done].
    destruct (get_entry c es) as [child|] eqn:Hc.
    + destruct (mkdirall now p child) as [e|child'] eqn:Hchild; [done|].
      injection Hmk as <-. cbn. rewrite Hx.
      destruct (decide (c0 = c)) as [->|Hne].
      * rewrite (get_entry_set_entry_eq _ _ _ _ Hc).
        rewrite Hc in Hc0. injection Hc0 as <-. by eapply IH.
      * rewrite get_entry_set_entry_ne, Hc0; done.
    + destruct (pw perm); [|done].
      destruct (mkdirall now p (Dir now ModePerm [])) as [e|child'] eqn:Hchild; [done|].
      injection Hmk as <-. cbn. rewrite Hx.
      assert (c0 ≠ c) by congruence.
      rewrite get_entry_add_entry_ne, Hc0; done.
Qed.

(** [mkdirall] on a directory that is there changes nothing. *)
Lemma mkdirall_existing now p t m perm es :
  is_dir t = true → find p t = inr (Dir m perm es) → mkdirall now p t = inr t.
Proof.
  revert t. induction p as [|c p IH]; intros t Ht Hp.
  - destruct t; done.
  - destruct t as [|m0 perm0 es0]; [done|]. cbn in *.
    destruct (px perm0); [|done].
    destruct (get_entry c es0) as [child|] eqn:Hc; [|done].
    assert (is_dir child = true) as Hd.
    { destruct child; [|done]. destruct p; cbn in Hp; done. }
    rewrite (IH child Hd Hp). by rewrite (set_entry_same _ _ _ Hc).
Qed.

(** After [writefile] the path holds a file with exactly the data
    written, whatever was there before. *)
Lemma writefile_find now data p t t' :
  writefile now data p t = inr t' →
  ∃ perm, find p t' = inr (File now perm data).
Proof.
  revert t t'. induction p as [|c p IH]; intros t t' Hw.
  - destruct t as [m perm d|]; cbn in Hw; [|done].
    destruct (pw perm); [|done]. injection Hw as <-. eauto.
  - destruct t as [|m perm es]; cbn in Hw; [done|].
    destruct (px perm) eqn:Hx; [|done].
    destruct (get_entry c es) as [child|] eqn:Hc.
    + destruct (writefile now data p child) as [e|child'] eqn:Hchild; [done|].
      injection Hw as <-. cbn. rewrite Hx, (get_entry_set_entry_eq _ _ _ _ Hc).
      by eapply IH.
    + destruct p; [|done]. destruct (pw perm); [|done].
      injection Hw as <-. cbn. rewrite Hx, (get_entry_add_entry_eq _ _ _ Hc). eauto.
Qed.

Section OSFacts.
Context `{Platform}.

Lemma MkdirAll_keeps_files path w w' e :
  MkdirAll path w = (e, w') →
  ∀ q m perm data,
    find q (fs w) = inr (File m perm data) → find q (fs w') = inr (File m perm data).
Proof.
  unfold MkdirAll. destruct (mkdirall _ _ _) as [err|t] eqn:Hmk.
  - by intros [= _ <-].
  - intros [= _ <-]. cbn. by eapply mkdirall_keeps_files.
Qed.

Lemma MkdirAll_existing path w m perm es :
  find (resolve path) (fs w) = inr (Dir m perm es) →
  MkdirAll path w = (None, w).
Proof.
  intros Hd. unfold MkdirAll.
  assert (is_dir (fs w) = true) as Hroot.
  { destruct (fs w); [|done]. destruct (resolve path); cbn in Hd; done. }
  rewrite (mkdirall_existing _ _ _ _ _ _ Hroot Hd). unfold with_fs. by destruct w.
Qed.

Lemma WriteFile_replaces path data w w' :
  WriteFile path data w = (None, w') →
  ∃ perm, find (resolve path) (fs w') = inr (File (clock w) perm data).
Proof.
  unfold WriteFile. destruct (writefile _ _ _ _) as [e|t] eqn:Hw; [done|].
  intros [= <-]. cbn. by eapply writefile_find.
Qed.
End OSFacts.

(** ** Staleness engine *)

(** *** The order of names and of paths *)

Lemma ltb_lt a b : String.ltb a b = true ↔ String_as_OT.lt a b.
Proof.
  rewrite <- String_as_OT.cmp_lt. unfold String.ltb, String_as_OT.cmp.
  destruct (String.compare a b); split; done.
Qed.

Lemma ltb_irrefl a : String.ltb a a = false.
Proof.
  destruct (String.ltb a a) eqn:Hlt; [|done].
  apply ltb_lt in Hlt. by apply String_as_OT.lt_not_eq in Hlt.
Qed.

Lemma ltb_trans a b c :
  String.ltb a b = true → String.ltb b c = true → String.ltb a c = true.
Proof. rewrite !ltb_lt. apply String_as_OT.lt_trans. Qed.

#[global] Instance ltb_transitive : Transitive (fun a b => String.ltb a b = true).
Proof. intros a b c. apply ltb_trans. Qed.

Lemma path_lt_irrefl p : ¬ path_lt p p.
Proof.
  induction p as [|c p IH]; inversion 1; subst; [|done].
  by rewrite ltb_irrefl in *.
Qed.

Lemma path_lt_trans p q r : path_lt p q → path_lt q r → path_lt p r.
Proof.
  intros Hpq. revert r. induction Hpq as [c q|c d p q Hcd|c p q Hpq IH]; intros r Hqr.
  - inversion Hqr; subst; constructor.
  - inversion Hqr; subst.
    + apply path_lt_head. by eapply ltb_trans.
    + by apply path_lt_head.
  - inversion Hqr; subst.
    + by apply path_lt_head.
    + apply path_lt_tail. auto.
Qed.

#[global] Instance entry_lt_transitive : Transitive entry_lt.
Proof. intros a b c. apply path_lt_trans. Qed.

#[global] Instance entry_lt_antisym : AntiSymm (=) entry_lt.
Proof.
  intros a b Hab Hba. destruct (path_lt_irrefl (fst a)). by eapply path_lt_trans.
Qed.

Lemma StronglySorted_NoDup {A} (R : relation A) (l : list A) :
  (∀ x, ¬ R x x) → StronglySorted R l → NoDup l.
Proof.
  intros Hirr. induction 1 as [|x l Hs IH Hall]; constructor; [|done].
  intros Hin. rewrite Forall_forall in Hall. by apply (Hirr x), Hall.
Qed.

(** *** The entries observed are met in path order *)

Lemma observed_Dir name m perm es :
  observed name (Dir m perm es)
  = if skipped name then [] else ([], m) :: observed_each es.
Proof.
  cbn. destruct (skipped name); [done|]. f_equal.
  induction es as [|[cn c] es IH]; cbn; [done|]. by rewrite IH.
Qed.

Lemma ordered_Dir m perm es :
  ordered (Dir m perm es) ↔
  ascending_names (map fst es) ∧ Forall (fun e => ordered (snd e)) es.
Proof.
  cbn. apply and_iff_compat_l.
  induction es as [|[cn c] es IH]; cbn.
  - split; [constructor|done].
  - rewrite Forall_cons, IH. done.
Qed.

Lemma observed_each_head es x :
  x ∈ observed_each es → ∃ cn p m, x = (cn :: p, m) ∧ cn ∈ map fst es.
Proof.
  unfold observed_each. intros Hx.
  apply list_elem_of_In, in_flat_map in Hx as ([cn c] & Hin & Hx). cbn in Hx.
  apply list_elem_of_In, list_elem_of_fmap in Hx as ([p m] & -> & _).
  exists cn, p, m. split; [done|].
  apply list_elem_of_fmap. exists (cn, c). split; [done|]. by apply list_elem_of_In.
Qed.

Lemma observed_sorted name t :
  ordered t → StronglySorted entry_lt (observed name t).
Proof.
  revert name. induction t as [m perm data|m perm es IH] using node_induction;
    intros name Hord.
  - cbn. repeat constructor.
  - rewrite observed_Dir. destruct (skipped name); [constructor|].
    apply ordered_Dir in Hord as [Hnames Hsub].
    apply Sorted_StronglySorted in Hnames; [|apply _].
    constructor.
    2:{ apply Forall_forall. intros x Hx.
        apply observed_each_head in Hx as (cn & p & m' & -> & _). constructor. }
    induction es as [|[cn c] es IHes]; [constructor|].
    apply Forall_cons in IH as [IHc IH]. apply Forall_cons in Hsub as [Hc Hsub].
    cbn in Hnames. apply StronglySorted_inv in Hnames as [Hnames Hcn].
    change (observed_each ((cn, c) :: es))
      with (map (under cn) (observed cn c) ++ observed_each es).
    apply StronglySorted_app_2.
    + intros x1 x2 Hx1 Hx2.
      apply list_elem_of_fmap in Hx1 as ([p1 m1] & -> & _).
      apply observed_each_head in Hx2 as (cn2 & p2 & m2 & -> & Hcn2).
      apply path_lt_head. rewrite Forall_forall in Hcn. by apply Hcn.
    + apply (StronglySorted_fmap _ entry_lt entry_lt); [|by apply IHc].
      intros [p1 m1] [p2 m2] Hlt. by apply path_lt_tail.
    + by apply IHes.
Qed.

(** Trees that list their entries in order and show the same entries show
    them in the same sequence. *)
Lemma observed_unique name t1 t2 :
  ordered t1 → ordered t2 →
  (∀ e, e ∈ observed name t1 ↔ e ∈ observed name t2) →
  observed name t1 = observed name t2.
Proof.
  intros H1 H2 Hsame.
  apply (StronglySorted_unique entry_lt); try by apply observed_sorted.
  apply NoDup_Permutation; [| |done];
    (eapply StronglySorted_NoDup; [|by apply observed_sorted]);
    intros x; apply path_lt_irrefl.
Qed.

(** *** What the walk writes to the hash *)

Section FingerprintFacts.
Context `{Platform} `{Schema}.

Lemma walk_Dir {S : Type} path name m perm es (walkFn : WalkFunc S) s :
  walk path name (Dir m perm es) walkFn s =
  let err := if pr perm then None else Some (PathError "open" path EACCES) in
  let '(err1, s1) := walkFn path (Visit (info_of name (Dir m perm es)) err) s in
  if bool_decide (err ≠ None ∨ err1 ≠ None) then (err1, s1)
  else walk_names perm path walkFn es s1.
Proof.
  cbn. destruct (walkFn path _ s) as [err1 s1].
  destruct (bool_decide _); [done|].
  revert s1. induction es as [|[cn c] es IH]; intros s1; cbn; [done|].
  destruct (px perm).
  - destruct (walk _ cn c walkFn s1) as [[e|] s']; [|apply IH].
    destruct (bool_decide _); [done|apply IH].
  - destruct (walkFn _ _ s1) as [[e|] s']; [|apply IH].
    destruct (bool_decide _); [done|apply IH].
Qed.

Lemma render_all_app root l k :
  render_all root (l ++ k) = render_all root l +:+ render_all root k.
Proof.
  induction l as [|e l IH]; [done|].
  change (render root e +:+ render_all root (l ++ k)
          = (render root e +:+ render_all root l) +:+ render_all root k).
  by rewrite IH, append_assoc.
Qed.

Lemma render_all_under root cn l :
  render_all root (map (under cn) l) = render_all (Join [root; cn]) l.
Proof.
  induction l as [|e l IH]; [done|].
  change (render root (under cn e) +:+ render_all root (map (under cn) l)
          = render (Join [root; cn]) e +:+ render_all (Join [root; cn]) l).
  by rewrite IH.
Qed.

Lemma render_all_cons root e l :
  render_all root (e :: l) = render root e +:+ render_all root l.
Proof. done. Qed.

Lemma fingerprint_visit_file path name m perm data h :
  fingerprint_visit path (Visit (info_of name (File m perm data)) None) h
  = (None, h +:+ path +:+ ":" +:+ itoa m +:+ ":").
Proof. done. Qed.

Lemma fingerprint_visit_dir path name m perm es h :
  fingerprint_visit path (Visit (info_of name (Dir m perm es)) None) h
  = if skipped name then (Some SkipDir, h)
    else (None, h +:+ path +:+ ":" +:+ itoa m +:+ ":").
Proof. done. Qed.

Lemma walk_names_fingerprint perm path es h err h' :
  Forall (fun e => walk_writes (snd e)) es →
  walk_names perm path fingerprint_visit es h = (err, h') →
  match err with
  | None => h' = h +:+ render_all path (observed_each es)
  | Some e => e ≠ SkipDir
  end.
Proof.
  intros IH. revert h. induction es as [|[cn c] es IHes]; intros h.
  { intros [= <- <-]. by rewrite append_nil_r. }
  apply Forall_cons in IH as [IHc IH]. unfold walk_writes in IHc.
  change (observed_each ((cn, c) :: es))
    with (map (under cn) (observed cn c) ++ observed_each es).
  rewrite render_all_app, render_all_under, <- append_assoc.
  change (walk_names perm path fingerprint_visit ((cn, c) :: es) h)
    with (if px perm then
            let '(err, s') := walk (Join [path; cn]) cn c fingerprint_visit h in
            match err with
            | Some e =>
                if bool_decide (is_dir c = false ∨ e ≠ SkipDir)
                then (Some e, s')
                else walk_names perm path fingerprint_visit es s'
            | None => walk_names perm path fingerprint_visit es s'
            end
          else
            let '(err, s') :=
              fingerprint_visit (Join [path; cn])
                (VisitErr (PathError "lstat" (Join [path; cn]) EACCES)) h in
            match err with
            | Some e =>
                if bool_decide (e ≠ SkipDir) then (Some e, s')
                else walk_names perm path fingerprint_visit es s'
            | None => walk_names perm path fingerprint_visit es s'
            end).
  destruct (px perm).
  2:{ cbn. intros [= <- <-]. done. }
  destruct (walk (Join [path; cn]) cn c fingerprint_visit h) as [[e|] h1] eqn:Hw.
  - specialize (IHc _ _ _ _ _ Hw). cbn in IHc.
    case_bool_decide as Hd.
    + intros [= <- <-]. intros ->. destruct Hd as [Hd|Hd]; [|done].
      destruct c as [m0 perm0 data0|]; [|done].
      cbn in Hw. done.
    + assert (e = SkipDir) as -> by (destruct (decide (e = SkipDir)); tauto).
      destruct (IHc eq_refl) as [-> ->].
      change (render_all (Join [path; cn]) []) with "".
      rewrite append_nil_r. by apply IHes.
  - specialize (IHc _ _ _ _ _ Hw). cbn in IHc. subst h1. by apply IHes.
Qed.

(** A walk that ends without error has written the entries observed, in
    order; a walk that ends asking to skip has written nothing and there
    was nothing to observe. *)
Lemma walk_fingerprint t : walk_writes t.
Proof.
  induction t as [m perm data|m perm es IH] using node_induction;
    intros path name h err h'.
  - change (walk path name (File m perm data) fingerprint_visit h)
      with (fingerprint_visit path (Visit (info_of name (File m perm data)) None) h).
    rewrite fingerprint_visit_file. intros [= <- <-].
    change (observed name (File m perm data)) with [([] : list string, m)].
    rewrite render_all_cons.
    change (render_all path []) with "". rewrite append_nil_r. done.
  - rewrite walk_Dir, observed_Dir.
    destruct (pr perm); cbv zeta.
    2:{ cbn. intros [= <- <-]. done. }
    rewrite fingerprint_visit_dir.
    destruct (skipped name).
    { rewrite bool_decide_true by (right; done). intros [= <- <-]. done. }
    rewrite bool_decide_false by (intros [?|?]; done).
    intros Hw. apply walk_names_fingerprint in Hw; [|done].
    destruct err as [e|].
    + intros ->. done.
    + rewrite Hw, render_all_cons, append_assoc. done.
Qed.

(** What [fingerprint] hashes when the walk meets no error: the entries
    observed from the root, each as its path from the root and its time. *)
Lemma fingerprint_input_observed w f t h :
  find (resolve (Root f)) (fs w) = inr t →
  fingerprint_input w f = (None, h) →
  h = render_all (Root f) (observed (basename (Root f)) t).
Proof.
  intros Ht. unfold fingerprint_input, Walk. rewrite Ht.
  destruct (walk _ _ t fingerprint_visit "") as [err h1] eqn:Hw.
  apply (walk_fingerprint t) in Hw.
  case_bool_decide as Hd.
  - subst err. intros [= <-]. by destruct (Hw eq_refl) as [-> ->].
  - intros [= -> <-]. done.
Qed.

Lemma hex_digit_lower n : lower_hex (hex_digit n) = true.
Proof.
  destruct n as [|p]; [done|].
  do 4 (destruct p as [p|p|]; try done).
Qed.

Lemma hex_lower bytes : string_forall lower_hex (hex bytes) = true.
Proof.
  induction bytes as [|b bytes IH]; [done|].
  cbn. by rewrite !hex_digit_lower, IH.
Qed.

Lemma hex_length bytes : String.length (hex bytes) = (2 * String.length bytes)%nat.
Proof. induction bytes as [|b bytes IH]; cbn; [done|]. rewrite IH. lia. Qed.

Lemma fingerprint_observed w f t :
  find (resolve (Root f)) (fs w) = inr t →
  snd (fingerprint w f) = None →
  fingerprint w f
  = (hex (Sum256 (render_all (Root f) (observed (basename (Root f)) t))), None).
Proof.
  intros Ht. unfold fingerprint.
  destruct (fingerprint_input w f) as [err h] eqn:Hin. cbn. intros ->.
  by rewrite (fingerprint_input_observed _ _ _ _ Ht Hin).
Qed.

(** C2.  [fingerprint] is a lowercase hexadecimal string.  When the walk
    of the root meets no error it is the digest of the (path,
    modification time) pairs of the entries observed below the root,
    each path written as the root joined with the relative path, in the
    order of the walk; what lies in a directory called [.func] or [.git]
    is not observed, nor is that directory itself.  It depends on the
    tree through the set of these pairs only: at one root, two trees
    whose directories list their entries in name order and that show the
    same set of pairs have the same fingerprint. *)
Theorem fingerprint_of_observed_entries (w1 w2 : World) (f : Function)
    (t1 t2 : node) :
  find (resolve (Root f)) (fs w1) = inr t1 →
  find (resolve (Root f)) (fs w2) = inr t2 →
  ordered t1 → ordered t2 →
  snd (fingerprint w1 f) = None →
  snd (fingerprint w2 f) = None →
  (∀ e, e ∈ observed (basename (Root f)) t1 ↔ e ∈ observed (basename (Root f)) t2) →
  fingerprint w1 f = fingerprint w2 f ∧
  fst (fingerprint w1 f)
    = hex (Sum256 (render_all (Root f) (observed (basename (Root f)) t1))) ∧
  (∀ w g, string_forall lower_hex (fst (fingerprint w g)) = true).
Proof.
  intros Ht1 Ht2 Ho1 Ho2 He1 He2 Hsame.
  rewrite (fingerprint_observed _ _ _ Ht1 He1), (fingerprint_observed _ _ _ Ht2 He2).
  rewrite (observed_unique _ _ _ Ho1 Ho2 Hsame).
  split_and!; try done.
  intros w g. unfold fingerprint. destruct (fingerprint_input w g). apply hex_lower.
Qed.
End FingerprintFacts.

(** *** Writing keeps the listings in order *)

Lemma ltb_total a b : a ≠ b → String.ltb a b = false → String.ltb b a = true.
Proof.
  unfold String.ltb. rewrite (String.compare_antisym b a).
  destruct (String.compare a b) eqn:Hc; cbn; try done.
  intros Hne _. by apply String.compare_eq_iff in Hc.
Qed.

Lemma get_entry_None c es : get_entry c es = None → c ∉ map fst es.
Proof.
  induction es as [|[n x] es IH]; cbn; [intros _ Hin; by apply elem_of_nil in Hin|].
  destruct (String.eqb_spec n c) as [->|Hne]; [done|].
  intros Hes Hin. apply elem_of_cons in Hin as [->|Hin]; [done|]. by apply IH.
Qed.

Lemma set_entry_names c x es : map fst (set_entry c x es) = map fst es.
Proof.
  induction es as [|[n y] es IH]; cbn; [done|].
  destruct (String.eqb n c); cbn; [done|]. by rewrite IH.
Qed.

Lemma add_entry_elem_of c x es e :
  e ∈ add_entry c x es ↔ e = (c, x) ∨ e ∈ es.
Proof.
  induction es as [|[n y] es IH]; cbn.
  - rewrite list_elem_of_singleton, elem_of_nil. tauto.
  - destruct (String.ltb c n); [by rewrite !elem_of_cons|].
    rewrite !elem_of_cons, IH. tauto.
Qed.

Lemma add_entry_ascending c x es :
  c ∉ map fst es → ascending_names (map fst es) →
  ascending_names (map fst (add_entry c x es)).
Proof.
  unfold ascending_names. intros Hc Hs.
  apply StronglySorted_Sorted.
  apply Sorted_StronglySorted in Hs; [|apply _].
  induction es as [|[n y] es IH]; cbn.
  - repeat constructor.
  - cbn in Hs. apply StronglySorted_inv in Hs as [Hs Hall].
    apply not_elem_of_cons in Hc as [Hne Hc].
    destruct (String.ltb c n) eqn:Hlt; cbn.
    + constructor; [by constructor|]. constructor; [done|].
      eapply Forall_impl; [exact Hall|]. intros b Hb. by eapply ltb_trans.
    + constructor; [by apply IH|].
      apply Forall_forall. intros b Hb.
      apply list_elem_of_fmap in Hb as ([b' y'] & -> & Hb).
      apply add_entry_elem_of in Hb as [[= -> ->]|Hb].
      * by apply ltb_total.
      * rewrite Forall_forall in Hall. apply Hall.
        apply list_elem_of_fmap. by exists (b', y').
Qed.

Lemma set_entry_Forall (P : string * node → Prop) c x es :
  P (c, x) → Forall P es → Forall P (set_entry c x es).
Proof.
  intros Hx. induction 1 as [|[n y] es Hy Hes IH]; cbn; [constructor|].
  destruct (String.eqb_spec n c) as [->|_]; constructor; auto.
Qed.

Lemma add_entry_Forall (P : string * node → Prop) c x es :
  P (c, x) → Forall P es → Forall P (add_entry c x es).
Proof.
  intros Hx Hes. apply Forall_forall. intros e He.
  apply add_entry_elem_of in He as [->|He]; [done|].
  rewrite Forall_forall in Hes. auto.
Qed.

Lemma mkdirall_ordered now p t t' :
  ordered t → mkdirall now p t = inr t' → ordered t'.
Proof.
  revert t t'. induction p as [|c p IH]; intros t t' Ht Hmk.
  - destruct t; cbn in Hmk; [done|]. by injection Hmk as <-.
  - destruct t as [|m perm es]; cbn in Hmk; [done|].
    apply ordered_Dir in Ht as [Hnames Hsub].
    destruct (px perm); [|done].
    destruct (get_entry c es) as [child|] eqn:Hc.
    + destruct (mkdirall now p child) as [e|child'] eqn:Hchild; [done|].
      injection Hmk as <-. apply ordered_Dir. rewrite set_entry_names.
      split; [done|]. apply (set_entry_Forall (fun e => ordered (snd e))); [|done].
      apply (IH child); [|done].
      clear -Hc Hsub. induction es as [|[n y] es IHes]; [done|].
      apply Forall_cons in Hsub as [Hy Hsub]. cbn in Hc.
      destruct (String.eqb n c); [by injection Hc as <-|auto].
    + destruct (pw perm); [|done].
      destruct (mkdirall now p (Dir now ModePerm [])) as [e|child'] eqn:Hchild; [done|].
      injection Hmk as <-. apply ordered_Dir. split.
      * apply add_entry_ascending; [by apply get_entry_None|done].
      * apply (add_entry_Forall (fun e => ordered (snd e))); [|done].
        apply (IH (Dir now ModePerm [])); [|done]. cbn. split; [constructor|done].
Qed.

Lemma writefile_ordered now data p t t' :
  ordered t → writefile now data p t = inr t' → ordered t'.
Proof.
  revert t t'. induction p as [|c p IH]; intros t t' Ht Hw.
  - destruct t as [m perm d|]; cbn in Hw; [|done].
    destruct (pw perm); [|done]. by injection Hw as <-.
  - destruct t as [|m perm es]; cbn in Hw; [done|].
    apply ordered_Dir in Ht as [Hnames Hsub].
    destruct (px perm); [|done].
    destruct (get_entry c es) as [child|] eqn:Hc.
    + destruct (writefile now data p child) as [e|child'] eqn:Hchild; [done|].
      injection Hw as <-. apply ordered_Dir. rewrite set_entry_names.
      split; [done|]. apply (set_entry_Forall (fun e => ordered (snd e))); [|done].
      apply (IH child); [|done].
      clear -Hc Hsub. induction es as [|[n y] es IHes]; [done|].
      apply Forall_cons in Hsub as [Hy Hsub]. cbn in Hc.
      destruct (String.eqb n c); [by injection Hc as <-|auto].
    + destruct p; [|done]. destruct (pw perm); [|done].
      injection Hw as <-. apply ordered_Dir. split.
      * apply add_entry_ascending; [by apply get_entry_None|done].
      * by apply (add_entry_Forall (fun e => ordered (snd e))).
Qed.

(** A tree reached in an ordered tree is ordered. *)
Lemma find_ordered p t t' : ordered t → find p t = inr t' → ordered t'.
Proof.
  revert t. induction p as [|c p IH]; intros t Ht Hf.
  - cbn in Hf. by injection Hf as <-.
  - destruct t as [|m perm es]; cbn in Hf; [done|].
    apply ordered_Dir in Ht as [_ Hsub].
    destruct (px perm); [|done].
    destruct (get_entry c es) as [child|] eqn:Hc; [|done].
    apply (IH child); [|done].
    clear -Hc Hsub. induction es as [|[n y] es IHes]; [done|].
    apply Forall_cons in Hsub as [Hy Hsub]. cbn in Hc.
    destruct (String.eqb n c); [by injection Hc as <-|auto].
Qed.

(** ** Lifecycle operations *)

(** Membership in a list written out. *)
Ltac list_mem :=
  repeat (rewrite elem_of_app || rewrite elem_of_cons || rewrite elem_of_nil);
  first [ tauto | intuition discriminate ].

Ltac run_step :=
  unfold sys_MkdirAll, sys_WriteFile; unfold bind, ret, look, emit, call; cbn.

Section ClientFacts.
Context `{Platform} `{Schema} `{!FunctionPkg}.

(** C1.  [Built] answers true exactly when the descriptor loads, has an
    image, the build stamp can be found and read, the walk that
    fingerprints the project tree meets no error, and the stamp is the
    fingerprint just computed; in every other case, every error
    included, it answers false.  It always answers, and it leaves the
    world as it found it. *)
Theorem Built_decides (c : Client) (path : string) (s : State) :
  let stamp := Join [path; RunDataDir; buildstamp] in
  (fst (Client_Built c path s) = true ↔
     ∃ f content,
       NewFunction (world s) path = (f, None) ∧
       HasImage f = true ∧
       (∃ info, Stat (world s) stamp = ok info) ∧
       ReadFile (world s) stamp = ok content ∧
       fingerprint (world s) f = (content, None)) ∧
  (fst (Client_Built c path s) = false ↔
     ∃ f err,
       NewFunction (world s) path = (f, err) ∧
       (err ≠ None ∨ HasImage f = false ∨
        (∃ e, Stat (world s) stamp = fail e) ∨
        (∃ e, ReadFile (world s) stamp = fail e) ∨
        (∃ h e, fingerprint (world s) f = (h, Some e)) ∨
        (∃ h content, fingerprint (world s) f = (h, None) ∧
           ReadFile (world s) stamp = ok content ∧ content ≠ h))) ∧
  world (snd (Client_Built c path s)) = world s.
Proof.
  cbn zeta. unfold Client_Built. run_step.
  destruct (NewFunction (world s) path) as [f [e|]] eqn:HN; cbn.
  { split_and!; [| |done].
    - split; [done|]. intros (?&?&?&_). congruence.
    - split; [|done]. intros _. exists f, (Some e). split; [congruence|]. by left. }
  destruct (HasImage f) eqn:HI; cbn.
  2:{ split_and!; [| |done].
      - split; [done|]. intros (f'&?&[= <-]&?&_). congruence.
      - split; [|done]. intros _. exists f, None. split; [congruence|]. auto. }
  destruct (Stat (world s) _) as [info|e] eqn:HS; cbn.
  2:{ split_and!; [| |done].
      - split; [done|]. intros (?&?&_&_&[? ?]&_). congruence.
      - split; [|done]. intros _. exists f, None. split; [congruence|].
        right; right; left. eauto. }
  destruct (fingerprint (world s) f) as [h [e|]] eqn:HF; cbn.
  { split_and!; [| |done].
    - split; [done|]. intros (f'&?&[= <-]&_&_&_&?). congruence.
    - split; [|done]. intros _. exists f, None. split; [congruence|].
      do 4 right. left. eauto. }
  destruct (ReadFile (world s) _) as [b|e] eqn:HR; cbn.
  2:{ split_and!; [| |done].
      - split; [done|]. intros (?&?&_&_&_&?&_). congruence.
      - split; [|done]. intros _. exists f, None. split; [congruence|].
        do 3 right. left. eauto. }
  destruct (String.eqb_spec b h) as [->|Hne]; cbn.
  - split_and!; [| |done].
    + split; [|done]. intros _. exists f, h. eauto 10.
    + split; [done|]. intros (f'&err&[= <- <-]&Hc).
      destruct Hc as [?|[?|[[? ?]|[[? ?]|[(?&?&?)|(?&?&?&?&?)]]]]]; congruence.
  - split_and!; [| |done].
    + split; [done|]. intros (f'&?&[= <-]&_&_&?&?). congruence.
    + split; [|done]. intros _. exists f, None. split; [congruence|].
      do 5 right. eauto.
Qed.

(** C5.  On a descriptor that loads and has no image, [Push] and
    [Deploy] both return [ErrNotBuilt], the one value of the package
    made for it, before any collaborator is called and leaving the
    world and the record as they were.  The value is told apart from
    any error made elsewhere, whatever its message; and when the
    loader, the collaborators and the writer of the descriptor do not
    return it themselves, [Push] and [Deploy] return it in this case
    only. *)
Theorem not_built_sentinel (c : Client) (path : string) (s : State) (f : Function) :
  NewFunction (world s) path = (f, None) →
  HasImage f = false →
  Client_Push c path s = (Some ErrNotBuilt, s) ∧
  Client_Deploy c path s = (Some ErrNotBuilt, s) ∧
  (∀ msg, Errorf msg ≠ ErrNotBuilt) ∧
  (∀ op p errno, PathError op p errno ≠ ErrNotBuilt) ∧
  (sentinel_reserved c →
   ∀ path' s',
     fst (Client_Push c path' s') = Some ErrNotBuilt ∨
     fst (Client_Deploy c path' s') = Some ErrNotBuilt →
     ∃ f', NewFunction (world s') path' = (f', None) ∧ HasImage f' = false).
Proof.
  intros HN HI. split_and!; try done.
  - unfold Client_Push. run_step. rewrite HN. cbn. rewrite HI. by destruct s.
  - unfold Client_Deploy. run_step. rewrite HN. cbn. rewrite HI. by destruct s.
  - intros (HrN & HrP & HrD & HrW) path' s'.
    unfold Client_Push, Client_Deploy. run_step.
    specialize (HrN (world s') path').
    destruct (NewFunction (world s') path') as [f' [e|]] eqn:HN'; cbn in *.
    { intros [?|?]; congruence. }
    destruct (HasImage f') eqn:HI'; cbn; [|eauto].
    specialize (HrP f' (world s')). specialize (HrD f' (world s')).
    destruct (Pusher_Push _ _ _) as [[d [e|]] w1]; cbn in *.
    + destruct (Deployer_Deploy _ _ _) as [[[[] u] e'] w2]; cbn in *;
        intros [?|?]; congruence.
    + pose proof (HrW (set_ImageDigest f' d) w1) as HrW'.
      destruct (Function_Write _ _) as [e' w3]; cbn in *.
      destruct (Deployer_Deploy _ _ _) as [[[[] u] e''] w2]; cbn in *;
        intros [?|?]; congruence.
Qed.

(** C9.  When the pusher returns an error, [Push] returns that error;
    the run consists of the call to the pusher alone, and the world is
    the one the pusher left: the descriptor is not written.  In any run
    of [Push] the descriptor is written only after the pusher returned
    without error, and what is written is the loaded descriptor with the
    digest the pusher returned. *)
Theorem Push_fails_without_writing (c : Client) (path : string) (s : State)
    (f : Function) (digest : string) (e : error) (w' : World) :
  NewFunction (world s) path = (f, None) →
  HasImage f = true →
  Pusher_Push (pusher c) f (world s) = ((digest, Some e), w') →
  Client_Push c path s
    = (Some e, {| world := w'; trace := trace s ++ [CallPush f] |}) ∧
  (∀ path0 s0, ∃ evs,
     trace (snd (Client_Push c path0 s0)) = trace s0 ++ evs ∧
     ∀ g, CallWrite g ∈ evs →
       ∃ f0 d w0, NewFunction (world s0) path0 = (f0, None) ∧
                  Pusher_Push (pusher c) f0 (world s0) = ((d, None), w0) ∧
                  g = set_ImageDigest f0 d).
Proof.
  intros HN HI HP. split.
  - unfold Client_Push. run_step. rewrite HN. cbn. rewrite HI. cbn. by rewrite HP.
  - intros path0 s0. unfold Client_Push. run_step.
    destruct (NewFunction (world s0) path0) as [f0 [e0|]] eqn:HN0; cbn.
    { exists []. rewrite app_nil_r. split; [done|]. intros g Hg. by apply elem_of_nil in Hg. }
    destruct (HasImage f0); cbn.
    2:{ exists []. rewrite app_nil_r. split; [done|]. intros g Hg. by apply elem_of_nil in Hg. }
    destruct (Pusher_Push (pusher c) f0 (world s0)) as [[d [e0|]] w0] eqn:HP0; cbn.
    + exists [CallPush f0]. split; [done|]. intros g Hg.
      apply list_elem_of_singleton in Hg. done.
    + destruct (Function_Write _ _) as [r w1]; cbn.
      exists [CallPush f0; CallWrite (set_ImageDigest f0 d)].
      rewrite <- app_assoc. split; [done|]. intros g Hg.
      apply elem_of_cons in Hg as [?|Hg]; [done|].
      apply list_elem_of_singleton in Hg. injection Hg as ->.
      exists f0, d, w0. done.
Qed.

Lemma contains_left a b : contains (a +:+ b) a.
Proof. exists "", b. done. Qed.

Lemma contains_right a b c : contains (a +:+ b +:+ c) c.
Proof.
  exists (a +:+ b), "". by rewrite append_nil_r, append_assoc.
Qed.

Ltac remove_finish :=
  cbn; split_and!; try done; try list_mem;
  try (intros ? ? [= <-] [= <-]; eexists; split; [done|];
       split; [apply contains_left|apply contains_right]);
  try (split; [done|intros [? ?]; done]).

(** C6.  Once the target of [Remove] is settled, the service removal is
    always called, and the pipeline removal is called as well exactly
    when [deleteAll] is set; whichever of the two acts first, [Remove]
    reports: when both fail, one new error whose message is the
    message of the service error, a line break and the message of the
    pipeline error; when one fails, that very error; and no error only
    when every removal that was called returned none. *)
Theorem Remove_reports_failures (serviceFirst : bool) (c : Client)
    (cfg target : Function) (name : string) (deleteAll : bool) (s : State) :
  (Name cfg ≠ "" ∧ name = Name cfg ∧ target = cfg) ∨
  (Name cfg = "" ∧ NewFunction (world s) (Root cfg) = (target, None) ∧
   Initialized target = true ∧ name = Name target) →
  ∃ w1 w2 errService errResources,
    errService = fst (Remover_Remove (remover c) name w1) ∧
    errResources =
      (if deleteAll then fst (Pipelines_Remove (pipelinesProvider c) target w2)
       else None) ∧
    (CallRemove name ∈ trace (snd (Client_Remove serviceFirst c cfg deleteAll s))) ∧
    (deleteAll = true →
     CallPipelinesRemove target
       ∈ trace (snd (Client_Remove serviceFirst c cfg deleteAll s))) ∧
    fst (Client_Remove serviceFirst c cfg deleteAll s)
      = aggregate errService errResources ∧
    (∀ a b, errService = Some a → errResources = Some b →
       ∃ msg, fst (Client_Remove serviceFirst c cfg deleteAll s) = Some (Errorf msg) ∧
              contains msg (Error a) ∧ contains msg (Error b)) ∧
    (∀ a, errService = Some a → errResources = None →
       fst (Client_Remove serviceFirst c cfg deleteAll s) = Some a) ∧
    (∀ b, errService = None → errResources = Some b →
       fst (Client_Remove serviceFirst c cfg deleteAll s) = Some b) ∧
    (fst (Client_Remove serviceFirst c cfg deleteAll s) = None ↔
       errService = None ∧ errResources = None).
Proof.
  intros Htarget.
  unfold Client_Remove. run_step.
  destruct Htarget as [(Hne & -> & ->)|(He & HN & HI & ->)].
  - apply String.eqb_neq in Hne. rewrite Hne. cbn.
    destruct serviceFirst, deleteAll; cbn.
    + destruct (Remover_Remove (remover c) (Name cfg) (world s)) as [A w1] eqn:HA; cbn.
      destruct (Pipelines_Remove (pipelinesProvider c) cfg w1) as [B w2] eqn:HB; cbn.
      exists (world s), w1, A, B. rewrite HA, HB. destruct A, B; remove_finish.
    + destruct (Remover_Remove (remover c) (Name cfg) (world s)) as [A w1] eqn:HA; cbn.
      exists (world s), w1, A, None. rewrite HA. destruct A; remove_finish.
    + destruct (Pipelines_Remove (pipelinesProvider c) cfg (world s)) as [B w1] eqn:HB; cbn.
      destruct (Remover_Remove (remover c) (Name cfg) w1) as [A w2] eqn:HA; cbn.
      exists w1, (world s), A, B. rewrite HA, HB. destruct A, B; remove_finish.
    + destruct (Remover_Remove (remover c) (Name cfg) (world s)) as [A w1] eqn:HA; cbn.
      exists (world s), w1, A, None. rewrite HA. destruct A; remove_finish.
  - rewrite He. cbn. rewrite HN. cbn. rewrite HI. cbn.
    destruct serviceFirst, deleteAll; cbn.
    + destruct (Remover_Remove (remover c) (Name target) (world s)) as [A w1] eqn:HA; cbn.
      destruct (Pipelines_Remove (pipelinesProvider c) target w1) as [B w2] eqn:HB; cbn.
      exists (world s), w1, A, B. rewrite HA, HB. destruct A, B; remove_finish.
    + destruct (Remover_Remove (remover c) (Name target) (world s)) as [A w1] eqn:HA; cbn.
      exists (world s), w1, A, None. rewrite HA. destruct A; remove_finish.
    + destruct (Pipelines_Remove (pipelinesProvider c) target (world s)) as [B w1] eqn:HB; cbn.
      destruct (Remover_Remove (remover c) (Name target) w1) as [A w2] eqn:HA; cbn.
      exists w1, (world s), A, B. rewrite HA, HB. destruct A, B; remove_finish.
    + destruct (Remover_Remove (remover c) (Name target) (world s)) as [A w1] eqn:HA; cbn.
      exists (world s), w1, A, None. rewrite HA. destruct A; remove_finish.
Qed.

(** *** What each operation adds to the record *)

Lemma mark_of_built (image : string) :
  mark_of (Increment ("🙌 Function image built: " +:+ image)) = None ∧
  mark_of (Increment ("Function image built: " +:+ image)) = None.
Proof. done. Qed.

Lemma mark_of_deployed (url : string) :
  mark_of (Increment ("Function deployed at URL: " +:+ url)) = None ∧
  mark_of (Increment ("Function updated at URL: " +:+ url)) = None.
Proof. done. Qed.

Lemma outline_app (l k : list Event) : outline (l ++ k) = outline l ++ outline k.
Proof. apply omap_app. Qed.

Ltac destruct_match :=
  match goal with
  | |- context [match ?x with _ => _ end] =>
      lazymatch x with
      | context [match _ with _ => _ end] => fail
      | _ => destruct x eqn:?
      end
  end.

Ltac trace_eq :=
  first [ rewrite <- ?app_assoc; reflexivity
        | symmetry; apply app_nil_r ].

Lemma ensureRuntimeDir_outline f s :
  ∃ evs, trace (snd (ensureRuntimeDir f s)) = trace s ++ evs ∧ outline evs = [].
Proof.
  unfold ensureRuntimeDir. run_step.
  repeat (destruct_match; cbn); eexists; (split; [trace_eq|done]).
Qed.

Lemma updateBuildStamp_outline f s :
  ∃ evs, trace (snd (updateBuildStamp f s)) = trace s ++ evs ∧ outline evs = [].
Proof.
  unfold updateBuildStamp. unfold bind at 1.
  destruct (ensureRuntimeDir_outline f s) as (evs & Ht & Ho).
  destruct (ensureRuntimeDir f s) as [r s1]. cbn in Ht.
  destruct r; run_step.
  - exists evs. done.
  - repeat (destruct_match; cbn); rewrite Ht; eexists;
      (split; [trace_eq|rewrite ?outline_app, ?Ho; done]).
Qed.

Lemma Create_outline c cfg s :
  ∃ evs, trace (snd (Client_Create c cfg s)) = trace s ++ evs ∧ outline evs = [].
Proof.
  unfold Client_Create.
  destruct (Abs (Root cfg)) as [root|e]; [|exists []; by rewrite app_nil_r].
  unfold bind at 1. unfold sys_MkdirAll, call. cbn.
  destruct (MkdirAll root (world s)) as [[e|] w1]; cbn.
  { exists [SysMkdirAll root]. done. }
  run_step.
  destruct (hasInitializedFunction w1 root) as [hasFunc [e|]]; cbn.
  { exists [SysMkdirAll root]. done. }
  destruct hasFunc; cbn.
  { exists [SysMkdirAll root]. done. }
  destruct (if String.eqb root "" then _ else _) as [cfg'|e]; cbn.
  2:{ exists [SysMkdirAll root]. done. }
  destruct (assertEmptyRoot w1 _) as [e|]; cbn.
  { exists [SysMkdirAll root]. done. }
  match goal with |- context [ensureRuntimeDir ?f ?s1] =>
    destruct (ensureRuntimeDir_outline f s1) as (evs & Ht & Ho);
    destruct (ensureRuntimeDir f s1) as [r s2] end.
  cbn in Ht. destruct r; cbn.
  { exists ([SysMkdirAll root] ++ evs). rewrite Ht, outline_app, Ho.
    split; [trace_eq|done]. }
  repeat (destruct_match; cbn); rewrite Ht; eexists;
    (split; [trace_eq|rewrite ?outline_app, ?Ho; done]).
Qed.

Lemma prefix_of_singleton {A} (l : list A) (x : A) :
  l `prefix_of` [x] → l = [] ∨ l = [x].
Proof.
  intros [k Hk]. destruct l as [|y l]; [by left|right].
  injection Hk as <- Hk. symmetry in Hk. apply app_eq_nil in Hk as [-> _]. done.
Qed.

Lemma Build_outline c path s :
  ∃ evs, trace (snd (Client_Build c path s)) = trace s ++ evs ∧
         outline evs `prefix_of` [MBuild] ∧
         (fst (Client_Build c path s) = None → outline evs = [MBuild]).
Proof.
  unfold Client_Build. run_step.
  destruct (NewFunction (world s) path) as [f [e|]]; cbn.
  { eexists. split; [trace_eq|]. cbn. split; [by eexists|done]. }
  destruct (DerivedImage (world s) path (registry c)) as [image [e|]]; cbn.
  { eexists. split; [trace_eq|]. cbn. split; [by eexists|done]. }
  destruct (Builder_Build (builder c) _ (world s)) as [[e|] w1]; cbn.
  { eexists. split; [trace_eq|]. cbn. split; [by eexists|done]. }
  destruct (Function_Write _ w1) as [[e|] w2]; cbn.
  { eexists. split; [trace_eq|]. cbn. split; [by eexists|done]. }
  match goal with |- context [updateBuildStamp ?f ?s1] =>
    destruct (updateBuildStamp_outline f s1) as (evs & Ht & Ho);
    destruct (updateBuildStamp f s1) as [r s2] end.
  cbn in Ht. destruct r; cbn; rewrite Ht.
  { eexists. split; [trace_eq|]. rewrite !outline_app, Ho. cbn.
    split; [by eexists|done]. }
  eexists. split; [trace_eq|]. rewrite !outline_app, Ho.
  destruct (String.eqb GOOS "windows"); cbn; (split; [by eexists|done]).
Qed.

Lemma Push_outline c path s :
  ∃ evs, trace (snd (Client_Push c path s)) = trace s ++ evs ∧
         outline evs `prefix_of` [MPush] ∧
         (fst (Client_Push c path s) = None → outline evs = [MPush]).
Proof.
  unfold Client_Push. run_step.
  repeat (destruct_match; cbn); eexists; (split; [trace_eq|]); cbn;
    (split; [by eexists|done]).
Qed.

Lemma Deploy_outline c path s :
  ∃ evs, trace (snd (Client_Deploy c path s)) = trace s ++ evs ∧
         outline evs `prefix_of` [MDeploy] ∧
         (fst (Client_Deploy c path s) = None → outline evs = [MDeploy]).
Proof.
  unfold Client_Deploy. run_step.
  repeat (destruct_match; cbn); eexists; (split; [trace_eq|]); cbn;
    (split; [by eexists|done]).
Qed.

Lemma Route_outline c path s :
  ∃ evs, trace (snd (Client_Route c path s)) = trace s ++ evs ∧
         outline evs `prefix_of` [MProvide] ∧
         (fst (Client_Route c path s) = None → outline evs = [MProvide]).
Proof.
  unfold Client_Route. run_step.
  repeat (destruct_match; cbn); eexists; (split; [trace_eq|]); cbn;
    (split; [by eexists|done]).
Qed.

Lemma bounded_stage (m : M (option error)) (o : list Mark) :
  MComplete ∉ o →
  (∀ s, ∃ evs, trace (snd (m s)) = trace s ++ evs ∧
               outline evs `prefix_of` o ∧
               (fst (m s) = None → outline evs = o)) →
  bounded m o.
Proof.
  intros Ho Hm s. destruct (Hm s) as (evs & Ht & Hp & Hn).
  exists evs. split_and!; try done.
  intros _ Hin. apply Ho. destruct Hp as [k ->]. apply elem_of_app. by left.
Qed.

Lemma bounded_must m1 m2 o1 o2 :
  MComplete ∉ o1 →
  bounded m1 o1 → bounded m2 o2 →
  bounded (must m1 in m2) (o1 ++ o2).
Proof.
  intros Hc H1' H2' s. unfold bind.
  destruct (H1' s) as (evs1 & Ht1 & Hp1 & Hn1 & Hc1).
  destruct (m1 s) as [[e|] s1]; cbn in *.
  - exists evs1. split_and!; try done. by apply prefix_app_r.
  - destruct (H2' s1) as (evs2 & Ht2 & Hp2 & Hn2 & Hc2).
    exists (evs1 ++ evs2). rewrite Ht2, Ht1, app_assoc, outline_app.
    rewrite (Hn1 eq_refl). split_and!; try done.
    + by apply prefix_app.
    + intros Hr. by rewrite (Hn2 Hr).
    + intros Hr Hin. apply elem_of_app in Hin as [?|?]; [done|]. by apply Hc2.
Qed.

Lemma bounded_emit ev m o :
  mark_of ev ≠ Some MComplete →
  bounded m o → bounded (let* _ := emit ev in m) (outline [ev] ++ o).
Proof.
  intros Hev Hm s. unfold bind, emit.
  destruct (Hm {| world := world s; trace := trace s ++ [ev] |})
    as (evs & Ht & Hp & Hn & Hc).
  cbn in Ht. exists ([ev] ++ evs). rewrite Ht, app_assoc, outline_app.
  split_and!; try done.
  - by apply prefix_app.
  - intros Hr. by rewrite (Hn Hr).
  - intros Hr Hin. apply elem_of_app in Hin as [Hin|?]; [|by apply Hc].
    cbn in Hin. destruct (mark_of ev) as [m0|] eqn:Hm0; cbn in Hin.
    + apply list_elem_of_singleton in Hin. congruence.
    + by apply elem_of_nil in Hin.
Qed.

Lemma bounded_load (q : World → Function * option error)
    (k : Function → M (option error)) o :
  (∀ f, bounded (k f) o) →
  bounded (let* (f, err) := look q in
           match err with Some e => ret (Some e) | None => k f end) o.
Proof.
  intros Hk s. unfold bind, look. cbn.
  destruct (q (world s)) as [f [e|]]; cbn; [|apply Hk].
  exists []. rewrite app_nil_r. split_and!; try done.
  - apply prefix_nil.
  - intros _ Hin. by apply elem_of_nil in Hin.
Qed.

Lemma bounded_completion (m : M unit) :
  (∀ s, ∃ evs, trace (snd (m s)) = trace s ++ evs ∧ outline evs = []) →
  bounded (let* _ := emit (Complete "Done") in let* _ := m in ret None) [MComplete].
Proof.
  intros Hm s. unfold bind, emit, ret. cbn.
  destruct (Hm {| world := world s; trace := trace s ++ [Complete "Done"] |})
    as (evs & Ht & Ho).
  destruct (m _) as [[] s1]. cbn in *.
  exists ([Complete "Done"] ++ evs). rewrite Ht, app_assoc, outline_app, Ho.
  split_and!; done.
Qed.

Lemma bounded_in_order c f :
  bounded (in_order (New_stages c f))
    [MBuilding; MBuild; MPushing; MPush; MDeploying; MDeploy; MRouting; MProvide].
Proof.
  unfold New_stages, in_order.
  apply (bounded_emit (Increment "Building container image") _
           [MBuild; MPushing; MPush; MDeploying; MDeploy; MRouting; MProvide]); [done|].
  apply (bounded_must _ _ [MBuild]);
    [list_mem|apply bounded_stage; [list_mem|intros s; apply Build_outline]|].
  apply (bounded_emit (Increment "Pushing container image to registry") _
           [MPush; MDeploying; MDeploy; MRouting; MProvide]); [done|].
  apply (bounded_must _ _ [MPush]);
    [list_mem|apply bounded_stage; [list_mem|intros s; apply Push_outline]|].
  apply (bounded_emit (Increment "Deploying Function to cluster") _
           [MDeploy; MRouting; MProvide]); [done|].
  apply (bounded_must _ _ [MDeploy]);
    [list_mem|apply bounded_stage; [list_mem|intros s; apply Deploy_outline]|].
  apply (bounded_emit (Increment "Creating route to Function") _ [MProvide]); [done|].
  apply (bounded_must _ _ [MProvide] []);
    [list_mem|apply bounded_stage; [list_mem|intros s; apply Route_outline]|].
  intros s. exists []. cbn. rewrite app_nil_r. split_and!; done.
Qed.

Lemma New_is_New_in_stages c cfg s : Client_New c cfg s = New_in_stages c cfg s.
Proof.
  unfold Client_New, New_in_stages, New_stages, in_order.
  generalize (Client_Create c cfg) (Client_Build c) (Client_Push c)
    (Client_Deploy c) (Client_Route c).
  intros create build push deploy route.
  unfold bind, ret, look, emit. cbn.
  repeat (destruct_match; cbn; try done).
Qed.

Lemma bounded_New_in_stages c cfg : bounded (New_in_stages c cfg) full_outline.
Proof.
  unfold New_in_stages.
  apply (bounded_emit (SetTotal 3) _ full_outline); [done|].
  apply (bounded_must _ _ [] full_outline).
  { list_mem. }
  { apply bounded_stage; [list_mem|]. intros s.
    destruct (Create_outline c cfg s) as (evs & Ht & Ho).
    exists evs. rewrite Ho. done. }
  apply bounded_load. intros f.
  apply (bounded_must _ _
           [MBuilding; MBuild; MPushing; MPush; MDeploying; MDeploy; MRouting; MProvide]
           [MComplete]).
  { list_mem. }
  { apply bounded_in_order. }
  apply bounded_completion. intros s.
  destruct (verbose c); cbn.
  - eexists. split; [done|done].
  - exists []. by rewrite app_nil_r.
Qed.

(** C7.  [New] is Create, the load of the descriptor, then Build, Push,
    Deploy and Route, each announced by a progress increment of [New]
    and run only if everything before it returned no error, then the
    completion signal; [New] returns the error of the first step that
    fails.  In the record of any run, the increments of [New] and the
    calls to the builder, pusher, deployer and DNS provider form a
    prefix of: increment, builder, increment, pusher, increment,
    deployer, increment, DNS provider, completion; and the run returns
    no error exactly when all of it is there. *)
Theorem New_runs_stages_in_order (c : Client) (cfg : Function) (s : State) :
  Client_New c cfg s = New_in_stages c cfg s ∧
  ∃ evs,
    trace (snd (Client_New c cfg s)) = trace s ++ evs ∧
    outline evs `prefix_of` full_outline ∧
    (fst (Client_New c cfg s) = None ↔ outline evs = full_outline).
Proof.
  split; [apply New_is_New_in_stages|].
  rewrite New_is_New_in_stages.
  destruct (bounded_New_in_stages c cfg s) as (evs & Ht & Hp & Hn & Hc).
  exists evs. split_and!; try done. split; [done|].
  intros Hfull. destruct (fst (New_in_stages c cfg s)) as [e|]; [|done].
  exfalso. apply Hc; [done|]. rewrite Hfull. unfold full_outline. list_mem.
Qed.

(** C8.  Where the root already holds an initialized Function, [Create]
    returns an error having done nothing but make sure the root
    directory exists: the templates and the descriptor are not written,
    no file is written, every file of the file system is where and as it
    was; and when the root is a directory already, as it is when a
    descriptor lives in it, the world is unchanged and the error says
    the Function is already initialized. *)
Theorem Create_refuses_initialized (c : Client) (cfg : Function) (s : State)
    (root : string) :
  Abs (Root cfg) = ok root →
  (∀ w1, MkdirAll root (world s) = (None, w1) →
         hasInitializedFunction w1 root = (true, None)) →
  ∃ e s',
    Client_Create c cfg s = (Some e, s') ∧
    trace s' = trace s ++ [SysMkdirAll root] ∧
    (∀ q m perm data,
       find q (fs (world s)) = inr (File m perm data) →
       find q (fs (world s')) = inr (File m perm data)) ∧
    (∀ m perm es,
       find (resolve root) (fs (world s)) = inr (Dir m perm es) →
       world s' = world s ∧
       e = Errorf ("Function at '" +:+ root +:+ "' already initialized")).
Proof.
  intros HA Hinit. unfold Client_Create. rewrite HA. run_step.
  destruct (MkdirAll root (world s)) as [[e|] w1] eqn:Hmk; cbn.
  - eexists _, _. split; [done|]. cbn. split_and!; try done.
    + intros q m perm data. by eapply MkdirAll_keeps_files.
    + intros m perm es Hd. rewrite (MkdirAll_existing _ _ _ _ _ Hd) in Hmk. done.
  - rewrite (Hinit w1 eq_refl). cbn.
    eexists _, _. split; [done|]. cbn. split_and!; try done.
    + intros q m perm data. by eapply MkdirAll_keeps_files.
    + intros m perm es Hd. rewrite (MkdirAll_existing _ _ _ _ _ Hd) in Hmk.
      by injection Hmk as <-.
Qed.

Lemma ensureRuntimeDir_writes f s s' :
  ensureRuntimeDir f s = (None, s') →
  trace s' = trace s ++ [SysMkdirAll (Join [Root f; RunDataDir]);
                         SysWriteFile (Join [Root f; ".gitignore"]) gitignore] ∧
  ∃ m perm,
    find (resolve (Join [Root f; ".gitignore"])) (fs (world s'))
      = inr (File m perm gitignore).
Proof.
  unfold ensureRuntimeDir. run_step.
  destruct (MkdirAll _ (world s)) as [[e|] w1]; cbn; [done|].
  destruct (WriteFile _ gitignore w1) as [[e|] w2] eqn:Hw; cbn; [done|].
  intros [= <-]. cbn. rewrite <- app_assoc. split; [done|].
  destruct (WriteFile_replaces _ _ _ _ Hw) as [perm Hf]. eauto.
Qed.

Lemma ensureRuntimeDir_extends f s :
  ∃ evs, trace (snd (ensureRuntimeDir f s)) = trace s ++ evs.
Proof. destruct (ensureRuntimeDir_outline f s) as (evs & ? & _). eauto. Qed.

(** C10.  [ensureRuntimeDir], when it succeeds, has written to
    [.gitignore] under the Function's root one fixed text, whose only
    rule is [/.func], and after it the file holds exactly that text
    whatever it held before.  Every run of [Create] that returns no error
    has done so for the Function it creates, and every run of [Build]
    that returns no error has done so, through [updateBuildStamp], for
    the Function it loaded. *)
Theorem gitignore_rewritten (c : Client) :
  rules gitignore = ["/.func"] ∧
  (∀ f s s',
     ensureRuntimeDir f s = (None, s') →
     trace s' = trace s ++ [SysMkdirAll (Join [Root f; RunDataDir]);
                            SysWriteFile (Join [Root f; ".gitignore"]) gitignore] ∧
     ∃ m perm,
       find (resolve (Join [Root f; ".gitignore"])) (fs (world s'))
         = inr (File m perm gitignore)) ∧
  (∀ cfg s s',
     Client_Create c cfg s = (None, s') →
     ∃ f evs,
       trace s' = trace s ++ evs ∧
       CallTemplatesWrite f ∈ evs ∧
       SysWriteFile (Join [Root f; ".gitignore"]) gitignore ∈ evs) ∧
  (∀ path s s',
     Client_Build c path s = (None, s') →
     ∃ f evs,
       NewFunction (world s) path = (f, None) ∧
       trace s' = trace s ++ evs ∧
       SysWriteFile (Join [Root f; ".gitignore"]) gitignore ∈ evs).
Proof.
  split_and!.
  - done.
  - apply ensureRuntimeDir_writes.
  - intros cfg s s'. unfold Client_Create.
    destruct (Abs (Root cfg)) as [root|e]; [|done].
    unfold bind at 1. unfold sys_MkdirAll, call. cbn.
    destruct (MkdirAll root (world s)) as [[e|] w1]; cbn; [done|].
    run_step.
    destruct (hasInitializedFunction w1 root) as [hasFunc [e|]]; cbn; [done|].
    destruct hasFunc; cbn; [done|].
    destruct (if String.eqb root "" then _ else _) as [cfg'|e]; cbn; [|done].
    destruct (assertEmptyRoot w1 _) as [e|]; cbn; [done|].
    match goal with |- context [ensureRuntimeDir ?f ?s1] =>
      pose proof (ensureRuntimeDir_writes f s1) as Hens;
      destruct (ensureRuntimeDir f s1) as [r s2]; set (f0 := f) in * end.
    destruct r as [e|]; cbn; [done|].
    destruct (Hens s2 eq_refl) as [Ht _]. cbn in Ht.
    destruct (Templates_Write f0 (world s2)) as [[f1 [e|]] w3]; cbn; [done|].
    destruct (Function_Write _ w3) as [[e|] w4]; cbn; [done|].
    intros [= <-]. cbn. rewrite Ht.
    exists f0. eexists. split; [trace_eq|]. list_mem.
  - intros path s s'. unfold Client_Build. run_step.
    destruct (NewFunction (world s) path) as [f [e|]]; cbn; [done|].
    destruct (DerivedImage (world s) path (registry c)) as [image [e|]]; cbn; [done|].
    destruct (Builder_Build (builder c) _ (world s)) as [[e|] w1]; cbn; [done|].
    destruct (Function_Write _ w1) as [[e|] w2]; cbn; [done|].
    unfold updateBuildStamp. unfold bind at 1.
    match goal with |- context [ensureRuntimeDir ?f ?s1] =>
      pose proof (ensureRuntimeDir_writes f s1) as Hens;
      destruct (ensureRuntimeDir f s1) as [r s2] end.
    destruct r as [e|]; cbn; [done|].
    destruct (Hens s2 eq_refl) as [Ht _]. cbn in Ht.
    run_step.
    destruct (fingerprint (world s2) _) as [hash [e|]]; cbn; [done|].
    destruct (WriteFile _ hash (world s2)) as [[e|] w3]; cbn; [done|].
    intros [= <-]. cbn. rewrite Ht.
    exists f. eexists. split; [done|]. split; [trace_eq|]. list_mem.
Qed.
End ClientFacts.

(** * Further properties *)

(** ** Migrations *)

Section MigrationMore.
Context `{Platform} `{Schema} `{!Yaml} `{Semver}.

(** What holds of the descriptor before the loop and is kept by every
    migration holds of what the loop returns, error or not. *)
Lemma migrate_loop_invariant (P : Function → Prop) w ms f r :
  Forall (fun m => ∀ g g' err, P g → migrate m w g (version m) = (g', err) → P g') ms →
  P f → migrate_loop w ms f = Some r → P (fst r).
Proof.
  revert f r. induction ms as [|m ms IH]; intros f r Hms Hf; cbn.
  - by intros [= <-].
  - apply Forall_cons in Hms as [Hm Hms].
    destruct (version_less (Version f) (version m)) as [[]|]; cbn; [| |done].
    + destruct (migrate m w f (version m)) as [f' [e|]] eqn:Hmig.
      * intros [= <-]. cbn. by eapply Hm.
      * apply IH; [done|]. by eapply Hm.
    + by apply IH.
Qed.

Lemma Migrate_in_invariant (P : Function → Prop) ms w f r :
  Forall (fun m => ∀ g g' err, P g → migrate m w g (version m) = (g', err) → P g')
    ms →
  P f → P (set_Version f DefaultVersion) → Migrate_in ms w f = Some r → P (fst r).
Proof.
  intros Hms Hf Hf0. unfold Migrate_in.
  destruct (Migrated_in ms f) as [[]|]; cbn; [by intros [= <-]| |done].
  destruct (String.eqb (Version f) ""); by apply migrate_loop_invariant.
Qed.

Lemma Migrate_invariant (P : Function → Prop) w f r :
  Forall (fun m => ∀ g g' err, P g → migrate m w g (version m) = (g', err) → P g')
    migrations →
  P f → P (set_Version f DefaultVersion) → Migrate w f = Some r → P (fst r).
Proof. apply Migrate_in_invariant. Qed.

(** The loop over a registry with one more migration at its end. *)
Lemma migrate_loop_snoc w ms m f :
  migrate_loop w (ms ++ [m]) f =
  match migrate_loop w ms f with
  | Some (g, None) => migrate_loop w [m] g
  | r => r
  end.
Proof.
  revert f. induction ms as [|m0 ms IH]; intros f.
  - cbn [app migrate_loop]. done.
  - cbn [app]. cbn [migrate_loop].
    destruct (version_less (Version f) (version m0)) as [[]|]; cbn; [| |done].
    + destruct (migrate m0 w f (version m0)) as [f' [e|]]; [done|]. apply IH.
    + apply IH.
Qed.

(** Where the version stands after a loop that met no error. *)
Lemma migrate_loop_version w ms f g :
  Forall stamps ms →
  migrate_loop w ms f = Some (g, None) →
  Version g = Version f ∨ ∃ m, m ∈ ms ∧ Version g = version m.
Proof.
  revert f. induction ms as [|m ms IH]; intros f Hst; cbn.
  - intros [= <-]. by left.
  - apply Forall_cons in Hst as [Hm Hst].
    destruct (version_less (Version f) (version m)) as [[]|]; cbn; [| |done].
    + destruct (migrate m w f (version m)) as [f' [e|]] eqn:Hmig; [done|].
      intros Hl. destruct (IH _ Hst Hl) as [Hv|(m' & Hin & Hv)].
      * right. exists m. split; [left|]. rewrite Hv. by eapply Hm.
      * right. exists m'. split; [by right|done].
    + intros Hl. destruct (IH _ Hst Hl) as [Hv|(m' & Hin & Hv)]; [by left|].
      right. exists m'. split; [by right|done].
Qed.

Lemma migrations_keep_identity w f :
  Forall (fun m => ∀ g g' err,
            same_identity f g → migrate m w g (version m) = (g', err) →
            same_identity f g') migrations.
Proof.
  unfold same_identity.
  unfold migrations.
  repeat apply List.Forall_cons; try apply List.Forall_nil;
    cbn; intros g g' err (HR & HN & HT).
  - unfold migrateToCreationStamp. intros [= <- _].
    destruct (Created g); [done|].
    destruct (negb _ && negb _); done.
  - unfold migrateToBuilderImages.
    destruct (ReadFile _ _); [|by intros [= <- _]].
    destruct (Unmarshal_BuilderImages _); [|by intros [= <- _]].
    intros [= <- _]. destruct (negb _ && negb _); done.
  - unfold migrateTo100Structure.
    destruct (ReadFile _ _); [|by intros [= <- _]].
    destruct (Unmarshal_100 _); [|by intros [= <- _]].
    by intros [= <- _].
Qed.

(** X3.  Whatever [Migrate] returns, with or without an error, has the
    root, the name and the runtime (identifier, image, digest) of the
    descriptor it was given. *)
Theorem Migrate_keeps_identity (w : World) (f f' : Function) (err : option error) :
  Migrate w f = Some (f', err) →
  Root f' = Root f ∧ Name f' = Name f ∧ Runtime f' = Runtime f.
Proof.
  intros Hrun.
  apply (Migrate_invariant (same_identity f) w f (f', err)); try done.
  apply migrations_keep_identity.
Qed.

Lemma migrations_keep_creation w f :
  Forall (fun m => ∀ g g' err,
            same_identity f g ∧ creation_kept (clock w) f g →
            migrate m w g (version m) = (g', err) →
            same_identity f g' ∧ creation_kept (clock w) f g') migrations.
Proof.
  pose proof (migrations_keep_identity w f) as Hid.
  apply Forall_cons in Hid as [Hid1 Hid]. apply Forall_cons in Hid as [Hid2 Hid].
  apply Forall_cons in Hid as [Hid3 _].
  unfold migrations.
  repeat apply List.Forall_cons; try apply List.Forall_nil;
    cbn; intros g g' err [Hg Hc]; cbn in *.
  - intros Hmig. split; [by eapply Hid1|].
    revert Hmig. unfold migrateToCreationStamp, creation_kept in *.
    destruct Hg as (HR & HN & HT).
    intros [= <- _]. cbn. destruct (Created g) eqn:Hcg.
    { cbn. rewrite Hcg.
      destruct (Created f); [congruence|].
      done. }
    destruct (Created f); [congruence|].
    destruct (String.eqb_spec (Name g) "") as [Hn|Hn];
      destruct (String.eqb_spec (Language (Runtime g)) "") as [Hl|Hl]; cbn;
      rewrite ?Hcg; auto.
    right. rewrite <- HN, <- HT. done.
  - intros Hmig. split; [by eapply Hid2|].
    revert Hmig. unfold migrateToBuilderImages.
    destruct (ReadFile _ _); [|by intros [= <- _]].
    destruct (Unmarshal_BuilderImages _); [|by intros [= <- _]].
    intros [= <- _]. destruct (negb _ && negb _); done.
  - intros Hmig. split; [by eapply Hid3|].
    revert Hmig. unfold migrateTo100Structure.
    destruct (ReadFile _ _); [|by intros [= <- _]].
    destruct (Unmarshal_100 _); [|by intros [= <- _]].
    by intros [= <- _].
Qed.

(** X4.  [Migrate] never replaces a creation time: a descriptor that has
    one keeps it; one that has none comes back with none, or, only when
    it has both a name and a runtime, with the instant of the
    migration. *)
Theorem Migrate_keeps_creation_time (w : World) (f f' : Function)
    (err : option error) :
  Migrate w f = Some (f', err) →
  match Created f with
  | Some t => Created f' = Some t
  | None =>
      Created f' = None ∨
      (Created f' = Some (clock w) ∧ Name f ≠ "" ∧ Language (Runtime f) ≠ "")
  end.
Proof.
  intros Hrun.
  assert (same_identity f f ∧ creation_kept (clock w) f f) as Hf.
  { split; [done|]. unfold creation_kept. destruct (Created f); auto. }
  apply (Migrate_invariant
           (fun g => same_identity f g ∧ creation_kept (clock w) f g)
           w f (f', err)); try done.
  apply migrations_keep_creation.
Qed.
End MigrationMore.

Section MigrationOrdered.
Context `{Platform} `{Schema} `{!Yaml} `{Semver} `{!SemverOrder}.

(** The thresholds of the registry, once it is known to be ascending. *)
Lemma ascending_migrations_inv :
  ascending migrations →
  ∃ v0 v1 v2 v3,
    semver_New DefaultVersion = Some v0 ∧ semver_New "0.19.0" = Some v1 ∧
    semver_New "0.23.0" = Some v2 ∧ semver_New "1.0.0" = Some v3 ∧
    thresholds migrations = Some [v1; v2; v3] ∧
    StronglySorted (fun a b => LessThan a b = true) [v0; v1; v2; v3].
Proof.
  intros (v0 & vs & Hd & Hth & Hs).
  apply Sorted_StronglySorted in Hs; [|apply _].
  pose proof Hth as Hth0.
  unfold migrations in Hth.
  apply thresholds_cons in Hth as (v1 & vs1 & -> & Hv1 & Hth).
  apply thresholds_cons in Hth as (v2 & vs2 & -> & Hv2 & Hth).
  apply thresholds_cons in Hth as (v3 & vs3 & -> & Hv3 & Hth).
  unfold thresholds in Hth. cbn in Hth. injection Hth as <-.
  exists v0, v1, v2, v3. done.
Qed.

(** A run of the loop that ends with an error ends below the last
    threshold, when the migrations that fail hand back what they got. *)
Lemma migrate_loop_error_below w ms f f' e v vs vl :
  Forall stamps ms → Forall fails_clean ms → thresholds ms = Some vs →
  StronglySorted (fun a b => LessThan a b = true) vs →
  last vs = Some vl →
  semver_New (Version f) = Some v →
  migrate_loop w ms f = Some (f', Some e) →
  ∃ v', semver_New (Version f') = Some v' ∧ LessThan v' vl = true.
Proof.
  revert f v vs. induction ms as [|m ms IH]; intros f v vs Hst Hfc Hth Hs Hlv Hv; [done|].
  apply thresholds_cons in Hth as (vm & vs' & -> & Hvm & Hth).
  apply Forall_cons in Hst as [Hm Hst].
  apply Forall_cons in Hfc as [Hc Hfc].
  apply StronglySorted_inv in Hs as [Hs Hall].
  cbn. rewrite (version_less_Some _ _ _ _ Hv Hvm). cbn.
  assert (ms ≠ [] → last vs' = Some vl) as Hlast'.
  { intros Hne. destruct vs' as [|v1 vs''].
    - destruct ms; [done|]. by apply thresholds_cons in Hth as (?&?&?&_).
    - by rewrite last_cons_cons in Hlv. }
  destruct (LessThan v vm) eqn:Hlt; cbn.
  - destruct (migrate m w f (version m)) as [f1 [e1|]] eqn:Hmig.
    + intros [= <- <-]. rewrite (Hc _ _ _ _ Hmig). exists v. split; [done|].
      destruct vs' as [|v1 vs''].
      * cbn in Hlv. by injection Hlv as <-.
      * rewrite last_cons_cons in Hlv.
        rewrite Forall_forall in Hall.
        eapply LessThan_trans; [done|]. apply Hall. by apply last_Some_elem_of.
    + intros Hl. destruct ms as [|m1 ms]; [done|].
      eapply (IH f1 vm); eauto. by rewrite (Hm _ _ _ Hmig).
  - intros Hl. destruct ms as [|m1 ms]; [done|].
    eapply (IH f v); eauto.
Qed.

Lemma migrations_fail_clean : Forall fails_clean migrations.
Proof.
  unfold migrations.
  repeat apply List.Forall_cons; try apply List.Forall_nil;
    intros w f f' e; cbn.
  - unfold migrateToCreationStamp. done.
  - unfold migrateToBuilderImages.
    destruct (ReadFile _ _); [|by intros [= <- _]].
    destruct (Unmarshal_BuilderImages _); [|by intros [= <- _]]. done.
  - unfold migrateTo100Structure.
    destruct (ReadFile _ _); [|by intros [= <- _]].
    destruct (Unmarshal_100 _); [|by intros [= <- _]]. done.
Qed.

(** What [Migrated] says of a descriptor whose version is below, or not
    below, the last threshold. *)
Lemma Migrated_in_below ms f m v vl :
  last ms = Some m → semver_New (version m) = Some vl →
  semver_New (Version f) = Some v →
  Migrated_in ms f = Some (negb (String.eqb (Version f) "") && negb (LessThan v vl)).
Proof.
  intros Hlast Hvl Hv. unfold Migrated_in.
  destruct (String.eqb (Version f) ""); [done|].
  rewrite Hlast. cbn. rewrite Hvl. cbn. by rewrite Hv.
Qed.

Lemma Migrate_in_loop ms w f r :
  Migrated_in ms f = Some false → Migrate_in ms w f = Some r →
  migrate_loop w ms (effective f) = Some r.
Proof. unfold Migrate_in, effective. by intros ->. Qed.

Lemma Migrate_in_already ms w f r :
  Migrated_in ms f = Some true → Migrate_in ms w f = Some r → r = (f, None).
Proof. unfold Migrate_in. intros ->. cbn. by intros [= <-]. Qed.

(** A descriptor that is not up to date has, an empty version read as
    0.0.0, a version below the last threshold. *)
Lemma not_Migrated_below ms f m v0 vl :
  last ms = Some m → semver_New (version m) = Some vl →
  semver_New DefaultVersion = Some v0 → LessThan v0 vl = true →
  Migrated_in ms f = Some false →
  ∃ v, semver_New (Version (effective f)) = Some v ∧ LessThan v vl = true.
Proof.
  intros Hlast Hvl Hd H0l Hm. unfold effective. revert Hm. unfold Migrated_in.
  destruct (String.eqb (Version f) ""); [by eauto|].
  rewrite Hlast. cbn. rewrite Hvl. cbn.
  destruct (semver_New (Version f)) as [v|]; [|done]. cbn.
  destruct (LessThan v vl) eqn:Hlt; [|done]. eauto.
Qed.

(** X1.  With the registry in ascending order, [Migrate] panics on
    exactly the descriptors whose version is neither empty nor a
    well-formed semantic version; on every other descriptor it
    returns. *)
Theorem Migrate_panics_iff_malformed (w : World) (f : Function) :
  ascending migrations →
  Migrate w f = None ↔ Version f ≠ "" ∧ semver_New (Version f) = None.
Proof.
  intros Hasc. split.
  - intros Hnone.
    assert (¬ versioned f) as Hnv.
    { intros Hv.
      destruct (Migrate_in_chain migrations w f) as (r & Hr & _);
        [done|apply migrations_stamp|done|done|].
      unfold Migrate in Hnone. congruence. }
    split.
    + intros He. apply Hnv. by left.
    + destruct (semver_New (Version f)) as [v|] eqn:Hv; [|done].
      exfalso. apply Hnv. right. rewrite Hv. by eexists.
  - intros [Hne Hbad].
    destruct (ascending_migrations_inv Hasc) as (v0 & v1 & v2 & v3 & _ & _ & _ & Hv3 & _).
    unfold Migrate, Migrate_in, Migrated_in.
    destruct (String.eqb_spec (Version f) "") as [He|_]; [done|].
    change (last migrations) with (Some {| version := "1.0.0"; migrate := migrateTo100Structure |}).
    cbn. rewrite Hv3. cbn. by rewrite Hbad.
Qed.

(** X2.  With the registry in ascending order, what [Migrate] returns
    without an error is up to date ([Migrated] is true of it), and what
    it returns with an error is not ([Migrated] is false of it): the
    partial result of a failed migration is migrated again by the next
    call. *)
Theorem Migrate_error_iff_not_migrated (w : World) (f f' : Function)
    (err : option error) :
  ascending migrations →
  Migrate w f = Some (f', err) →
  Migrated f' = Some match err with Some _ => false | None => true end.
Proof.
  intros Hasc Hrun.
  destruct (ascending_migrations_inv Hasc)
    as (v0 & v1 & v2 & v3 & Hd & Hv1 & Hv2 & Hv3 & Hth & Hs).
  apply StronglySorted_inv in Hs as [Hs Hall].
  assert (LessThan v0 v3 = true) as H03.
  { rewrite Forall_forall in Hall. apply Hall. list_mem. }
  set (m3 := {| version := "1.0.0"; migrate := migrateTo100Structure |}).
  assert (last migrations = Some m3) as Hlast by done.
  unfold Migrate, Migrated in *.
  destruct (Migrated_in migrations f) as [[]|] eqn:Hm.
  - apply (Migrate_in_already _ _ _ _ Hm) in Hrun. by injection Hrun as -> ->.
  - apply (Migrate_in_loop _ _ _ _ Hm) in Hrun.
    destruct (not_Migrated_below _ _ _ _ _ Hlast Hv3 Hd H03 Hm) as (v & Hv & Hlt).
    destruct err as [e|].
    + destruct (migrate_loop_error_below w migrations (effective f) f' e v
                  [v1; v2; v3] v3) as (v' & Hv' & Hlt');
        auto using migrations_stamp, migrations_fail_clean.
      rewrite (Migrated_in_below _ _ _ _ _ Hlast Hv3 Hv'), Hlt'.
      by destruct (String.eqb (Version f') "").
    + pose proof (migrate_loop_reaches_last w migrations (effective f) f' v
                    [v1; v2; v3] v3 m3 migrations_stamp Hth Hs Hlast eq_refl
                    Hv Hlt Hrun) as Hfin.
      by apply (Migrated_at_last _ _ m3 v3).
  - unfold Migrate_in in Hrun. by rewrite Hm in Hrun.
Qed.

(** X5.  With the registry in ascending order, a descriptor that is not
    up to date and that [Migrate] brings up to date without error has
    its build and run sections exactly as the descriptor file under its
    root gives them to the parser of the 1.0.0 migration: what the
    descriptor held in these sections before, and what the earlier
    migrations put there, is replaced. *)
Theorem Migrate_sections_from_file (w : World) (f f' : Function) :
  ascending migrations →
  Migrated f = Some false →
  Migrate w f = Some (f', None) →
  ∃ bb f0,
    ReadFile w (Join [Root f; FunctionFile]) = ok bb ∧
    Unmarshal_100 bb = ok f0 ∧
    Build f' = Build_of_100 f0 ∧ Run f' = Run_of_100 f0.
Proof.
  intros Hasc Hm Hrun.
  destruct (ascending_migrations_inv Hasc)
    as (v0 & v1 & v2 & v3 & Hd & Hv1 & Hv2 & Hv3 & Hth & Hs).
  apply StronglySorted_inv in Hs as [Hs Hall0].
  assert (LessThan v0 v3 = true) as H03.
  { rewrite Forall_forall in Hall0. apply Hall0. list_mem. }
  pose proof Hs as Hs'.
  apply StronglySorted_inv in Hs' as [Hs1 Hall1].
  apply StronglySorted_inv in Hs1 as [_ Hall2].
  assert (LessThan v1 v3 = true) as H13.
  { rewrite Forall_forall in Hall1. apply Hall1. list_mem. }
  assert (LessThan v2 v3 = true) as H23.
  { rewrite Forall_forall in Hall2. apply Hall2. list_mem. }
  set (m1 := {| version := "0.19.0"; migrate := migrateToCreationStamp |}).
  set (m2 := {| version := "0.23.0"; migrate := migrateToBuilderImages |}).
  set (m3 := {| version := "1.0.0"; migrate := migrateTo100Structure |}).
  assert (last migrations = Some m3) as Hlast by done.
  unfold Migrate, Migrated in *.
  apply (Migrate_in_loop _ _ _ _ Hm) in Hrun.
  destruct (not_Migrated_below _ _ _ _ _ Hlast Hv3 Hd H03 Hm) as (v & Hv & Hlt).
  assert (Root (effective f) = Root f) as Hroot.
  { unfold effective. by destruct (String.eqb (Version f) ""). }
  revert Hrun. change migrations with ([m1; m2] ++ [m3]).
  rewrite migrate_loop_snoc.
  destruct (migrate_loop w [m1; m2] (effective f)) as [[g [e|]]|] eqn:Hl; try done.
  assert (Root g = Root f) as Hrg.
  { pose proof (migrations_keep_identity w (effective f)) as Hid.
    unfold migrations in Hid. fold m1 m2 m3 in Hid.
    change [m1; m2; m3] with ([m1; m2] ++ [m3]) in Hid.
    apply Forall_app in Hid as [Hid _].
    pose proof (migrate_loop_invariant (same_identity (effective f)) w [m1; m2]
                  (effective f) (g, None) Hid) as Hinv.
    destruct Hinv as (Hr & _); [done|done|]. cbn in Hr. congruence. }
  assert (version_less (Version g) "1.0.0" = Some true) as Hless.
  { assert (Forall stamps [m1; m2]) as Hst.
    { pose proof migrations_stamp as Hst. unfold migrations in Hst.
      fold m1 m2 m3 in Hst. change [m1; m2; m3] with ([m1; m2] ++ [m3]) in Hst.
      by apply Forall_app in Hst as [Hst _]. }
    destruct (migrate_loop_version w [m1; m2] (effective f) g Hst Hl)
      as [Hvg|(m & Hin & Hvg)].
    - rewrite Hvg, (version_less_Some _ _ _ _ Hv Hv3). by rewrite Hlt.
    - apply elem_of_cons in Hin as [->|Hin].
      + rewrite Hvg. cbn. rewrite (version_less_Some _ _ _ _ Hv1 Hv3). by rewrite H13.
      + apply list_elem_of_singleton in Hin as ->.
        rewrite Hvg. cbn. rewrite (version_less_Some _ _ _ _ Hv2 Hv3). by rewrite H23. }
  cbn. rewrite Hless. cbn. unfold migrateTo100Structure. rewrite Hrg.
  destruct (ReadFile w (Join [Root f; FunctionFile])) as [bb|e]; [|done].
  destruct (Unmarshal_100 bb) as [f0|e] eqn:Hu; [|done].
  intros [= <-]. exists bb, f0. done.
Qed.
End MigrationOrdered.

Section BuilderImagesFacts.
Context `{Platform} `{Schema} `{!Yaml}.

(** X19.  When [migrateToBuilderImages] succeeds, the descriptor file
    was read and parsed; a builder the file names that is neither empty
    nor the default one becomes the builder image of [pack], every
    builder image the descriptor had under another key is kept, and
    with no such builder in the file the builder images are left as
    they were.  Nothing else of the descriptor changes but the
    version. *)
Theorem migrateToBuilderImages_carries_builder (w : World) (f f' : Function)
    (v : string) :
  migrateToBuilderImages w f v = (f', None) →
  ∃ bb f0,
    ReadFile w (Join [Root f; FunctionFile]) = ok bb ∧
    Unmarshal_BuilderImages bb = ok f0 ∧
    (custom_builder (f0_Builder f0) →
       BuilderImages (Build f') ≠ None ∧
       images f' !! "pack" = Some (f0_Builder f0) ∧
       ∀ k, k ≠ "pack" → images f' !! k = images f !! k) ∧
    (¬ custom_builder (f0_Builder f0) →
       BuilderImages (Build f') = BuilderImages (Build f)) ∧
    f' = set_Version (set_BuilderImages f (BuilderImages (Build f'))) v.
Proof.
  unfold migrateToBuilderImages.
  destruct (ReadFile w _) as [bb|e] eqn:Hr; [|done].
  destruct (Unmarshal_BuilderImages bb) as [f0|e] eqn:Hu; [|done].
  intros [= <-]. exists bb, f0. split_and!; try done.
  - intros [Hne Hnd].
    apply String.eqb_neq in Hne, Hnd. rewrite Hne, Hnd. cbn.
    split_and!; [done| |].
    + unfold images. cbn. apply lookup_insert_eq.
    + intros k Hk. unfold images. cbn. by apply lookup_insert_ne.
  - intros Hnot.
    destruct (String.eqb_spec (f0_Builder f0) "") as [He|Hne]; cbn; [done|].
    destruct (String.eqb_spec (f0_Builder f0) "gcr.io/paketo-buildpacks/builder:base")
      as [Hd|Hnd]; cbn; [done|].
    exfalso. by apply Hnot.
  - destruct (negb _ && negb _); cbn; [done|].
    by destruct f as [? ? ? ? ? [] ?].
Qed.
End BuilderImagesFacts.

(** ** Fingerprints and the build stamp *)

Lemma walk_ok_Dir name m perm es :
  walk_ok name (Dir m perm es) = pr perm && (skipped name || walk_ok_each perm es).
Proof.
  cbn. f_equal. f_equal. unfold walk_ok_each.
  induction es as [|[cn c] es IH]; [done|]. cbn. by rewrite IH.
Qed.

Lemma writefile_dir now data q m perm es t' :
  writefile now data q (Dir m perm es) = inr t' →
  ∃ m' es', t' = Dir m' perm es'.
Proof.
  destruct q as [|c q]; cbn; [done|].
  destruct (px perm); [|done].
  destruct (get_entry c es) as [child|].
  - destruct (writefile now data q child); [done|]. intros [= <-]. eauto.
  - destruct q; [|done]. destruct (pw perm); [|done]. intros [= <-]. eauto.
Qed.

(** Writing below a path goes through the entry at that path. *)
Lemma writefile_prefix now data r rest t t' :
  rest ≠ [] →
  writefile now data (r ++ rest) t = inr t' →
  ∃ n n', find r t = inr n ∧ find r t' = inr n' ∧
          writefile now data rest n = inr n'.
Proof.
  intros Hrest. revert t t'. induction r as [|c r IH]; intros t t' Hw.
  - exists t, t'. done.
  - destruct t as [|m perm es]; cbn in Hw; [done|].
    destruct (px perm) eqn:Hx; [|done].
    destruct (get_entry c es) as [child|] eqn:Hc.
    + destruct (writefile now data (r ++ rest) child) as [e|child'] eqn:Hchild; [done|].
      injection Hw as <-.
      destruct (IH _ _ Hchild) as (n & n' & Hn & Hn' & Hnn).
      exists n, n'. cbn. rewrite Hx, Hc, (get_entry_set_entry_eq _ _ _ _ Hc). done.
    + destruct (r ++ rest) eqn:Hr; [|done].
      apply app_eq_nil in Hr as [_ ?]. done.
Qed.

Section FingerprintMore.
Context `{Platform} `{Schema}.

Lemma walk_names_cons {S : Type} perm path (walkFn : WalkFunc S) cn c es s :
  walk_names perm path walkFn ((cn, c) :: es) s =
  if px perm then
    let '(err, s') := walk (Join [path; cn]) cn c walkFn s in
    match err with
    | Some e =>
        if bool_decide (is_dir c = false ∨ e ≠ SkipDir)
        then (Some e, s')
        else walk_names perm path walkFn es s'
    | None => walk_names perm path walkFn es s'
    end
  else
    let '(err, s') :=
      walkFn (Join [path; cn]) (VisitErr (PathError "lstat" (Join [path; cn]) EACCES)) s in
    match err with
    | Some e =>
        if bool_decide (e ≠ SkipDir) then (Some e, s')
        else walk_names perm path walkFn es s'
    | None => walk_names perm path walkFn es s'
    end.
Proof. done. Qed.

Lemma walk_File {S : Type} path name m perm data (walkFn : WalkFunc S) s :
  walk path name (File m perm data) walkFn s
  = walkFn path (Visit (info_of name (File m perm data)) None) s.
Proof. done. Qed.

Lemma walk_names_passes perm path es h err h' :
  Forall (fun e => walk_passes (snd e)) es →
  walk_names perm path fingerprint_visit es h = (err, h') →
  err = None ↔ walk_ok_each perm es = true.
Proof.
  intros IH. revert h. induction es as [|[cn c] es IHes]; intros h.
  { by intros [= <- <-]. }
  apply Forall_cons in IH as [IHc IH]. unfold walk_passes in IHc. cbn in IHc.
  rewrite walk_names_cons.
  change (walk_ok_each perm ((cn, c) :: es))
    with (px perm && walk_ok cn c && walk_ok_each perm es).
  destruct (px perm).
  2:{ cbn. intros [= <- <-]. done. }
  destruct (walk (Join [path; cn]) cn c fingerprint_visit h) as [[e|] h1] eqn:Hw.
  - specialize (IHc _ _ _ _ _ Hw).
    case_bool_decide as Hd.
    + intros [= <- <-].
      assert (walk_ok cn c = false) as ->; [|done].
      destruct (walk_ok cn c) eqn:Hok; [|done].
      destruct (proj2 IHc eq_refl) as [?|[= ->]]; [done|].
      destruct Hd as [Hd|Hd]; [|done].
      destruct c as [m0 perm0 data0|]; [|done].
      rewrite walk_File in Hw. done.
    + assert (e = SkipDir) as -> by (destruct (decide (e = SkipDir)); tauto).
      intros Hrest. rewrite (proj1 IHc) by (by right). cbn. by eapply IHes.
  - specialize (IHc _ _ _ _ _ Hw). intros Hrest.
    rewrite (proj1 IHc) by (by left). cbn. by eapply IHes.
Qed.

Lemma walk_ok_spec t : walk_passes t.
Proof.
  induction t as [m perm data|m perm es IH] using node_induction;
    intros path name h err h'.
  - rewrite walk_File, fingerprint_visit_file. intros [= <- <-]. split; auto.
  - rewrite walk_Dir, walk_ok_Dir.
    destruct (pr perm); cbv zeta.
    2:{ cbn. intros [= <- <-]. split; [intros [?|?]; done|done]. }
    rewrite fingerprint_visit_dir.
    destruct (skipped name).
    { rewrite bool_decide_true by (right; done). intros [= <- <-]. split; auto. }
    rewrite bool_decide_false by (intros [?|?]; done).
    intros Hw. cbn.
    pose proof (walk_names_passes _ _ _ _ _ _ IH Hw) as Hok.
    assert (Forall (fun e => walk_writes (snd e)) es) as Hwr.
    { apply Forall_forall. intros e _. apply walk_fingerprint. }
    pose proof (walk_names_fingerprint _ _ _ _ _ _ Hwr Hw) as Hns.
    rewrite <- Hok. split; [|by left].
    intros [?| ->]; done.
Qed.

(** X6.  [fingerprint] returns without an error exactly when the root
    can be reached and the walk gets through the tree there: every
    directory the walk comes to can be listed, and the entries of every
    directory it goes into can be reached.  A directory called [.func]
    or [.git] that cannot be listed makes it fail, though nothing below
    such a directory is ever looked at. *)
Theorem fingerprint_succeeds_iff (w : World) (f : Function) :
  snd (fingerprint w f) = None ↔
  ∃ t, find (resolve (Root f)) (fs w) = inr t ∧
       walk_ok (basename (Root f)) t = true.
Proof.
  unfold fingerprint, fingerprint_input, Walk.
  destruct (find (resolve (Root f)) (fs w)) as [e|t] eqn:Hfind.
  { cbn. split; [done|]. by intros (t & ? & _). }
  destruct (walk (Root f) (basename (Root f)) t fingerprint_visit "")
    as [err h] eqn:Hw.
  pose proof (walk_ok_spec t _ _ _ _ _ Hw) as Hok.
  case_bool_decide as Hd; cbn.
  - split; [|done]. intros _. exists t. split; [done|]. apply Hok. by right.
  - split.
    + intros ->. exists t. split; [done|]. apply Hok. by left.
    + intros (t' & [= <-] & Ht). by apply Hok in Ht as [?|?].
Qed.

(** *** Writing below a skipped directory *)

Lemma walk_skipped_dir path name m perm es h :
  skipped name = true →
  walk path name (Dir m perm es) fingerprint_visit h
  = if pr perm then (Some SkipDir, h)
    else (Some (PathError "open" path EACCES), h).
Proof.
  intros Hs. rewrite walk_Dir. destruct (pr perm); cbv zeta.
  - rewrite fingerprint_visit_dir, Hs.
    by rewrite bool_decide_true by (right; done).
  - cbn. done.
Qed.

Lemma walk_names_set_entry perm path c x x' es h :
  get_entry c es = Some x →
  is_dir x' = is_dir x →
  (∀ p h0, walk p c x' fingerprint_visit h0 = walk p c x fingerprint_visit h0) →
  walk_names perm path fingerprint_visit (set_entry c x' es) h
  = walk_names perm path fingerprint_visit es h.
Proof.
  intros Hget Hdir Hwalk. revert h.
  induction es as [|[n c0] es IH]; intros h; [done|].
  cbn in Hget. cbn [set_entry].
  destruct (String.eqb_spec n c) as [->|Hne].
  - injection Hget as ->. rewrite !walk_names_cons, Hwalk, Hdir. done.
  - rewrite !walk_names_cons.
    destruct (px perm).
    + destruct (walk _ n c0 fingerprint_visit h) as [[e|] h1]; [|by apply IH].
      destruct (bool_decide _); [done|by apply IH].
    + destruct (fingerprint_visit _ _ h) as [[e|] h1]; [|by apply IH].
      destruct (bool_decide _); [done|by apply IH].
Qed.

(** A write below a directory called [.func] or [.git] changes nothing
    of what the walk does on the tree. *)
Lemma walk_writefile_skipped now data p d q t t' :
  skipped d = true → q ≠ [] →
  writefile now data (p ++ d :: q) t = inr t' →
  is_dir t' = is_dir t ∧
  ∀ path name h,
    walk path name t' fingerprint_visit h = walk path name t fingerprint_visit h.
Proof.
  intros Hs Hq. revert t t'. induction p as [|c p IH]; intros t t' Hw.
  - destruct t as [|m perm es]; cbn in Hw; [done|].
    destruct (px perm) eqn:Hx; [|done].
    destruct (get_entry d es) as [child|] eqn:Hc.
    2:{ destruct q; done. }
    destruct (writefile now data q child) as [e|child'] eqn:Hchild; [done|].
    injection Hw as <-. split; [done|]. intros path name h.
    destruct child as [|m0 perm0 es0].
    { destruct q; [done|]. cbn in Hchild. done. }
    destruct (writefile_dir _ _ _ _ _ _ _ Hchild) as (m1 & es1 & ->).
    rewrite !walk_Dir. cbv zeta.
    change (info_of name (Dir m perm (set_entry d (Dir m1 perm0 es1) es)))
      with (info_of name (Dir m perm es)).
    destruct (fingerprint_visit path _ h) as [err1 h1].
    destruct (bool_decide _); [done|].
    apply (walk_names_set_entry _ _ _ _ _ _ _ Hc); [done|].
    intros p0 h0. by rewrite !walk_skipped_dir.
  - destruct t as [|m perm es]; cbn in Hw; [done|].
    destruct (px perm) eqn:Hx; [|done].
    destruct (get_entry c es) as [child|] eqn:Hc.
    2:{ destruct (p ++ d :: q) eqn:Hp; [|done]. by destruct p. }
    destruct (writefile now data (p ++ d :: q) child) as [e|child'] eqn:Hchild; [done|].
    injection Hw as <-. split; [done|]. intros path name h.
    destruct (IH _ _ Hchild) as [Hdir Hwalk].
    rewrite !walk_Dir. cbv zeta.
    change (info_of name (Dir m perm (set_entry c child' es)))
      with (info_of name (Dir m perm es)).
    destruct (fingerprint_visit path _ h) as [err1 h1].
    destruct (bool_decide _); [done|].
    apply (walk_names_set_entry _ _ _ _ _ _ _ Hc); [done|].
    intros p0 h0. apply Hwalk.
Qed.

Lemma fingerprint_after_write w w' f path data p d q :
  skipped d = true → q ≠ [] →
  resolve path = resolve (Root f) ++ p ++ d :: q →
  WriteFile path data w = (None, w') →
  fingerprint w' f = fingerprint w f.
Proof.
  intros Hs Hq Hpath. unfold WriteFile. rewrite Hpath.
  destruct (writefile _ _ _ _) as [e|t'] eqn:Hw; [done|].
  intros [= <-].
  apply writefile_prefix in Hw as (n & n' & Hn & Hn' & Hw); [|by destruct p].
  destruct (walk_writefile_skipped _ _ _ _ _ _ _ Hs Hq Hw) as [_ Hwalk].
  unfold fingerprint, fingerprint_input, Walk. cbn [fs with_fs].
  by rewrite Hn, Hn', Hwalk.
Qed.

(** X7.  A file written at any depth below a directory called [.func]
    or [.git], itself at any depth below the root of a Function, leaves
    the fingerprint of the Function as it was, error included: neither
    the new content nor the new modification times show. *)
Theorem fingerprint_blind_below_skipped (w w' : World) (f : Function)
    (path data : string) (p : list string) (d : string) (q : list string) :
  skipped d = true → q ≠ [] →
  resolve path = resolve (Root f) ++ p ++ d :: q →
  WriteFile path data w = (None, w') →
  fingerprint w' f = fingerprint w f.
Proof. apply fingerprint_after_write. Qed.
End FingerprintMore.

(** *** Touching a file that is observed *)

Lemma append_cancel_l (a b c : string) : a +:+ b = a +:+ c → b = c.
Proof.
  induction a as [|x a IH]; [done|].
  change (String x (a +:+ b) = String x (a +:+ c) → b = c).
  intros [= Heq]. auto.
Qed.

Lemma length_append (a b : string) :
  String.length (a +:+ b) = (String.length a + String.length b)%nat.
Proof.
  induction a as [|x a IH]; [done|].
  change (S (String.length (a +:+ b)) = S (String.length a + String.length b)).
  by rewrite IH.
Qed.

Lemma append_cancel_r (a b c : string) : a +:+ c = b +:+ c → a = b.
Proof.
  revert b. induction a as [|x a IH]; intros [|y b] Heq; [done| | |].
  - apply (f_equal String.length) in Heq.
    rewrite !length_append in Heq. cbn in Heq. lia.
  - apply (f_equal String.length) in Heq.
    rewrite !length_append in Heq. cbn in Heq. lia.
  - change (String x (a +:+ c) = String y (b +:+ c)) in Heq.
    injection Heq as -> Heq. f_equal. auto.
Qed.

Lemma to_int_proper z :
  Z.to_int z ≠ Decimal.Pos Decimal.Nil ∧ Z.to_int z ≠ Decimal.Neg Decimal.Nil.
Proof.
  destruct z as [|p|p]; cbn; split; try discriminate.
  - intros [= Hp]. revert Hp. apply Unsigned.to_uint_nonnil.
  - intros [= Hp]. revert Hp. apply Unsigned.to_uint_nonnil.
Qed.

(** Two instants are written the same only when they are the same. *)
Lemma itoa_inj a b : itoa a = itoa b → a = b.
Proof.
  unfold itoa. intros Heq. apply DecimalZ.to_int_inj.
  destruct (to_int_proper a) as [Ha1 Ha2], (to_int_proper b) as [Hb1 Hb2].
  pose proof (NilZero.isi _ Ha1 Ha2) as Ia.
  pose proof (NilZero.isi _ Hb1 Hb2) as Ib.
  rewrite Heq in Ia. rewrite Ia in Ib. congruence.
Qed.

Lemma get_entry_split c child es :
  get_entry c es = Some child →
  ∃ es1 es2, es = es1 ++ (c, child) :: es2 ∧
             ∀ x, set_entry c x es = es1 ++ (c, x) :: es2.
Proof.
  induction es as [|[n c0] es IH]; cbn; [done|].
  destruct (String.eqb_spec n c) as [->|Hne].
  - intros [= ->]. exists [], es. done.
  - intros Hget. destruct (IH Hget) as (es1 & es2 & -> & Hset).
    exists ((n, c0) :: es1), es2. split; [done|]. intros x. cbn. by rewrite Hset.
Qed.

Lemma observed_each_app es1 es2 :
  observed_each (es1 ++ es2) = observed_each es1 ++ observed_each es2.
Proof. unfold observed_each. apply flat_map_app. Qed.

Lemma find_app r q t n0 :
  find (r ++ q) t = inr n0 → ∃ n, find r t = inr n ∧ find q n = inr n0.
Proof.
  revert t. induction r as [|c r IH]; intros t; cbn; [eauto|].
  destruct t as [|m perm es]; [done|].
  destruct (px perm); [|done].
  destruct (get_entry c es) as [child|]; [|done]. apply IH.
Qed.

(** Writing to an entry that is there goes through the entry at any
    path above it. *)
Lemma writefile_at now data r q t t' n :
  find r t = inr n → 
  writefile now data (r ++ q) t = inr t' →
  ∃ n', find r t' = inr n' ∧ writefile now data q n = inr n'.
Proof.
  revert t t'. induction r as [|c r IH]; intros t t'; cbn.
  - intros [= <-] Hw. eauto.
  - destruct t as [|m perm es]; [done|].
    destruct (px perm) eqn:Hx; [|done].
    destruct (get_entry c es) as [child|] eqn:Hc; [|done].
    intros Hfind.
    destruct (writefile now data (r ++ q) child) as [e|child'] eqn:Hchild; [done|].
    intros [= <-]. cbn. rewrite Hx, (get_entry_set_entry_eq _ _ _ _ Hc).
    by eapply IH.
Qed.

Section TouchFacts.
Context `{Platform} `{Schema}.

(** Rewriting a file that the walk comes to, at an instant other than
    the one it bears, changes what is written to the hash for the tree. *)
Lemma render_touch now data q t t' m perm d :
  find q t = inr (File m perm d) →
  writefile now data q t = inr t' →
  now ≠ m →
  ∀ path name, walked name q = true →
    render_all path (observed name t') ≠ render_all path (observed name t).
Proof.
  intros Hfind Hw Hnow. revert t t' Hfind Hw.
  induction q as [|c q IH]; intros t t' Hfind Hw path name Hwalked.
  - cbn in Hfind. injection Hfind as ->. cbn in Hw.
    destruct (pw perm); [|done]. injection Hw as <-.
    change (render_all path [([] : list string, now)]
            ≠ render_all path [([] : list string, m)]).
    rewrite !render_all_cons. unfold render. cbn [fst snd joined foldl].
    intros Heq. apply append_cancel_r, append_cancel_l, append_cancel_l in Heq.
    apply append_cancel_r in Heq. apply Hnow. by apply itoa_inj.
  - destruct t as [|m0 perm0 es]; cbn in Hfind, Hw; [done|].
    destruct (px perm0); [|done].
    destruct (get_entry c es) as [child|] eqn:Hc; [|done].
    destruct (writefile now data q child) as [e|child'] eqn:Hchild; [done|].
    injection Hw as <-.
    cbn in Hwalked. apply andb_true_iff in Hwalked as [Hname Hwalked].
    apply negb_true_iff in Hname.
    rewrite !observed_Dir, Hname.
    destruct (get_entry_split _ _ _ Hc) as (es1 & es2 & -> & Hset).
    rewrite Hset, !render_all_cons, !observed_each_app.
    change (observed_each ((c, child') :: es2))
      with (map (under c) (observed c child') ++ observed_each es2).
    change (observed_each ((c, child) :: es2))
      with (map (under c) (observed c child) ++ observed_each es2).
    rewrite !render_all_app, !render_all_under.
    intros Heq. apply append_cancel_l, append_cancel_l in Heq.
    apply append_cancel_r in Heq.
    by apply (IH child child' Hfind Hchild (Join [path; c]) c).
Qed.

(** X20.  Rewriting a file of the project, one the walk of [fingerprint]
    comes to because no directory on the way down from the root is
    called [.func] or [.git], at an instant other than the modification
    time it bears, changes what [fingerprint] hashes: after a walk that
    met no error, the text written to the hash is another one, or the
    walk now fails. *)
Theorem fingerprint_sees_touch (w w' : World) (f : Function)
    (path data : string) (q : list string) (m : Z) (perm : Perm) (d : string) :
  resolve path = resolve (Root f) ++ q →
  find (resolve path) (fs w) = inr (File m perm d) →
  walked (basename (Root f)) q = true →
  clock w ≠ m →
  WriteFile path data w = (None, w') →
  fst (fingerprint_input w f) = None →
  fingerprint_input w' f ≠ fingerprint_input w f.
Proof.
  intros Hpath Hfile Hwalked Hclock. unfold WriteFile.
  destruct (writefile _ _ _ _) as [e|t'] eqn:Hw; [done|].
  intros [= <-]. rewrite Hpath in Hfile, Hw.
  destruct (find_app _ _ _ _ Hfile) as (n & Hn & Hq).
  destruct (writefile_at _ _ _ _ _ _ _ Hn Hw) as (n' & Hn' & Hwq).
  destruct (fingerprint_input w f) as [err h] eqn:Hin. cbn. intros ->.
  pose proof (fingerprint_input_observed _ _ _ _ Hn Hin) as ->.
  destruct (fingerprint_input (with_fs w t') f) as [err' h'] eqn:Hin'.
  destruct err' as [e|]; [done|].
  pose proof (fingerprint_input_observed (with_fs w t') f n' h' Hn' Hin') as ->.
  intros [= Heq]. revert Heq.
  by apply (render_touch _ _ _ _ _ _ _ _ Hq Hwq Hclock).
Qed.
End TouchFacts.

(** ** The build stamp across [Build] and [Built] *)

Ltac case_match_goal :=
  match goal with
  | |- context [match ?x with _ => _ end] =>
      lazymatch x with
      | context [match _ with _ => _ end] => fail
      | _ => destruct x eqn:?
      end
  end.

Ltac trace_tail :=
  first [ rewrite <- ?app_assoc; reflexivity
        | symmetry; apply app_nil_r ].

Section StampFacts.
Context `{Platform} `{Schema} `{!FunctionPkg}.

Lemma fingerprint_at_root w f g :
  Root g = Root f → fingerprint w g = fingerprint w f.
Proof. intros Hr. unfold fingerprint, fingerprint_input. by rewrite Hr. Qed.

(** [updateBuildStamp], when it succeeds, has written the fingerprint of
    the tree as the write of the stamp left it. *)
Lemma updateBuildStamp_current f s s' :
  resolve (Join [Root f; RunDataDir; buildstamp])
    = resolve (Root f) ++ [RunDataDir; buildstamp] →
  updateBuildStamp f s = (None, s') →
  ∃ hash t perm,
    fingerprint (world s') f = (hash, None) ∧
    find (resolve (Join [Root f; RunDataDir; buildstamp])) (fs (world s'))
      = inr (File t perm hash).
Proof.
  intros Hpath. unfold updateBuildStamp. unfold bind at 1.
  destruct (ensureRuntimeDir f s) as [[e|] s1]; [done|].
  run_step.
  destruct (fingerprint (world s1) f) as [hash [e|]] eqn:Hfp; cbn; [done|].
  destruct (WriteFile _ hash (world s1)) as [[e|] w2] eqn:Hw; cbn; [done|].
  intros [= <-]. cbn.
  destruct (WriteFile_replaces _ _ _ _ Hw) as [perm Hfile].
  exists hash, (clock (world s1)), perm. split; [|done].
  rewrite <- Hfp.
  apply (fingerprint_after_write _ _ f _ _ [] RunDataDir [buildstamp]) in Hw;
    done.
Qed.

(** X8.  When [updateBuildStamp] returns without error, the stamp file
    under the run-data directory of the Function holds the fingerprint
    of the Function's tree as it is at that moment, the stamp file and
    the ignore file just written included: the write of the stamp does
    not make the stamp out of date. *)
Theorem updateBuildStamp_stamp_is_current (f : Function) (s s' : State) :
  resolve (Join [Root f; RunDataDir; buildstamp])
    = resolve (Root f) ++ [RunDataDir; buildstamp] →
  updateBuildStamp f s = (None, s') →
  ∃ hash t perm,
    fingerprint (world s') f = (hash, None) ∧
    find (resolve (Join [Root f; RunDataDir; buildstamp])) (fs (world s'))
      = inr (File t perm hash).
Proof. apply updateBuildStamp_current. Qed.

(** X9.  Right after a [Build] that returned without error, [Built]
    answers true, provided the descriptor then loads from the same path
    with an image and the root it had, the path given and that root
    lead to the same stamp file, directly below the root, and the stamp
    can be read. *)
Theorem Built_after_Build (c : Client) (path : string) (s s' : State)
    (f g : Function) :
  let stamp := Join [path; RunDataDir; buildstamp] in
  NewFunction (world s) path = (f, None) →
  Client_Build c path s = (None, s') →
  NewFunction (world s') path = (g, None) →
  HasImage g = true →
  Root g = Root f →
  resolve stamp = resolve (Root f) ++ [RunDataDir; buildstamp] →
  resolve (Join [Root f; RunDataDir; buildstamp]) = resolve stamp →
  (∃ content, ReadFile (world s') stamp = ok content) →
  fst (Client_Built c path s') = true.
Proof.
  cbn zeta. intros HN Hbuild HN' HI Hroot Hstamp Hsame [content Hread].
  assert (∃ hash t perm,
            fingerprint (world s') g = (hash, None) ∧
            find (resolve (Join [path; RunDataDir; buildstamp])) (fs (world s'))
              = inr (File t perm hash)) as (hash & t & perm & Hfp & Hfile).
  { revert Hbuild. unfold Client_Build. run_step. rewrite HN. cbn.
    destruct (DerivedImage (world s) path (registry c)) as [image [e|]]; cbn; [done|].
    destruct (Builder_Build (builder c) _ (world s)) as [[e|] w1]; cbn; [done|].
    destruct (Function_Write _ w1) as [[e|] w2]; cbn; [done|].
    match goal with |- context [updateBuildStamp ?f0 ?s1] =>
      pose proof (updateBuildStamp_current f0 s1) as Hup;
      destruct (updateBuildStamp f0 s1) as [r s2] end.
    destruct r as [e|]; cbn; [done|].
    intros [= <-]. cbn.
    destruct (Hup s2) as (hash & t & perm & Hfp & Hfile); [|done|].
    { cbn. by rewrite Hsame, Hstamp. }
    cbn in Hfile. rewrite Hsame in Hfile.
    exists hash, t, perm. split; [|done].
    rewrite <- Hfp. by apply fingerprint_at_root. }
  unfold Client_Built. run_step. rewrite HN'. cbn. rewrite HI. cbn.
  unfold Stat. rewrite Hfile. cbn. rewrite Hfp. cbn.
  revert Hread. unfold ReadFile. rewrite Hfile.
  destruct (pr perm); [|done]. intros _. cbn. by rewrite String.eqb_refl.
Qed.

Lemma ensureRuntimeDir_events f s :
  ∃ evs, trace (snd (ensureRuntimeDir f s)) = trace s ++ evs ∧
         Forall (fun ev => own_write ev = true) evs.
Proof.
  unfold ensureRuntimeDir. run_step.
  repeat (case_match_goal; cbn); eexists;
    (split; [trace_tail|repeat constructor]).
Qed.

Lemma updateBuildStamp_events f s :
  ∃ evs, trace (snd (updateBuildStamp f s)) = trace s ++ evs ∧
         Forall (fun ev => own_write ev = true) evs.
Proof.
  unfold updateBuildStamp. unfold bind at 1.
  destruct (ensureRuntimeDir_events f s) as (evs & Ht & Ho).
  destruct (ensureRuntimeDir f s) as [r s1]. cbn in Ht.
  destruct r; run_step.
  - exists evs. done.
  - repeat (case_match_goal; cbn); rewrite Ht; eexists;
      (split; [trace_tail|rewrite ?Forall_app; repeat constructor; done]).
Qed.

(** X10.  In every run of [Build] the descriptor is written only after
    the builder has returned without error, and what is written is the
    descriptor loaded from the path with the image derived for it; the
    client itself writes to the file system (run-data directory, ignore
    file, stamp) only after that write of the descriptor has returned
    without error.  A build that fails leaves descriptor and stamp as
    the builder left them. *)
Theorem Build_writes_after_building (c : Client) (path : string) (s : State) :
  ∃ evs,
    trace (snd (Client_Build c path s)) = trace s ++ evs ∧
    ∀ ev, ev ∈ evs → (∃ g, ev = CallWrite g) ∨ own_write ev = true →
      ∃ f image w1,
        NewFunction (world s) path = (f, None) ∧
        DerivedImage (world s) path (registry c) = (image, None) ∧
        Builder_Build (builder c) (set_Image f image) (world s) = (None, w1) ∧
        (ev = CallWrite (set_Image f image) ∨
         own_write ev = true ∧
         ∃ w2, Function_Write (set_Image f image) w1 = (None, w2)).
Proof.
  unfold Client_Build. run_step.
  destruct (NewFunction (world s) path) as [f [e|]]; cbn.
  { eexists. split; [done|].
    intros ev Hev. apply list_elem_of_singleton in Hev as ->.
    intros [[? ?]|?]; done. }
  destruct (DerivedImage (world s) path (registry c)) as [image [e|]]; cbn.
  { eexists. split; [done|].
    intros ev Hev. apply list_elem_of_singleton in Hev as ->.
    intros [[? ?]|?]; done. }
  destruct (Builder_Build (builder c) _ (world s)) as [[e|] w1] eqn:Hb; cbn.
  { eexists. split; [rewrite <- app_assoc; done|].
    intros ev Hev.
    apply elem_of_cons in Hev as [->|Hev]; [intros [[? ?]|?]; done|].
    apply list_elem_of_singleton in Hev as ->. intros [[? ?]|?]; done. }
  destruct (Function_Write _ w1) as [[e|] w2] eqn:Hwr; cbn.
  { eexists. split; [rewrite <- !app_assoc; done|].
    intros ev Hev.
    apply elem_of_cons in Hev as [->|Hev]; [intros [[? ?]|?]; done|].
    apply elem_of_cons in Hev as [->|Hev]; [intros [[? ?]|?]; done|].
    apply list_elem_of_singleton in Hev as ->. intros _.
    exists f, image, w1. auto. }
  match goal with |- context [updateBuildStamp ?f0 ?s1] =>
    destruct (updateBuildStamp_events f0 s1) as (evs & Ht & Hown);
    destruct (updateBuildStamp f0 s1) as [r s2] end.
  cbn in Ht. rewrite Forall_forall in Hown.
  assert (∀ tail ev,
            ev ∈ [Increment "Building function image";
                  CallBuild (set_Image f image);
                  CallWrite (set_Image f image)] ++ evs ++ tail →
            (∀ x, x ∈ tail → ∃ msg, x = Increment msg) →
            (∃ g, ev = CallWrite g) ∨ own_write ev = true →
            ∃ f0 image0 w0,
              (f, @None error) = (f0, None) ∧ (image, @None error) = (image0, None) ∧
              Builder_Build (builder c) (set_Image f0 image0) (world s) = (None, w0) ∧
              (ev = CallWrite (set_Image f0 image0) ∨
               own_write ev = true ∧
               ∃ w3, Function_Write (set_Image f0 image0) w0 = (None, w3))) as Hall.
  { intros tail ev Hev Htail Hkind. exists f, image, w1. split_and!; try done.
    apply elem_of_cons in Hev as [->|Hev]; [destruct Hkind as [[? ?]|?]; done|].
    apply elem_of_cons in Hev as [->|Hev]; [destruct Hkind as [[? ?]|?]; done|].
    apply elem_of_cons in Hev as [->|Hev]; [by left|].
    apply elem_of_app in Hev as [Hev|Hev].
    - right. split; [by apply Hown|]. eauto.
    - destruct (Htail _ Hev) as [msg ->]. destruct Hkind as [[? ?]|?]; done. }
  destruct r as [e|]; cbn; rewrite Ht.
  - exists ([Increment "Building function image"; CallBuild (set_Image f image);
             CallWrite (set_Image f image)] ++ evs ++ []).
    split; [rewrite app_nil_r; trace_tail|].
    intros ev Hev. apply (Hall [] ev Hev). intros x Hx. by apply elem_of_nil in Hx.
  - eexists ([Increment "Building function image"; CallBuild (set_Image f image);
             CallWrite (set_Image f image)] ++ evs ++ [_]).
    split; [trace_tail|].
    intros ev Hev. apply (Hall _ ev Hev). intros x Hx.
    apply list_elem_of_singleton in Hx as ->. eauto.
Qed.
End StampFacts.

(** ** [Remove] and the order of its two removals *)

Section RemoveFacts.
Context `{Platform} `{Schema} `{!FunctionPkg}.

(** X11.  When the removal of the service and the removal of the
    pipeline resources do not interfere, [Remove] returns the same error
    and leaves the same world whichever of the two acts first; the two
    records hold the same events, in a different order at most. *)
Theorem Remove_order_irrelevant (c : Client) (cfg : Function) (deleteAll : bool)
    (s : State) :
  removals_commute c →
  fst (Client_Remove true c cfg deleteAll s)
    = fst (Client_Remove false c cfg deleteAll s) ∧
  world (snd (Client_Remove true c cfg deleteAll s))
    = world (snd (Client_Remove false c cfg deleteAll s)) ∧
  trace (snd (Client_Remove true c cfg deleteAll s))
    ≡ₚ trace (snd (Client_Remove false c cfg deleteAll s)).
Proof.
  intros Hcomm. unfold Client_Remove. run_step.
  assert (∀ name target tr,
    let service := call (CallRemove name) (Remover_Remove (remover c) name) in
    let resources :=
      if deleteAll then
        bind (emit (Increment ("Removing Knative Service '" +:+ name
                               +:+ "' and all dependent resources")))
             (fun _ => call (CallPipelinesRemove target)
                         (Pipelines_Remove (pipelinesProvider c) target))
      else ret None in
    let s0 := {| world := world s; trace := tr |} in
    let r1 := bind service (fun a => bind resources (fun b => ret (a, b))) s0 in
    let r2 := bind resources (fun b => bind service (fun a => ret (a, b))) s0 in
    fst r1 = fst r2 ∧ world (snd r1) = world (snd r2) ∧
    trace (snd r1) ≡ₚ trace (snd r2)) as Hboth.
  { intros name target tr. cbv zeta.
    specialize (Hcomm name target (world s)).
    destruct deleteAll; run_step.
    - destruct (Remover_Remove (remover c) name (world s)) as [a w1]; cbn in *.
      destruct (Pipelines_Remove (pipelinesProvider c) target w1) as [b w2]; cbn in *.
      destruct (Pipelines_Remove (pipelinesProvider c) target (world s))
        as [b' w1']; cbn in *.
      destruct (Remover_Remove (remover c) name w1') as [a' w2']; cbn in *.
      destruct Hcomm as (-> & -> & ->). split_and!; try done.
      rewrite <- !app_assoc. apply Permutation_app_head. cbn.
      solve_Permutation.
    - destruct (Remover_Remove (remover c) name (world s)) as [a w1]. done. }
  destruct (String.eqb (Name cfg) ""); cbn.
  - destruct (NewFunction (world s) (Root cfg)) as [f [e|]]; cbn; [done|].
    destruct (Initialized f); cbn; [|done].
    specialize (Hboth (Name f) f
                  (trace s ++ [Increment ("Removing Knative Service: " +:+ Name f)])).
    cbv zeta in Hboth. revert Hboth. run_step.
    destruct deleteAll; run_step.
    + destruct (Remover_Remove (remover c) (Name f) (world s)) as [a w1]; cbn.
      destruct (Pipelines_Remove (pipelinesProvider c) f w1) as [b w2]; cbn.
      destruct (Pipelines_Remove (pipelinesProvider c) f (world s)) as [b' w1']; cbn.
      destruct (Remover_Remove (remover c) (Name f) w1') as [a' w2']; cbn.
      intros ([= -> ->] & -> & Hp). by destruct a', b'.
    + destruct (Remover_Remove (remover c) (Name f) (world s)) as [a w1]; cbn.
      by destruct a.
  - specialize (Hboth (Name cfg) cfg
                  (trace s ++ [Increment ("Removing Knative Service: " +:+ Name cfg)])).
    cbv zeta in Hboth. revert Hboth. run_step.
    destruct deleteAll; run_step.
    + destruct (Remover_Remove (remover c) (Name cfg) (world s)) as [a w1]; cbn.
      destruct (Pipelines_Remove (pipelinesProvider c) cfg w1) as [b w2]; cbn.
      destruct (Pipelines_Remove (pipelinesProvider c) cfg (world s)) as [b' w1']; cbn.
      destruct (Remover_Remove (remover c) (Name cfg) w1') as [a' w2']; cbn.
      intros ([= -> ->] & -> & Hp). by destruct a', b'.
    + destruct (Remover_Remove (remover c) (Name cfg) (world s)) as [a w1]; cbn.
      by destruct a.
Qed.
End RemoveFacts.

(** ** Operations that leave the project alone *)

Section ReadOnlyFacts.
Context `{Platform} `{Schema} `{!FunctionPkg}.

(** X18.  [Deploy], [Route] and [Remove] never write the descriptor or
    the templates, never make a directory and never write a file: the
    project on disk changes under them only by what the deployer, the
    DNS provider, the remover or the pipelines provider do. *)
Theorem Deploy_Route_Remove_never_write (c : Client) (path : string)
    (cfg : Function) (serviceFirst deleteAll : bool) (s : State) :
  (∃ evs, trace (snd (Client_Deploy c path s)) = trace s ++ evs ∧
          Forall (fun ev => writes ev = false) evs) ∧
  (∃ evs, trace (snd (Client_Route c path s)) = trace s ++ evs ∧
          Forall (fun ev => writes ev = false) evs) ∧
  (∃ evs, trace (snd (Client_Remove serviceFirst c cfg deleteAll s))
          = trace s ++ evs ∧
          Forall (fun ev => writes ev = false) evs).
Proof.
  split_and!.
  - unfold Client_Deploy. run_step.
    repeat (case_match_goal; cbn); eexists;
      (split; [trace_tail|repeat constructor]).
  - unfold Client_Route. run_step.
    repeat (case_match_goal; cbn); eexists;
      (split; [trace_tail|repeat constructor]).
  - unfold Client_Remove. run_step.
    destruct serviceFirst, deleteAll; run_step;
      repeat (case_match_goal; cbn); eexists;
      (split; [trace_tail|repeat constructor]).
Qed.
End ReadOnlyFacts.

(** ** The commands [config volumes] *)

Section VolumesFacts.
Context `{Platform} `{Schema} `{!FunctionPkg} `{!VolumesPkg}.

Lemma prefix_slash a rest : String.prefix "/" (String a rest) = Ascii.eqb "/" a.
Proof.
  cbn [String.prefix]. destruct (ascii_dec "/" a) as [<-|Hne].
  - by destruct rest.
  - symmetry. by apply Ascii.eqb_neq.
Qed.

(** The loop of [runRemoveVolumesPrompt]: it stops at the first volume
    with the text looked for. *)
Lemma remove_volume_first volumes sel pre rest :
  volumes = pre ++ rest →
  sel ∉ map Volume_String pre →
  match remove_volume volumes sel (length pre) rest with
  | Some newVolumes =>
      ∃ l1 v l2, volumes = l1 ++ v :: l2 ∧ Volume_String v = sel ∧
                 (sel ∉ map Volume_String l1) ∧ newVolumes = l1 ++ l2
  | None => sel ∉ map Volume_String volumes
  end.
Proof.
  revert pre. induction rest as [|v rest IH]; intros pre -> Hpre; cbn.
  - by rewrite app_nil_r.
  - destruct (String.eqb_spec (Volume_String v) sel) as [Hv|Hv].
    + exists pre, v, rest. split_and!; try done.
      rewrite take_app_length. f_equal.
      rewrite cons_middle, app_assoc.
      apply drop_app_length'. rewrite length_app. cbn. lia.
    + specialize (IH (pre ++ [v])).
      rewrite length_app, Nat.add_1_r in IH. rewrite <- app_assoc in IH.
      apply IH; [done|].
      rewrite map_app, elem_of_app. cbn. rewrite list_elem_of_singleton.
      intros [?|?]; done.
Qed.

(** X12.  When the volume picked at the prompt of
    [runRemoveVolumesPrompt] is the text of one of the volumes of the
    descriptor, the descriptor is written once, with the first volume
    of that text taken out and every other volume, a later one with the
    same text included, kept in its order; the command returns what the
    write returned and announces the removal when the write
    succeeded. *)
Theorem runRemoveVolumesPrompt_removes_first (f : Function) (t t' : Terminal)
    (s : State) (l1 : list VolumeT) (v : VolumeT) (l2 : list VolumeT) :
  Runtime_Volumes f = l1 ++ v :: l2 →
  Volume_String v ∉ map Volume_String l1 →
  AskSelect "Which Volume do you want to remove?"
    (map Volume_String (Runtime_Volumes f)) t = (Answered (Volume_String v), t') →
  let g := set_Runtime_Volumes f (l1 ++ l2) in
  runRemoveVolumesPrompt f t s =
    ((fst (Function_Write g (world s)), t'),
     {| world := snd (Function_Write g (world s));
        trace := trace s ++ CallWrite g ::
                 match fst (Function_Write g (world s)) with
                 | None => [Stdout ("Volume entry was removed from the function configuration"
                                    +:+ eol)]
                 | Some _ => []
                 end |}).
Proof.
  intros Hvols Hfirst Hask. cbn zeta. unfold runRemoveVolumesPrompt.
  assert ((length (Runtime_Volumes f) =? 0)%nat = false) as ->.
  { rewrite Hvols, length_app. cbn. apply Nat.eqb_neq. lia. }
  rewrite Hask.
  pose proof (remove_volume_first (Runtime_Volumes f) (Volume_String v) []
                (Runtime_Volumes f) eq_refl) as Hloop.
  cbn [length map] in Hloop.
  destruct (remove_volume _ _ 0 _) as [newVolumes|].
  2:{ exfalso. apply Hloop; [apply not_elem_of_nil|].
      rewrite Hvols, map_app, elem_of_app. right. cbn. left. }
  destruct Hloop as (k1 & u & k2 & Hk & Hu & Hk1 & ->); [apply not_elem_of_nil|].
  assert (k1 = l1 ∧ k2 = l2) as [-> ->].
  { rewrite Hvols in Hk. clear -Hk Hu Hk1 Hfirst.
    revert k1 Hk Hk1. induction l1 as [|x l1 IH]; intros k1 Hk Hk1.
    - destruct k1 as [|y k1]; cbn in Hk.
      + by injection Hk as _ ->.
      + injection Hk as <- _. exfalso. apply Hk1. cbn. left.
    - destruct k1 as [|y k1]; cbn in Hk.
      + injection Hk as -> _. exfalso. apply Hfirst. cbn. rewrite Hu. left.
      + injection Hk as <- Hk.
        destruct (IH (λ Hin, Hfirst (list_elem_of_further _ _ _ Hin)) k1 Hk)
          as [-> ->]; [|done].
        intros Hin. apply Hk1. cbn. by right. }
  unfold Println. run_step.
  destruct (Function_Write _ (world s)) as [[e|] w']; cbn; [done|].
  by rewrite <- app_assoc.
Qed.

Lemma path_validator_slash str :
  path_validator str = None → ∃ rest, str = "/" +:+ rest.
Proof.
  unfold path_validator. destruct str as [|a rest]; [done|].
  rewrite prefix_slash. cbn [String.length Nat.leb orb].
  destruct (Ascii.eqb_spec "/"%char a) as [<-|Hne]; cbn [negb]; [eauto|done].
Qed.

(** X13.  The validator of the mount path accepts exactly the strings
    that begin with a slash; the empty string is refused by the test of
    the prefix alone. *)
Theorem path_validator_accepts (str : string) :
  path_validator str = None ↔ ∃ rest, str = "/" +:+ rest.
Proof.
  unfold path_validator. destruct str as [|a rest].
  - cbn. split; [done|]. by intros [rest ?].
  - rewrite prefix_slash. cbn [String.length Nat.leb orb].
    destruct (Ascii.eqb_spec "/"%char a) as [<-|Hne]; cbn [negb].
    + split; [eauto|done].
    + split; [done|]. intros [r [= ?]]. done.
Qed.

Lemma adds_mount_nothing f s a t evs :
  (∀ g, CallWrite g ∉ evs) →
  adds_mount f s ((a, t), {| world := world s; trace := trace s ++ evs |}).
Proof. intros Hno. left. split; [done|]. exists evs. done. Qed.

Lemma adds_mount_unchanged f s a t : adds_mount f s ((a, t), s).
Proof.
  left. split; [done|]. exists []. rewrite app_nil_r. split; [done|].
  intros g Hg. by apply elem_of_nil in Hg.
Qed.

Lemma add_volume_adds f secrets configMaps o t s :
  prompts_sound →
  ListSecretsNamesIfConnected (Runtime_Namespace f) (world s) = ok secrets →
  ListConfigMapsNamesIfConnected (Runtime_Namespace f) (world s) = ok configMaps →
  o = optionConfigMap ∨ o = optionSecret →
  adds_mount f s (add_volume f secrets configMaps o t s).
Proof.
  intros [Hsel Hinp] Hsec Hcm Ho. unfold add_volume.
  destruct Ho as [-> | ->]; cbn [String.eqb Ascii.eqb Bool.eqb optionConfigMap optionSecret];
    (destruct (AskSelect _ _ t) as [a t1] eqn:Hask1;
     destruct a as [name| |e]; try apply adds_mount_unchanged;
     apply Hsel in Hask1;
     destruct (AskInput _ path_validator t1) as [a t2] eqn:Hask2;
     destruct a as [path| |e]; try apply adds_mount_unchanged;
     apply Hinp in Hask2; apply path_validator_slash in Hask2 as [rest ->];
     right; exists secrets, configMaps;
     eexists; (split_and!; [done|done| |]);
     [ exists name, rest; eauto
     | cbn zeta; unfold Println; run_step;
       destruct (Function_Write _ (world s)) as [[e|] w'] eqn:Hw; cbn;
       rewrite ?Hw; cbn;
       (split_and!; [done|done|]);
       eexists; (split; [rewrite <- ?app_assoc; done|]);
       intros g' Hg'; revert Hg'; list_mem ]).
Qed.

(** X14.  With prompts that answer from what they offer and with what
    the validator accepts, a run of [runAddVolumesPrompt] either writes
    nothing, or writes the descriptor once: with the volumes it had, in
    their order, followed by one new volume that mounts a config map or
    a secret of the namespace, of a name the cluster listed, at a path
    that begins with a slash.  The command then returns what that write
    returned. *)
Theorem runAddVolumesPrompt_appends_mount (f : Function) (t : Terminal)
    (s : State) :
  prompts_sound →
  adds_mount f s (runAddVolumesPrompt f t s).
Proof.
  intros Hsound. unfold runAddVolumesPrompt, bind, look. cbv beta iota zeta.
  destruct (ListSecretsNamesIfConnected _ (world s)) as [secrets|e] eqn:Hsec;
    [|apply adds_mount_unchanged].
  destruct (ListConfigMapsNamesIfConnected _ (world s)) as [configMaps|e] eqn:Hcm;
    [|apply adds_mount_unchanged].
  destruct configMaps as [|cm cms], secrets as [|sc scs];
    cbn [length Nat.ltb Nat.leb app]; cbv beta iota zeta.
  - unfold emit, ret. apply adds_mount_nothing. intros g Hg. revert Hg. list_mem.
  - apply add_volume_adds; auto.
  - apply add_volume_adds; auto.
  - destruct (AskSelect _ _ t) as [a t1] eqn:Hask.
    destruct a as [o| |e]; try apply adds_mount_unchanged.
    apply (proj1 Hsound) in Hask.
    apply add_volume_adds; try done.
    revert Hask. list_mem.
Qed.
End VolumesFacts.

(** ** The command [run] *)

Section RunFacts.
Context `{Platform} `{Schema} `{!FunctionPkg} `{!CmdPkg}.

Lemma Built_state c path s :
  ∃ evs, snd (Client_Built c path s)
         = {| world := world s; trace := trace s ++ evs |} ∧
         Forall (fun ev => is_Stderr ev = true) evs.
Proof.
  unfold Client_Built. run_step.
  repeat (case_match_goal; cbn);
    first [ exists []; rewrite app_nil_r; split; [by destruct s|constructor]
          | eexists [_]; split; [done|by repeat constructor] ].
Qed.

Lemma Build_begins c path s :
  ∃ evs, trace (snd (Client_Build c path s)) = trace s ++ building :: evs ∧
         Forall (fun ev => is_Stdout ev = false) evs.
Proof.
  unfold Client_Build. run_step.
  destruct (NewFunction (world s) path) as [f [e|]]; cbn.
  { exists []. done. }
  destruct (DerivedImage (world s) path (registry c)) as [image [e|]]; cbn.
  { exists []. done. }
  destruct (Builder_Build (builder c) _ (world s)) as [[e|] w1]; cbn.
  { eexists [_]. split; [by rewrite <- app_assoc|by repeat constructor]. }
  destruct (Function_Write _ w1) as [[e|] w2]; cbn.
  { eexists [_; _]. split; [by rewrite <- !app_assoc|by repeat constructor]. }
  match goal with |- context [updateBuildStamp ?f0 ?s1] =>
    destruct (updateBuildStamp_events f0 s1) as (evs & Ht & Hown);
    destruct (updateBuildStamp f0 s1) as [r s2] end.
  cbn in Ht.
  assert (Forall (fun ev => is_Stdout ev = false) evs) as Hevs.
  { eapply Forall_impl; [exact Hown|]. intros ev. by destruct ev. }
  destruct r as [e|]; cbn; rewrite Ht.
  - eexists (_ :: _ :: evs). split; [by rewrite <- !app_assoc|].
    by repeat constructor.
  - eexists (_ :: _ :: evs ++ [_]). split; [by rewrite <- !app_assoc|].
    repeat constructor. apply Forall_app. split; [done|]. by repeat constructor.
Qed.

Lemma run_job_state rc config ending s :
  ∃ evs, trace (snd (run_job rc config ending s)) = trace s ++ evs ∧
         Forall (fun ev => is_Stderr ev = true) evs.
Proof.
  unfold run_job, Client_Run. unfold lift. run_step.
  repeat (case_match_goal; cbn);
    first [ exists []; rewrite app_nil_r; split; [done|constructor]
          | eexists [_]; split; [done|by repeat constructor] ].
Qed.

(** [run_with_client] under [--build=auto], step by step. *)
Lemma run_with_client_auto rc function config ending s :
  cfg_Build config = "auto" →
  run_with_client rc function config ending s =
  let '(built, s0) := Client_Built (rc_client rc) (Root function) s in
  let '(err, s1) :=
    if negb built then Client_Build (rc_client rc) (cfg_Path config) s0
    else (None, s0) in
  match err with
  | Some e =>
      (Some (Some e), {| world := rc_done rc (world s1); trace := trace s1 |})
  | None =>
      let '(r, s2) :=
        run_job rc config ending
          {| world := world s1; trace := trace s1 ++ [already_built_line] |} in
      (r, {| world := rc_done rc (world s2); trace := trace s2 |})
  end.
Proof.
  intros Hauto. unfold run_with_client. rewrite Hauto.
  change (String.eqb "auto" "auto") with true. cbv iota.
  unfold bind, Println, emit, lift, ret.
  destruct (Client_Built (rc_client rc) (Root function) s) as [built s0].
  destruct built; cbn [negb].
  - by destruct (run_job rc config ending _) as [r s2].
  - destruct (Client_Build (rc_client rc) (cfg_Path config) s0) as [[e|] s1]; [done|].
    by destruct (run_job rc config ending _) as [r s2].
Qed.

(** X15.  With [--build=auto] the command builds exactly when [Built]
    answers false for the root of the descriptor.  The line that says
    the Function was already built is printed whenever the command gets
    past this point: when [Built] answered true, and also right after a
    build it has just made.  When that build fails the command returns
    its error, and nothing is run: the world is left as the build, then
    the deferred call, left it. *)
Theorem run_auto_builds_iff_stale (rc : RunClient) (function : Function)
    (config : runConfig) (ending : Ending) (s : State) :
  cfg_Build config = "auto" →
  let built := Client_Built (rc_client rc) (Root function) s in
  let build := Client_Build (rc_client rc) (cfg_Path config) (snd built) in
  let r := run_with_client rc function config ending s in
  ∃ evs,
    trace (snd r) = trace s ++ evs ∧
    (building ∈ evs ↔ fst built = false) ∧
    (already_built_line ∈ evs ↔ fst built = true ∨ fst build = None) ∧
    (fst built = false → ∀ e, fst build = Some e →
       fst r = Some (Some e) ∧ world (snd r) = rc_done rc (world (snd build))).
Proof.
  intros Hauto. cbn zeta. rewrite (run_with_client_auto _ _ _ _ _ Hauto).
  destruct (Built_state (rc_client rc) (Root function) s) as (evs0 & Hs0 & Herr0).
  destruct (Client_Built (rc_client rc) (Root function) s) as [built s0].
  cbn [fst snd] in *. subst s0.
  assert (∀ ev, is_Stderr ev = false → ev ∉ evs0) as Hno0.
  { intros ev Hev Hin. rewrite Forall_forall in Herr0.
    apply Herr0 in Hin. congruence. }
  destruct built; cbn [negb].
  - destruct (run_job_state rc config ending
                {| world := world s;
                   trace := (trace s ++ evs0) ++ [already_built_line] |})
      as (evs1 & Ht1 & Herr1).
    cbn [world trace].
    destruct (run_job rc config ending _) as [r s1]. cbn [fst snd trace] in *.
    exists (evs0 ++ [already_built_line] ++ evs1).
    split; [by rewrite Ht1, <- !app_assoc|].
    assert (∀ ev, is_Stderr ev = false → ev ∉ evs1) as Hno1.
    { intros ev Hev Hin. rewrite Forall_forall in Herr1.
      apply Herr1 in Hin. congruence. }
    split_and!.
    + split; [|done]. rewrite !elem_of_app, list_elem_of_singleton.
      intros [Hin|[?|Hin]]; [by apply Hno0 in Hin|done|by apply Hno1 in Hin].
    + split; [auto|]. intros _. rewrite !elem_of_app, list_elem_of_singleton. auto.
    + done.
  - destruct (Build_begins (rc_client rc) (cfg_Path config)
                {| world := world s; trace := trace s ++ evs0 |})
      as (evsb & Htb & Hnb).
    destruct (Client_Build (rc_client rc) (cfg_Path config) _) as [err sb].
    cbn [fst snd trace] in *.
    assert (already_built_line ∉ evsb) as Hnob.
    { intros Hin. rewrite Forall_forall in Hnb. by apply Hnb in Hin. }
    assert (already_built_line ∉ evs0) as Hnoa by (by apply Hno0).
    destruct err as [e|].
    + cbn [fst snd trace world].
      exists (evs0 ++ building :: evsb).
      split; [by rewrite Htb, <- app_assoc|].
      split_and!.
      * split; [done|]. intros _. rewrite elem_of_app, elem_of_cons. auto.
      * split; [|by intros [?|?]].
        rewrite elem_of_app, elem_of_cons. intros [?|[?|?]]; done.
      * intros _ e' [= <-]. done.
    + destruct (run_job_state rc config ending
                  {| world := world sb;
                     trace := trace sb ++ [already_built_line] |})
        as (evs1 & Ht1 & Herr1).
      destruct (run_job rc config ending _) as [r s1]. cbn [fst snd trace] in *.
      exists (evs0 ++ building :: evsb ++ [already_built_line] ++ evs1).
      split.
      { rewrite Ht1, Htb, <- !app_assoc. cbn. by rewrite <- ?app_assoc. }
      split_and!.
      * split; [done|]. intros _. rewrite elem_of_app, elem_of_cons. auto.
      * split; [auto|]. intros _.
        rewrite !elem_of_app, elem_of_cons, !elem_of_app, list_elem_of_singleton.
        auto.
      * intros _ e' [=].
Qed.

Lemma ParseBool_other str :
  str ∉ build_values →
  ParseBool Quote str
  = (false, Some (Errorf ("strconv.ParseBool: parsing " +:+ Quote str
                          +:+ ": invalid syntax"))).
Proof.
  intros Hnot. unfold ParseBool.
  assert (∀ l, (∀ x, x ∈ l → x ∈ build_values) → existsb (String.eqb str) l = false)
    as Hall.
  { intros l Hl. apply not_true_is_false. intros Hex.
    apply existsb_exists in Hex as (x & Hx & Heq).
    apply String.eqb_eq in Heq as <-. apply Hnot, Hl. by apply list_elem_of_In. }
  rewrite !Hall; [done| |]; intros x; unfold build_values; list_mem.
Qed.

Lemma run_with_client_invalid rc function config ending s :
  cfg_Build config ∉ build_values →
  run_with_client rc function config ending s =
    (Some (Some (Errorf (invalid_build_message false))),
     {| world := rc_done rc (world s); trace := trace s |}).
Proof.
  intros Hnot. unfold run_with_client.
  assert (String.eqb (cfg_Build config) "auto" = false) as ->.
  { apply String.eqb_neq. intros Heq. apply Hnot. rewrite Heq.
    unfold build_values. list_mem. }
  rewrite (ParseBool_other _ Hnot). by destruct s.
Qed.

(** X16.  A value of [--build] other than [auto] and the twelve
    spellings of true and false that [strconv.ParseBool] knows makes the
    command fail before anything is built or run, and the message names
    the value as 'false' whatever was given. *)
Theorem run_invalid_build_names_false (rc : RunClient) (function : Function)
    (config : runConfig) (ending : Ending) (s : State) :
  cfg_Build config ∉ build_values →
  run_with_client rc function config ending s =
    (Some (Some (Errorf
       "invalid value for --build 'false'.  accepts 'auto', 'true' or 'false' (or similarly truthy value)")),
     {| world := rc_done rc (world s); trace := trace s |}).
Proof. apply run_with_client_invalid. Qed.

Lemma run_with_client_extends rc function config ending s :
  ∃ evs, trace (snd (run_with_client rc function config ending s)) = trace s ++ evs.
Proof.
  unfold run_with_client.
  assert (∀ s0, ∃ evs, trace (snd (run_job rc config ending s0)) = trace s0 ++ evs)
    as Hjob.
  { intros s0. destruct (run_job_state rc config ending s0) as (evs & ? & _). eauto. }
  assert (∀ s0, ∃ evs, trace (snd (Client_Build (rc_client rc) (cfg_Path config) s0))
                       = trace s0 ++ evs) as Hbuild.
  { intros s0. destruct (Build_begins (rc_client rc) (cfg_Path config) s0)
      as (evs & ? & _). eauto. }
  unfold bind, Println, emit, lift, ret.
  destruct (String.eqb (cfg_Build config) "auto").
  - destruct (Built_state (rc_client rc) (Root function) s) as (evs0 & Hs0 & _).
    destruct (Client_Built (rc_client rc) (Root function) s) as [built s0].
    cbn [snd] in Hs0. subst s0.
    destruct built; cbn [negb].
    + match goal with |- context [run_job rc config ending ?s1] =>
        destruct (Hjob s1) as (evs1 & Ht1);
        destruct (run_job rc config ending s1) as [r s2] end.
      cbn in *. rewrite Ht1. eexists. by rewrite <- !app_assoc.
    + match goal with |- context [Client_Build ?c ?p ?s1] =>
        destruct (Hbuild s1) as (evsb & Htb);
        destruct (Client_Build c p s1) as [[e|] sb] end; cbn in *.
      * rewrite Htb. eexists. by rewrite <- !app_assoc.
      * match goal with |- context [run_job rc config ending ?s1] =>
          destruct (Hjob s1) as (evs1 & Ht1);
          destruct (run_job rc config ending s1) as [r s2] end.
        cbn in *. rewrite Ht1, Htb. eexists. by rewrite <- !app_assoc.
  - destruct (ParseBool Quote (cfg_Build config)) as [build [e|]]; cbv beta iota zeta.
    { exists []. cbn [snd trace]. by rewrite app_nil_r. }
    destruct build.
    + match goal with |- context [Client_Build ?c ?p ?s1] =>
        destruct (Hbuild s1) as (evsb & Htb);
        destruct (Client_Build c p s1) as [[e|] sb] end; cbn in *.
      * eauto.
      * match goal with |- context [run_job rc config ending ?s1] =>
          destruct (Hjob s1) as (evs1 & Ht1);
          destruct (run_job rc config ending s1) as [r s2] end.
        cbn in *. rewrite Ht1, Htb. eexists. by rewrite <- !app_assoc.
    + match goal with |- context [run_job rc config ending ?s1] =>
        destruct (Hjob s1) as (evs1 & Ht1);
        destruct (run_job rc config ending s1) as [r s2] end.
      cbn in *. rewrite Ht1. eexists. by rewrite <- !app_assoc.
Qed.

Lemma run_with_client_valid rc function config ending s :
  ∃ evs,
    trace (snd (run_with_client rc function config ending s)) = trace s ++ evs ∧
    (evs ≠ [] → cfg_Build config ∈ build_values).
Proof.
  destruct (decide (cfg_Build config ∈ build_values)) as [Hin|Hnot].
  - destruct (run_with_client_extends rc function config ending s) as [evs Ht].
    exists evs. done.
  - rewrite (run_with_client_invalid _ _ _ _ _ Hnot). exists []. cbn.
    by rewrite app_nil_r.
Qed.

(** X17.  The variables given on the command line are merged into the
    descriptor and, when any was changed, the descriptor is written
    before the command looks whether the Function is initialized: on a
    descriptor that is not, the command fails after having written
    it. *)
Theorem runRun_writes_before_checking (config : runConfig)
    (newClient : ClientFactory) (ending : Ending) (s : State)
    (function : Function) (envs : list EnvT) (updated : Z) (w' : World) :
  NewFunction (world s) (cfg_Path config) = (function, None) →
  mergeEnvs (Envs (Run function)) (cfg_EnvToUpdate config) (cfg_EnvToRemove config)
    = ((envs, updated), None) →
  (0 < updated)%Z →
  Initialized function = false →
  Function_Write (set_Envs function envs) (world s) = (None, w') →
  runRun (ok config) newClient ending s =
    (Some (Some (Errorf ("the given path '" +:+ cfg_Path config
                         +:+ "' does not contain an initialized function"))),
     {| world := w';
        trace := trace s ++ [CallWrite (set_Envs function envs)] |}).
Proof.
  intros HN Hmerge Hupd Hinit Hwrite. unfold runRun. run_step.
  rewrite HN, Hmerge. cbn.
  assert ((0 <? updated)%Z = true) as -> by (apply Z.ltb_lt; lia).
  run_step. rewrite Hwrite. cbn.
  assert (Initialized (set_Envs function envs) = false) as -> by done.
  done.
Qed.

(** X21.  The command [run] prints that the Function has started only
    when the configuration was read, the descriptor loaded, the
    variables merged, the Function is initialized and the value of
    [--build] is one the command accepts: in every other case nothing
    is started. *)
Theorem runRun_starts_only_initialized (parsed : res runConfig)
    (newClient : ClientFactory) (ending : Ending) (s : State) :
  ∃ evs,
    trace (snd (runRun parsed newClient ending s)) = trace s ++ evs ∧
    ∀ port, started_line port ∈ evs →
      ∃ config function envs updated,
        parsed = ok config ∧
        NewFunction (world s) (cfg_Path config) = (function, None) ∧
        mergeEnvs (Envs (Run function)) (cfg_EnvToUpdate config)
          (cfg_EnvToRemove config) = ((envs, updated), None) ∧
        Initialized function = true ∧
        cfg_Build config ∈ build_values.
Proof.
  assert (∀ a : option (option error), ∃ evs, trace (snd (a, s)) = trace s ++ evs ∧
            ∀ port, started_line port ∈ evs →
              ∃ (config : runConfig) (function : Function) (envs : list EnvT)
                (updated : Z),
                parsed = ok config ∧
                NewFunction (world s) (cfg_Path config) = (function, None) ∧
                mergeEnvs (Envs (Run function)) (cfg_EnvToUpdate config)
                  (cfg_EnvToRemove config) = ((envs, updated), None) ∧
                Initialized function = true ∧
                cfg_Build config ∈ build_values) as Hquiet.
  { intros a. exists []. rewrite app_nil_r. split; [done|].
    intros port Hin. by apply elem_of_nil in Hin. }
  unfold runRun. destruct parsed as [config|e]; [|apply (Hquiet (Some (Some e)))].
  run_step.
  destruct (NewFunction (world s) (cfg_Path config)) as [function [e|]] eqn:HN; cbn;
    [apply (Hquiet (Some (Some e)))|].
  destruct (mergeEnvs _ _ _) as [[envs updated] [e|]] eqn:Hmerge; cbn;
    [apply (Hquiet (Some (Some e)))|].
  assert (Initialized (set_Envs function envs) = Initialized function) as Hinit by done.
  destruct (0 <? updated)%Z; run_step.
  - destruct (Function_Write _ (world s)) as [[e|] w1]; cbn.
    { eexists [_]. split; [done|]. intros port Hin.
      apply list_elem_of_singleton in Hin. done. }
    rewrite Hinit. destruct (Initialized function) eqn:Hi; cbn.
    2:{ eexists [_]. split; [done|]. intros port Hin.
        apply list_elem_of_singleton in Hin. done. }
    match goal with |- context [run_with_client ?rc ?f ?c ?e ?s1] =>
      destruct (run_with_client_valid rc f c e s1) as (evs & Ht & Hvalid) end.
    cbn in Ht. rewrite Ht. eexists (_ :: evs). split; [by rewrite <- app_assoc|].
    intros port Hin. exists config, function, envs, updated.
    split_and!; try done. apply Hvalid. intros ->.
    apply list_elem_of_singleton in Hin. done.
  - rewrite Hinit. destruct (Initialized function) eqn:Hi; cbn.
    2:{ exact (Hquiet None). }
    match goal with |- context [run_with_client ?rc ?f ?c ?e ?s1] =>
      destruct (run_with_client_valid rc f c e s1) as (evs & Ht & Hvalid) end.
    exists evs. split; [done|].
    intros port Hin. exists config, function, envs, updated.
    split_and!; try done. apply Hvalid. intros ->. by apply elem_of_nil in Hin.
Qed.
End RunFacts.

(** * The model at work *)

Lemma plainSemver_order : @SemverOrder plainSemver.
Proof.
  split.
  - intros [[a b] c]. cbn. rewrite !N.ltb_irrefl, !N.eqb_refl. done.
  - intros [[a b] c] [[a' b'] c'] [[a'' b''] c'']. cbn.
    rewrite !orb_true_iff, !andb_true_iff, !orb_true_iff, !andb_true_iff.
    rewrite !N.ltb_lt, !N.eqb_eq. lia.
Qed.

Section Examples.
#[local] Existing Instance unix.
#[local] Existing Instance bareSchema.
#[local] Existing Instance bareYaml.
#[local] Existing Instance barePkg.
#[local] Existing Instance plainSemver.
#[local] Existing Instance plainSemver_order.

(** SHA-256 on the test vectors of the standard. *)
Example sha256_abc :
  hex (SHA256.sum "abc")
  = "ba7816bf8f01cfea414140de5dae2223b00361a396177a9cb410ff61f20015ad".
Proof. vm_compute. reflexivity. Qed.

Example sha256_empty :
  hex (SHA256.sum "")
  = "e3b0c44298fc1c149afbf4c8996fb92427ae41e4649b934ca495991b7852b855".
Proof. vm_compute. reflexivity. Qed.

Example Join_cleans :
  Join ["/demo/"; ".func"; "built"] = "/demo/.func/built" ∧
  Join ["/a/b"; "../c"] = "/a/c".
Proof. vm_compute. done. Qed.

(** The project of the specification's end-to-end scenario: after the
    build [Built] is true; once a source file is touched it is false;
    after a push the descriptor on disk has the digest. *)
Example built_after_build :
  fst (Client_Built bareClient "/demo" (at_time 3000 built)) = true.
Proof. vm_compute. reflexivity. Qed.

Example stale_after_touch :
  let touched :=
    snd (sys_WriteFile "/demo/handle.go" "package function" (at_time 3000 built)) in
  fst (Client_Built bareClient "/demo" touched) = false.
Proof. vm_compute. reflexivity. Qed.

Example digest_after_push :
  let pushed := snd (Client_Push bareClient "/demo" (at_time 4000 built)) in
  ImageDigest (Runtime (fst (NewFunction (world pushed) "/demo"))) = "sha256:abc".
Proof. vm_compute. reflexivity. Qed.

Example fingerprint_of_built :
  fingerprint_input (world built) built_demo
  = (None, "/demo:1000:/demo/.gitignore:2000:/demo/func.yaml:2000:/demo/handle.go:1000:").
Proof. vm_compute. reflexivity. Qed.

(** A directory that cannot be listed makes the walk fail, and [Built]
    answer false. *)
Example unreadable_directory :
  let locked := {| pr := false; pw := true; px := true |} in
  let w := {| fs := Dir 0 ModePerm [("demo", Dir 1 ModePerm [("src", Dir 2 locked [])])];
              clock := 0 |} in
  snd (fingerprint w (blank "/demo")) = Some (PathError "open" "/demo/src" EACCES).
Proof. vm_compute. reflexivity. Qed.

(** The path hashed for an entry starts with the root as it was given to
    the walk: the same tree under another root has another
    fingerprint. *)
Example fingerprint_names_the_root :
  let w := {| fs := Dir 0 ModePerm [("demo", tree_a); ("other", tree_a)]; clock := 0 |} in
  fingerprint_input w (blank "/demo") = (None, "/demo:10:/demo/handle.go:20:") ∧
  fingerprint_input w (blank "/other") = (None, "/other:10:/other/handle.go:20:") ∧
  fst (fingerprint w (blank "/demo")) ≠ fst (fingerprint w (blank "/other")).
Proof. vm_compute. split_and!; done. Qed.

(** A file, not a directory, called [.git] is hashed like any other. *)
Example dot_git_file_is_observed :
  observed "demo" (Dir 1 ModePerm [(".git", File 2 ModePerm "gitdir: elsewhere")])
  = [([], 1); ([".git"], 2)].
Proof. reflexivity. Qed.

(** What the progress listener hears during a run of [New] that gets
    through: the increments of [New], and between them those of [Build]
    and [Deploy]. *)
Example New_progress :
  omap (fun ev => match ev with
                  | SetTotal _ | Increment _ | Complete _ => Some ev
                  | _ => None
                  end)
       (trace (snd (Client_New bareClient (set_Root (blank "") "/new")
                      (start (emptyWorld 1000)))))
  = [ SetTotal 3;
      Increment "Building container image";
      Increment "Building function image";
      Increment "🙌 Function image built: quay.io/alice/new:latest";
      Increment "Pushing container image to registry";
      Increment "Deploying Function to cluster";
      Increment "Deploying function to the cluster";
      Increment "Creating route to Function";
      Complete "Done" ].
Proof. vm_compute. reflexivity. Qed.

(** An unversioned descriptor goes through the three migrations. *)
Example migrate_unversioned :
  (Version <$> (fst <$> Migrate (world built) built_demo)) = Some "1.0.0".
Proof. vm_compute. reflexivity. Qed.

Lemma migrations_ascending : ascending migrations.
Proof.
  exists (0, 0, 0)%N, [(0, 19, 0); (0, 23, 0); (1, 0, 0)]%N.
  split; [reflexivity|]. split; [reflexivity|].
  repeat constructor.
Defined.

(** *** The theorems at concrete inputs *)

Lemma fingerprint_of_observed_entries_witness :
  ordered tree_a ∧ ordered tree_b ∧
  fingerprint (world_of tree_a) demo = fingerprint (world_of tree_b) demo.
Proof.
  assert (ordered tree_a) as Ha by (cbn; repeat constructor).
  assert (ordered tree_b) as Hb by (cbn; repeat constructor).
  split; [exact Ha|]. split; [exact Hb|].
  apply (fingerprint_of_observed_entries
           (world_of tree_a) (world_of tree_b) demo tree_a tree_b);
    try (vm_compute; reflexivity); try assumption.
  intros e. vm_compute. tauto.
Defined.

Lemma Migrate_applies_by_threshold_witness :
  ascending migrations ∧ versioned built_demo ∧
  ∃ r, Migrate (world built) built_demo = Some r ∧
       chain (world built) migrations (effective built_demo) r.
Proof.
  assert (versioned built_demo) as Hv by (left; reflexivity).
  split; [exact migrations_ascending|]. split; [exact Hv|].
  exact (proj1 (Migrate_applies_by_threshold (world built) built_demo
                  migrations_ascending Hv)).
Defined.

Lemma Migrate_monotone_and_stable_witness :
  ∃ f',
    Migrate (world built) built_demo = Some (f', None) ∧
    version_less (Version f') (Version (effective built_demo)) = Some false ∧
    Migrate (emptyWorld 0) f' = Some (f', None).
Proof.
  eexists. split; [vm_compute; reflexivity|].
  apply (Migrate_monotone_and_stable (world built) (emptyWorld 0) built_demo).
  - exact migrations_ascending.
  - vm_compute. reflexivity.
Defined.

Lemma not_built_sentinel_witness :
  Client_Push bareClient "/demo" created = (Some ErrNotBuilt, created) ∧
  Client_Deploy bareClient "/demo" created = (Some ErrNotBuilt, created).
Proof.
  pose proof (not_built_sentinel bareClient "/demo" created
                (fst (NewFunction (world created) "/demo"))) as Hs.
  destruct Hs as (Hpush & Hdeploy & _).
  - vm_compute. reflexivity.
  - vm_compute. reflexivity.
  - split; [exact Hpush|exact Hdeploy].
Defined.

Lemma Remove_reports_failures_witness :
  let c := {| verbose := false; registry := "";
              builder := noopBuilder; pusher := noopPusher; deployer := noopDeployer;
              remover := stubRemover (Some (Errorf "service gone"));
              dnsProvider := noopDNSProvider;
              pipelinesProvider := stubPipelines (Some (Errorf "pipeline stuck")) |} in
  ∃ msg,
    fst (Client_Remove true c built_demo true built) = Some (Errorf msg) ∧
    contains msg "service gone" ∧ contains msg "pipeline stuck".
Proof.
  intros c.
  destruct (Remove_reports_failures true c built_demo built_demo "demo" true built)
    as (w1 & w2 & A & B & HA & HB & _ & _ & _ & Hboth & _).
  - left. split; [discriminate|]. split; reflexivity.
  - apply (Hboth (Errorf "service gone") (Errorf "pipeline stuck")).
    + rewrite HA. reflexivity.
    + rewrite HB. reflexivity.
Defined.

Lemma Create_refuses_initialized_witness :
  ∃ e s',
    Client_Create bareClient demo built = (Some e, s') ∧
    world s' = world built ∧
    e = Errorf "Function at '/demo' already initialized".
Proof.
  destruct (Create_refuses_initialized bareClient demo built "/demo")
    as (e & s' & Hc & _ & _ & Hsame).
  - reflexivity.
  - intros w1 Hmk. vm_compute in Hmk. injection Hmk as <-. vm_compute. reflexivity.
  - exists e, s'. split; [exact Hc|].
    eapply Hsame. vm_compute. reflexivity.
Defined.

Lemma Push_fails_without_writing_witness :
  let c := {| verbose := false; registry := "";
              builder := noopBuilder;
              pusher := stubPusher "" (Some (Errorf "registry unreachable"));
              deployer := noopDeployer; remover := noopRemover;
              dnsProvider := noopDNSProvider;
              pipelinesProvider := noopPipelinesProvider |} in
  Client_Push c "/demo" built
  = (Some (Errorf "registry unreachable"),
     {| world := world built; trace := trace built ++ [CallPush built_demo] |}).
Proof.
  intros c.
  apply (Push_fails_without_writing c "/demo" built built_demo ""
           (Errorf "registry unreachable") (world built));
    vm_compute; reflexivity.
Defined.
End Examples.

(** * The further properties at work *)

Section MoreExamples.
#[local] Existing Instance unix.
#[local] Existing Instance bareSchema.
#[local] Existing Instance bareYaml.
#[local] Existing Instance barePkg.
#[local] Existing Instance plainSemver.
#[local] Existing Instance plainSemver_order.

(** A version that is no version makes [Migrate] panic. *)
Lemma Migrate_panics_iff_malformed_witness :
  Migrate (world built) (set_Version built_demo "banana") = None.
Proof.
  apply (Migrate_panics_iff_malformed (world built) (set_Version built_demo "banana")
           migrations_ascending).
  split; [discriminate|vm_compute; reflexivity].
Defined.

(** With no descriptor file to read, the second migration fails, and
    what comes back is not up to date. *)
Lemma Migrate_error_iff_not_migrated_witness :
  ∃ f' e,
    Migrate (emptyWorld 0) built_demo = Some (f', Some e) ∧
    Migrated f' = Some false.
Proof.
  eexists _, _. split; [vm_compute; reflexivity|].
  refine (Migrate_error_iff_not_migrated (emptyWorld 0) built_demo _
            (Some _) migrations_ascending _).
  vm_compute. reflexivity.
Defined.

Lemma Migrate_keeps_identity_witness :
  ∃ f' err,
    Migrate (world built) built_demo = Some (f', err) ∧
    Root f' = "/demo" ∧ Name f' = "demo" ∧ Runtime f' = Runtime built_demo.
Proof.
  eexists _, _. split; [vm_compute; reflexivity|].
  refine (Migrate_keeps_identity (world built) built_demo _ None _).
  vm_compute. reflexivity.
Defined.

Lemma Migrate_keeps_creation_time_witness :
  ∃ f' err,
    Migrate (world built) (set_Created built_demo (Some 7)) = Some (f', err) ∧
    Created f' = Some 7.
Proof.
  eexists _, _. split; [vm_compute; reflexivity|].
  refine (Migrate_keeps_creation_time (world built)
            (set_Created built_demo (Some 7)) _ None _).
  vm_compute. reflexivity.
Defined.

Lemma Migrate_sections_from_file_witness :
  ∃ f' bb f0,
    Migrate (world built) built_demo = Some (f', None) ∧
    ReadFile (world built) (Join [Root built_demo; FunctionFile]) = ok bb ∧
    Unmarshal_100 bb = ok f0 ∧
    Build f' = Build_of_100 f0 ∧ Run f' = Run_of_100 f0.
Proof.
  assert (∃ f', Migrate (world built) built_demo = Some (f', None)) as [f' Hm].
  { eexists. vm_compute. reflexivity. }
  exists f'.
  destruct (Migrate_sections_from_file (world built) built_demo f'
              migrations_ascending) as (bb & f0 & Hr & Hu & Hb & Hrun).
  - vm_compute. reflexivity.
  - exact Hm.
  - exists bb, f0. done.
Defined.

Lemma migrateToBuilderImages_carries_builder_witness :
  ∃ f' bb f0,
    migrateToBuilderImages (world built) built_demo "0.23.0" = (f', None) ∧
    ReadFile (world built) (Join [Root built_demo; FunctionFile]) = ok bb ∧
    Unmarshal_BuilderImages bb = ok f0 ∧
    f' = set_Version (set_BuilderImages built_demo (BuilderImages (Build f'))) "0.23.0".
Proof.
  assert (∃ f', migrateToBuilderImages (world built) built_demo "0.23.0" = (f', None))
    as [f' Hm].
  { eexists. vm_compute. reflexivity. }
  exists f'.
  destruct (migrateToBuilderImages_carries_builder (world built) built_demo f' "0.23.0")
    as (bb & f0 & Hr & Hu & _ & _ & Hf).
  - exact Hm.
  - exists bb, f0. done.
Defined.

(** Writing the stamp again does not change the fingerprint. *)
Lemma fingerprint_blind_below_skipped_witness :
  ∃ w',
    WriteFile "/demo/.func/built" "anything" (world built) = (None, w') ∧
    fingerprint w' built_demo = fingerprint (world built) built_demo.
Proof.
  eexists. split; [vm_compute; reflexivity|].
  eapply (fingerprint_blind_below_skipped (world built) _ built_demo
           "/demo/.func/built" "anything" [] ".func" ["built"]).
  - reflexivity.
  - discriminate.
  - vm_compute. reflexivity.
  - vm_compute. reflexivity.
Defined.

(** A source file rewritten a thousand seconds after the build. *)
Lemma fingerprint_sees_touch_witness :
  let w := world (at_time 3000 built) in
  ∃ w',
    WriteFile "/demo/handle.go" "package function" w = (None, w') ∧
    fingerprint_input w' built_demo ≠ fingerprint_input w built_demo.
Proof.
  intros w. eexists. split; [vm_compute; reflexivity|].
  eapply (fingerprint_sees_touch w _ built_demo "/demo/handle.go"
            "package function" ["handle.go"] 1000).
  - vm_compute. reflexivity.
  - vm_compute. reflexivity.
  - reflexivity.
  - discriminate.
  - vm_compute. reflexivity.
  - vm_compute. reflexivity.
Defined.

Lemma updateBuildStamp_stamp_is_current_witness :
  ∃ s' hash t perm,
    updateBuildStamp built_demo (at_time 3000 built) = (None, s') ∧
    fingerprint (world s') built_demo = (hash, None) ∧
    find (resolve (Join [Root built_demo; RunDataDir; buildstamp])) (fs (world s'))
      = inr (File t perm hash).
Proof.
  assert (∃ s', updateBuildStamp built_demo (at_time 3000 built) = (None, s'))
    as [s' Hup].
  { eexists. vm_compute. reflexivity. }
  exists s'.
  destruct (updateBuildStamp_stamp_is_current built_demo (at_time 3000 built) s')
    as (hash & t & perm & Hfp & Hfile).
  - vm_compute. reflexivity.
  - exact Hup.
  - exists hash, t, perm. done.
Defined.

Lemma Built_after_Build_witness :
  fst (Client_Built bareClient "/demo" built) = true.
Proof.
  apply (Built_after_Build bareClient "/demo" (at_time 2000 created) built
           (fst (NewFunction (world (at_time 2000 created)) "/demo")) built_demo).
  - vm_compute. reflexivity.
  - vm_compute. reflexivity.
  - vm_compute. reflexivity.
  - vm_compute. reflexivity.
  - vm_compute. reflexivity.
  - vm_compute. reflexivity.
  - vm_compute. reflexivity.
  - eexists. vm_compute. reflexivity.
Defined.

Lemma noop_removals_commute : removals_commute bareClient.
Proof. intros name cfg w. cbn. done. Defined.

Lemma Remove_order_irrelevant_witness :
  fst (Client_Remove true bareClient built_demo true built)
    = fst (Client_Remove false bareClient built_demo true built).
Proof.
  exact (proj1 (Remove_order_irrelevant bareClient built_demo true built
                  noop_removals_commute)).
Defined.
End MoreExamples.

Section RunExamples.
#[local] Existing Instance unix.
#[local] Existing Instance bareSchema.
#[local] Existing Instance barePkg.
#[local] Existing Instance bareCmd.

(** The project built at instant 2000 and touched since is built again
    by [run --build=auto]; the line about the image at hand is printed
    all the same. *)
Lemma run_auto_builds_iff_stale_witness :
  let touched :=
    snd (sys_WriteFile "/demo/handle.go" "package function" (at_time 3000 built)) in
  ∃ evs,
    trace (snd (run_with_client bareRunClient built_demo
                  (run_config "/demo" "auto" []) Cancelled touched))
      = trace touched ++ evs ∧
    building ∈ evs ∧ already_built_line ∈ evs.
Proof.
  intros touched.
  destruct (run_auto_builds_iff_stale bareRunClient built_demo
              (run_config "/demo" "auto" []) Cancelled touched eq_refl)
    as (evs & Ht & Hb & Ha & _).
  exists evs. split; [exact Ht|]. split.
  - apply Hb. vm_compute. reflexivity.
  - apply Ha. right. vm_compute. reflexivity.
Defined.

Lemma run_invalid_build_names_false_witness :
  fst (run_with_client bareRunClient built_demo
         (run_config "/demo" "yes" []) Cancelled built)
  = Some (Some (Errorf
      "invalid value for --build 'false'.  accepts 'auto', 'true' or 'false' (or similarly truthy value)")).
Proof.
  rewrite (run_invalid_build_names_false bareRunClient built_demo
             (run_config "/demo" "yes" []) Cancelled built).
  - reflexivity.
  - unfold build_values. cbn. list_mem.
Defined.

(** In a directory without a descriptor, removing a variable writes a
    descriptor before the command finds there is no Function. *)
Lemma runRun_writes_before_checking_witness :
  ∃ w',
    runRun (ok (run_config "/" "auto" ["HOME"])) (fun _ _ => bareRunClient)
      Cancelled (start (emptyWorld 5))
    = (Some (Some (Errorf "the given path '/' does not contain an initialized function")),
       {| world := w'; trace := [CallWrite (blank "/")] |}) ∧
    ∃ t perm data, find ["func.yaml"] (fs w') = inr (File t perm data).
Proof.
  eexists. split.
  - apply (runRun_writes_before_checking (run_config "/" "auto" ["HOME"])
             (fun _ _ => bareRunClient) Cancelled (start (emptyWorld 5))
             (blank "/") [] 1).
    + vm_compute. reflexivity.
    + vm_compute. reflexivity.
    + lia.
    + reflexivity.
    + vm_compute. reflexivity.
  - vm_compute. eauto.
Defined.
End RunExamples.

Section VolumesExamples.
#[local] Existing Instance unix.
#[local] Existing Instance volSchema.
#[local] Existing Instance quietPkg.
#[local] Existing Instance scripted.

Lemma scripted_sound : prompts_sound.
Proof.
  split.
  - intros msg opts t a t'. cbn. unfold scripted_select.
    destruct t as [|[b| |e] t0]; try done.
    case_bool_decide as Hin; [|done]. by intros [= <- _].
  - intros msg validator t a t'. cbn.
    induction t as [|[b| |e] t0 IH]; cbn; try done.
    destruct (validator b) eqn:Hv; [done|]. by intros [= <- _].
Defined.

(** Of two volumes with the same text the first goes. *)
Lemma runRemoveVolumesPrompt_removes_first_witness :
  let a := (Some "token", None, Some "/a") in
  let b := (None, Some "settings", Some "/b") in
  let f := with_volumes "/demo" [a; b; b] in
  fst (runRemoveVolumesPrompt f (entered [Answered (volume_text b)]) quiet)
    = (None, entered []) ∧
  trace (snd (runRemoveVolumesPrompt f (entered [Answered (volume_text b)])
                quiet))
    = [CallWrite (with_volumes "/demo" [a; b]);
       Stdout ("Volume entry was removed from the function configuration" +:+ eol)].
Proof.
  intros a b f.
  rewrite (runRemoveVolumesPrompt_removes_first f
             (entered [Answered (volume_text b)]) (entered []) quiet [a] b [b]).
  - split; reflexivity.
  - reflexivity.
  - intros Hin. apply list_elem_of_singleton in Hin. discriminate Hin.
  - vm_compute. reflexivity.
Defined.

(** A relative path is refused and asked for again. *)
Lemma runAddVolumesPrompt_appends_mount_witness :
  let f := with_volumes "/demo" [] in
  let script :=
    entered [Answered "Secret"; Answered "token"; Answered "etc"; Answered "/etc"] in
  adds_mount f quiet
    (runAddVolumesPrompt f script quiet) ∧
  trace (snd (runAddVolumesPrompt f script quiet))
    = [CallWrite (with_volumes "/demo" [(Some "token", None, Some "/etc")]);
       Stdout ("Volume entry was added to the function configuration" +:+ eol)].
Proof.
  intros f script. split.
  - exact (runAddVolumesPrompt_appends_mount f script quiet
             scripted_sound).
  - vm_compute. reflexivity.
Defined.
End VolumesExamples.
